(** * GeoProof: imagery acquisition and change detection

    A shallow embedding of the change-detection core of the repository:
    the pixel diff loop of [DiffViewer], the tile mosaic loader
    [loadBboxImageFromTiles], the STAC candidate pickers [pickClosest] and
    [pickClearest], and the Wayback timeline route ([POST]).

    How JavaScript numbers are read.
    - Canvas bytes ([Uint8ClampedArray] entries) are [Byte.byte].
    - The brightness heuristics ([luma], [saturation], [isCloudLike],
      [isVeryDark]) are evaluated in binary64, as the source does, with
      primitive floats: the outcome at the thresholds depends on rounding.
    - Channel differences, counters, identifiers and timestamps are
      integers and are computed exactly by the source as well.
    - Quotients of those integers (the per-pixel difference, the sum and
      mean of the diff loop, percentages, ratios) and cloud cover are
      rationals ([Q]).  Where a comparison depends on how the quotient is
      rounded, the rounding to binary64 is written out with [Binary64.RN]:
      the day offset of the pickers ([Selector.daysBetween]) and the test
      that lights a heatmap pixel ([Heatmap.hot64]).
    - The Web-Mercator projection of the mosaic loader is stated over the
      real numbers ([R]); the tile columns as binary64 computes them, with
      overflow to infinity and NaN, are in [Projector64].
    - The network and the clock are parameters: what each tile request or
      probe comes to, and what each call to [Date.now()] returns. *)

From Stdlib Require Import ZArith QArith Qround Qminmax List Bool Lia Lra.
From Stdlib Require Import PrimFloat Uint63 Strings.Byte Strings.String Strings.Ascii.
From Stdlib Require Import Sorting.Sorted Sorting.Permutation.
From Stdlib Require Import Reals.
From Stdlib Require Lqa.
From Stdlib Require Import DecimalString.
From Stdlib Require Import FloatOps SpecFloat.
Import ListNotations.

Set Warnings "-inexact-float".

(** ** JavaScript results: a thrown [Error] or a value *)

Inductive result (E A : Type) : Type :=
| Throw : E -> result E A
| Return : A -> result E A.
Arguments Throw {E A} _.
Arguments Return {E A} _.

(** ** Pixel diff engine (DiffViewer) *)

Module Diff.

Local Open Scope Z_scope.

(** [ImageData]: [data] is the flat RGBA byte array, four bytes a pixel.
    A canvas always hands out [length data = 4 * width * height]. *)
Record ImageData := mkImageData {
  width : nat;
  height : nat;
  data : list byte
}.

Record DiffStats := mkDiffStats {
  stats_width : nat;
  stats_height : nat;
  meanDiff : Q;
  changedPercent : Q
}.

Inductive DiffError := AllPixelsMasked.

(** A byte read as a JavaScript number. *)
Definition byteZ (b : byte) : Z := Z.of_N (Byte.to_N b).
Definition num (b : byte) : float := PrimFloat.of_uint63 (Uint63.of_Z (byteZ b)).

Definition fmax (x y : float) : float := if PrimFloat.ltb x y then y else x.
Definition fmin (x y : float) : float := if PrimFloat.ltb y x then y else x.

Definition luma (r g b : byte) : float :=
  (0.2126 * num r + 0.7152 * num g + 0.0722 * num b)%float.

Definition saturation (r g b : byte) : float :=
  let max := fmax (fmax (num r) (num g)) (num b) in
  let min := fmin (fmin (num r) (num g)) (num b) in
  if PrimFloat.leb max 0%float then 0%float else ((max - min) / max)%float.

Definition isCloudLike (r g b : byte) : bool :=
  let y := luma r g b in
  let s := saturation r g b in
  PrimFloat.leb 210%float y && PrimFloat.leb s 0.18%float.

Definition isVeryDark (r g b : byte) : bool :=
  PrimFloat.leb (luma r g b) 18%float.

(** [ad[idx]]: inside the buffer on every canvas image. *)
Definition at_ (d : list byte) (idx : nat) : byte := nth idx d x00.

(** [Uint8ClampedArray] store: round to nearest, ties to even, clamp. *)
Definition roundHalfEven (q : Q) : Z :=
  let f := Qfloor q in
  let r := (q - inject_Z f)%Q in
  match (r ?= 1 # 2)%Q with
  | Lt => f
  | Gt => f + 1
  | Eq => if Z.even f then f else f + 1
  end.

Definition clampU8 (q : Q) : Z := Z.max 0 (Z.min 255 (roundHalfEven q)).

(** The mutable locals of the loop. *)
Record Acc := mkAcc {
  sum : Q;
  changed : nat;
  considered : nat;
  od : list Z
}.

Definition acc0 : Acc := mkAcc 0 0 0 [].

(** The mask test of the loop body. *)
Definition masked (ignoreClouds ignoreDark : bool) (ad bd : list byte) (i : nat) : bool :=
  let idx := (i * 4)%nat in
  let ar := at_ ad idx in
  let ag := at_ ad (idx + 1) in
  let ab := at_ ad (idx + 2) in
  let br := at_ bd idx in
  let bg := at_ bd (idx + 1) in
  let bb := at_ bd (idx + 2) in
  (ignoreClouds && (isCloudLike ar ag ab || isCloudLike br bg bb))
  || (ignoreDark && (isVeryDark ar ag ab || isVeryDark br bg bb)).

(** [d = (dr + dg + db) / 3] for pixel [i]. *)
Definition pixelDiff (ad bd : list byte) (i : nat) : Q :=
  let idx := (i * 4)%nat in
  let dr := Z.abs (byteZ (at_ ad idx) - byteZ (at_ bd idx)) in
  let dg := Z.abs (byteZ (at_ ad (idx + 1)) - byteZ (at_ bd (idx + 1))) in
  let db := Z.abs (byteZ (at_ ad (idx + 2)) - byteZ (at_ bd (idx + 2))) in
  (inject_Z (dr + dg + db) / 3)%Q.

(** One iteration of [for (let i = 0; i < n; i++)]. *)
Definition diffStep (threshold : Q) (ignoreClouds ignoreDark : bool)
    (ad bd : list byte) (acc : Acc) (i : nat) : Acc :=
  if masked ignoreClouds ignoreDark ad bd i then
    mkAcc (sum acc) (changed acc) (considered acc) (od acc ++ [255; 0; 0; 0])
  else
    let d := pixelDiff ad bd i in
    let hot := Qle_bool threshold d in
    mkAcc (sum acc + d)%Q
          (if hot then S (changed acc) else changed acc)
          (S (considered acc))
          (od acc ++ [255; 0; 0; if hot then clampU8 (Qmin 220 (40 + d)) else 0]).

Definition diffLoop (threshold : Q) (ignoreClouds ignoreDark : bool)
    (ad bd : list byte) (n : nat) : Acc :=
  fold_left (diffStep threshold ignoreClouds ignoreDark ad bd) (seq 0 n) acc0.

Definition natQ (n : nat) : Q := inject_Z (Z.of_nat n).

(** The diff part of [run]: heatmap bytes and statistics, or the
    "All pixels were masked" error. *)
Definition computeDiff (a b : ImageData) (threshold : Q)
    (ignoreClouds ignoreDark : bool) : result DiffError (list Z * DiffStats) :=
  let w := Nat.min (width a) (width b) in
  let h := Nat.min (height a) (height b) in
  let n := (w * h)%nat in
  let acc := diffLoop threshold ignoreClouds ignoreDark (data a) (data b) n in
  if Nat.eqb (considered acc) 0 then Throw AllPixelsMasked
  else Return (od acc,
               mkDiffStats w h
                 (sum acc / natQ (considered acc))%Q
                 ((natQ (changed acc) / natQ (considered acc)) * 100)%Q).

(** Number of pixels the mask lets through, counted apart from the loop. *)
Definition consideredCount (a b : ImageData) (ignoreClouds ignoreDark : bool) : nat :=
  let n := (Nat.min (width a) (width b) * Nat.min (height a) (height b))%nat in
  List.length (filter (fun i => negb (masked ignoreClouds ignoreDark (data a) (data b) i))
                      (seq 0 n)).

(** A solid-colour [w] x [h] image. *)
Definition solid (w h : nat) (r g b : byte) : ImageData :=
  mkImageData w h (List.concat (repeat [r; g; b; xff] (w * h))).

(** An all-white image. *)
Definition white (w h : nat) : ImageData := solid w h xff xff xff.

End Diff.

(** ** binary64 rounding *)

Module Binary64.

Local Open Scope Z_scope.

(** Every finite double is a whole number of quanta of [2^-1074]. *)
Definition quantum : Z := Eval cbv in 2 ^ 1074.

(** A non-negative number of quanta rounded to 53 significant bits, to
    nearest, ties to even.  Below [2^53] quanta (the subnormals and the
    first binade) the doubles are one quantum apart. *)
Definition round53 (x : Q) : Z :=
  let f := Qfloor x in
  if f <? 2 ^ 53 then Diff.roundHalfEven x
  else
    let u := Z.log2 f - 52 in
    Diff.roundHalfEven (x / inject_Z (2 ^ u)) * 2 ^ u.

(** The double nearest to [q], ties to even, with the exponent left
    unbounded above: what a binary64 operation returns for the exact
    result [q] when it does not overflow. *)
Definition RN (q : Q) : Q :=
  if Qle_bool 0 q
  then inject_Z (round53 (q * inject_Z quantum)) / inject_Z quantum
  else - (inject_Z (round53 (- q * inject_Z quantum)) / inject_Z quantum).

(** The value of a primitive float, for comparing [RN] with the
    machine's arithmetic. *)
Definition valueOf (f : float) : Q :=
  match Prim2SF f with
  | S754_finite s m e =>
      let v := if 0 <=? e then inject_Z (Zpos m * 2 ^ e)
               else (inject_Z (Zpos m) / inject_Z (2 ^ (- e)))%Q in
      if s then (- v)%Q else v
  | _ => 0%Q
  end.

End Binary64.

(** ** Tile columns in binary64 (the [x] half of lonLatToWorldPx, calc and
       lonLatToTile) *)

Module Projector64.
Import Binary64.

Local Open Scope Q_scope.

(** A JavaScript number: a finite double with its value, an infinity or
    NaN.  The two zeros are not told apart; nothing here divides by a
    zero or takes its sign. *)
Inductive F64 :=
| Fin (q : Q)
| PInf
| NInf
| NaN.

(** [2^1024], the first power of two that is no double. *)
Definition hugeZ : Z := Eval cbv in (2 ^ 1024)%Z.
Definition huge : Q := inject_Z hugeZ.

(** The result of an operation whose exact value is [q]. *)
Definition fl (q : Q) : F64 :=
  let r := RN q in
  if Qle_bool huge r then PInf
  else if Qle_bool r (- huge) then NInf
  else Fin r.

Definition opp (x : F64) : F64 :=
  match x with
  | Fin q => Fin (- q)
  | PInf => NInf
  | NInf => PInf
  | NaN => NaN
  end.

Definition add (x y : F64) : F64 :=
  match x, y with
  | NaN, _ => NaN
  | _, NaN => NaN
  | Fin a, Fin b => fl (a + b)
  | PInf, NInf => NaN
  | NInf, PInf => NaN
  | PInf, _ => PInf
  | _, PInf => PInf
  | NInf, _ => NInf
  | _, NInf => NInf
  end.

Definition sub (x y : F64) : F64 := add x (opp y).

(** An infinity times or over a finite number of sign [s]. *)
Definition signedInf (inf : F64) (s : comparison) : F64 :=
  match s with
  | Gt => inf
  | Lt => opp inf
  | Eq => NaN
  end.

Definition mul (x y : F64) : F64 :=
  match x, y with
  | NaN, _ => NaN
  | _, NaN => NaN
  | Fin a, Fin b => fl (a * b)
  | Fin a, _ => signedInf y (a ?= 0)
  | _, Fin b => signedInf x (b ?= 0)
  | PInf, PInf => PInf
  | NInf, NInf => PInf
  | _, _ => NInf
  end.

Definition div (x y : F64) : F64 :=
  match x, y with
  | NaN, _ => NaN
  | _, NaN => NaN
  | Fin a, Fin b =>
      match b ?= 0 with
      | Eq => match a ?= 0 with Eq => NaN | Gt => PInf | Lt => NInf end
      | _ => fl (a / b)
      end
  | Fin _, _ => Fin 0
  | _, Fin b => match b ?= 0 with Lt => opp x | _ => x end
  | _, _ => NaN
  end.

(** [Math.floor] *)
Definition Math_floor (x : F64) : F64 :=
  match x with
  | Fin q => Fin (inject_Z (Qfloor q))
  | _ => x
  end.

(** [x >= y] *)
Definition geb (x y : F64) : bool :=
  match x, y with
  | NaN, _ => false
  | _, NaN => false
  | Fin a, Fin b => Qle_bool b a
  | PInf, _ => true
  | _, NInf => true
  | _, _ => false
  end.

(** [2 ** z] *)
Definition pow2 (z : nat) : F64 := fl (inject_Z (2 ^ Z.of_nat z)).

(** The [x] of [lonLatToWorldPx]: [((lon + 180) / 360) * n * 256]. *)
Definition worldPxX (lon : F64) (z : nat) : F64 :=
  mul (mul (div (add lon (Fin 180)) (Fin 360)) (pow2 z)) (Fin 256).

(** [x0] and [x1] of [calc]: [Math.floor(p.x / 256)]. *)
Definition column (lon : F64) (zoom : nat) : F64 :=
  Math_floor (div (worldPxX lon zoom) (Fin 256)).

(** [tilesX = x1 - x0 + 1] of [calc]. *)
Definition tilesX (minLng maxLng : F64) (zoom : nat) : F64 :=
  add (sub (column maxLng zoom) (column minLng zoom)) (Fin 1).

(** The [x] of [lonLatToTile]: [Math.floor(((lon + 180) / 360) * n)]. *)
Definition tileX (lon : F64) (z : nat) : F64 :=
  Math_floor (mul (div (add lon (Fin 180)) (Fin 360)) (pow2 z)).

(** The longitude of [centerOfBbox]: [(bbox[0] + bbox[2]) / 2]. *)
Definition centerLon (minLng maxLng : F64) : F64 :=
  div (add minLng maxLng) (Fin 2).

(** The column the timeline route probes for a bounding box. *)
Definition probeColumn (minLng maxLng : F64) (z : nat) : F64 :=
  tileX (centerLon minLng maxLng) z.

(** What the steps above come to while every intermediate result is finite:
    [((lon + 180) / 360) * n] and the column of [calc]. *)
Definition scaledQ (lon : Q) (z : nat) : Q :=
  RN (RN (RN (lon + 180) / 360) * RN (inject_Z (2 ^ Z.of_nat z))).

Definition columnQ (lon : Q) (z : nat) : Z :=
  Qfloor (RN (RN (scaledQ lon z * 256) / 256)).

(** The doubles [1e308], [1.5e308] and [179.99999999999997]. *)
Definition lon1e308 : Q := Eval vm_compute in Qred (RN (inject_Z (10 ^ 308))).
Definition lon15e307 : Q := Eval vm_compute in Qred (RN (inject_Z (15 * 10 ^ 307))).
Definition lonBelow180 : Q := 6333186975989759 # 35184372088832.

End Projector64.

(** ** The box around a picked centre in binary64 (bboxFromCenterRadius) *)

Module Region64.
Import Binary64 Projector64.

Local Open Scope Q_scope.

(** [x > y] and [x <= y] *)
Definition gtb (x y : F64) : bool :=
  match x, y with
  | NaN, _ => false
  | _, NaN => false
  | Fin a, Fin b => negb (Qle_bool a b)
  | PInf, PInf => false
  | PInf, _ => true
  | _, NInf => match x with NInf => false | _ => true end
  | _, _ => false
  end.

Definition leb (x y : F64) : bool := geb y x.

(** The doubles [Math.PI], [110.574] and [111.320]. *)
Definition Math_PI : Q := 884279719003555 # 281474976710656.
Definition kmPerDegLat : Q := Eval vm_compute in Qred (RN (110574 # 1000)).
Definition kmPerDegLngEquator : Q := Eval vm_compute in Qred (RN (111320 # 1000)).

Section Cosine.

(** [Math.cos] is left to the engine: any function of doubles. *)
Variable Math_cos : F64 -> F64.

Definition bboxFromCenterRadius (lng lat radiusKm : F64) : F64 * F64 * F64 * F64 :=
  let latRad := div (mul lat (Fin Math_PI)) (Fin 180) in
  let kmPerDegLng := mul (Fin kmPerDegLngEquator) (Math_cos latRad) in
  let dLat := div radiusKm (Fin kmPerDegLat) in
  let dLng := if gtb kmPerDegLng (Fin 0) then div radiusKm kmPerDegLng
              else div radiusKm (Fin kmPerDegLngEquator) in
  (sub lng dLng, sub lat dLat, add lng dLng, add lat dLat).

End Cosine.

(** A double that is not negative, or plus infinity. *)
Definition nonNegative (d : F64) : Prop :=
  d = PInf \/ exists r, d = Fin r /\ 0 <= r.

(** A finite double. *)
Definition isDouble (q : Q) : Prop := RN q == q /\ - huge < q /\ q < huge.

(** A stand-in for [Math.cos] in the examples: [1] at [0] and
    [6.123233995736766e-17], the engine's value at the pole, elsewhere. *)
Definition cosAtPole (x : F64) : F64 :=
  match x with
  | Fin q => if Qeq_bool q 0 then Fin 1 else Fin (4967757600021511 # 81129638414606681695789005144064)
  | _ => NaN
  end.

End Region64.

(** ** Coordinate projector (clampLat, lonLatToWorldPx, calc) *)

Module Projector.

Local Open Scope R_scope.

(** [[minLng, minLat, maxLng, maxLat]] in degrees. *)
Record BBox := mkBBox {
  minLng : R;
  minLat : R;
  maxLng : R;
  maxLat : R
}.

Definition Math_floor (x : R) : Z := Int_part x.

(** [Math.round]: nearest integer, halves towards plus infinity. *)
Definition Math_round (x : R) : Z := Int_part (x + / 2).

Definition clampLat (lat : R) : R :=
  Rmax (-85.05112878) (Rmin 85.05112878 lat).

Record WorldPx := mkWorldPx { px : R; py : R }.

Definition lonLatToWorldPx (lon lat : R) (z : nat) : WorldPx :=
  let n := 2 ^ z in
  let x := ((lon + 180) / 360) * n * 256 in
  let latRad := (clampLat lat * PI) / 180 in
  let y := ((1 - ln (tan latRad + 1 / cos latRad) / PI) / 2) * n * 256 in
  mkWorldPx x y.

Record TileRange := mkTileRange {
  pMin : WorldPx;
  pMax : WorldPx;
  x0 : Z;
  y0 : Z;
  x1 : Z;
  y1 : Z;
  tilesX : Z;
  tilesY : Z
}.

(** The closure [calc] of [loadBboxImageFromTiles]. *)
Definition calc (bbox : BBox) (zoom : nat) : TileRange :=
  let pMin := lonLatToWorldPx (minLng bbox) (maxLat bbox) zoom in
  let pMax := lonLatToWorldPx (maxLng bbox) (minLat bbox) zoom in
  let x0 := Math_floor (px pMin / 256) in
  let y0 := Math_floor (py pMin / 256) in
  let x1 := Math_floor (px pMax / 256) in
  let y1 := Math_floor (py pMax / 256) in
  let tilesX := (x1 - x0 + 1)%Z in
  let tilesY := (y1 - y0 + 1)%Z in
  mkTileRange pMin pMax x0 y0 x1 y1 tilesX tilesY.

(** The logarithm inside [lonLatToWorldPx], as a function of the latitude
    in degrees. *)
Definition mercY (lat : R) : R :=
  ln (tan (clampLat lat * PI / 180) + 1 / cos (clampLat lat * PI / 180)).

End Projector.

(** ** Tile mosaic loader (loadBboxImageFromTiles) *)

Module Mosaic.
Import Projector.

Local Open Scope Z_scope.

Definition maxTiles : Z := 36.

(** What one tile request comes to: [res.ok] with a decodable bitmap, a
    response that is not [ok], or a rejected promise ([fetch] aborted after
    10 s, network error, [createImageBitmap] failing). *)
Inductive FetchOutcome :=
| FetchOk
| FetchStatus (status : Z)
| FetchRejected.

(** The browser as the loader sees it.  Zoom strictly decreases from one
    attempt to the next and an attempt asks for each tile once, so an
    outcome per [(z, tx, ty)] is fully general. *)
Record Env := mkEnv {
  fetchTile : nat -> Z -> Z -> FetchOutcome;
  canvas2d : bool
}.

Inductive LoadError :=
| CanvasNotAvailable
| TileFetchFailed (status : Z) (z : nat) (tx ty : Z)
| TooManyMissing (missing : nat) (total : Z) (z : nat)
| FetchThrown (z : nat) (tx ty : Z).

Record Mosaic := mkMosaic {
  usedZoom : nat;
  outW : Z;
  outH : Z
}.

(** What one pass of the attempt loop did. *)
Record AttemptLog := mkAttemptLog {
  att_zoom : nat;
  att_fetched : list (Z * Z);
  att_error : option LoadError
}.

Definition initialZoom (requestedZoom : R) : nat :=
  Z.to_nat (Z.max 0 (Z.min 24 (Math_round requestedZoom))).

(** [while (z > 0 && c.tilesX * c.tilesY > maxTiles) { z -= 1; c = calc(z); }] *)
Fixpoint budget (bbox : BBox) (z : nat) : nat :=
  match z with
  | O => O
  | S z' =>
      if tilesX (calc bbox z) * tilesY (calc bbox z) >? maxTiles
      then budget bbox z'
      else z
  end.

Fixpoint zrange (start : Z) (count : nat) : list Z :=
  match count with
  | O => []
  | S k => start :: zrange (start + 1) k
  end.

(** The tiles of the two nested [for] loops, in request order. *)
Definition tileList (c : TileRange) : list (Z * Z) :=
  flat_map (fun ty => map (fun tx => (tx, ty)) (zrange (x0 c) (Z.to_nat (tilesX c))))
           (zrange (y0 c) (Z.to_nat (tilesY c))).

(** The sequential fetch loop; returns the requests issued and either the
    error thrown or the [missing] counter. *)
Fixpoint fetchTiles (env : Env) (allowMissingTiles : bool) (z : nat)
    (tiles : list (Z * Z)) (missing : nat) (issued : list (Z * Z))
  : list (Z * Z) * result LoadError nat :=
  match tiles with
  | [] => (issued, Return missing)
  | (tx, ty) :: rest =>
      let issued' := issued ++ [(tx, ty)] in
      match fetchTile env z tx ty with
      | FetchOk => fetchTiles env allowMissingTiles z rest missing issued'
      | FetchStatus st =>
          if allowMissingTiles
          then fetchTiles env allowMissingTiles z rest (S missing) issued'
          else (issued', Throw (TileFetchFailed st z tx ty))
      | FetchRejected => (issued', Throw (FetchThrown z tx ty))
      end
  end.

(** The body of the [try] block at zoom [z]. *)
Definition attempt (env : Env) (bbox : BBox) (allowMissingTiles : bool) (z : nat)
  : list (Z * Z) * result LoadError Mosaic :=
  let c := calc bbox z in
  if negb (canvas2d env) then ([], Throw CanvasNotAvailable)
  else
    let total := tilesX c * tilesY c in
    match fetchTiles env allowMissingTiles z (tileList c) 0%nat [] with
    | (issued, Throw e) => (issued, Throw e)
    | (issued, Return missing) =>
        let missingRatio : Q :=
          if total >? 0 then (inject_Z (Z.of_nat missing) / inject_Z total)%Q else 1%Q in
        if allowMissingTiles && Qle_bool (7 # 10) missingRatio
        then (issued, Throw (TooManyMissing missing total z))
        else
          let sw := (px (pMax c) - px (pMin c))%R in
          let sh := (py (pMax c) - py (pMin c))%R in
          let scale := Rmin 1 (1024 / Rmax sw 1) in
          (issued,
           Return (mkMosaic z (Z.max 1 (Math_floor (sw * scale)))
                              (Z.max 1 (Math_floor (sh * scale)))))
    end.

(** [for (let attempt = 0; attempt < 6; attempt++)], [left] passes to go. *)
Fixpoint attemptLoop (env : Env) (bbox : BBox) (allowMissingTiles : bool)
    (left : nat) (z : nat) (lastErr : option LoadError)
  : list AttemptLog * result (option LoadError) Mosaic :=
  match left with
  | O => ([], Throw lastErr)
  | S left' =>
      let z1 := budget bbox z in
      match attempt env bbox allowMissingTiles z1 with
      | (issued, Return m) => ([mkAttemptLog z1 issued None], Return m)
      | (issued, Throw e) =>
          let entry := mkAttemptLog z1 issued (Some e) in
          match z1 with
          | S z2 =>
              let (trace, r) := attemptLoop env bbox allowMissingTiles left' z2 (Some e) in
              (entry :: trace, r)
          | O => ([entry], Throw (Some e))
          end
      end
  end.

(** The loader: the log of its attempts and its outcome (the mosaic, or
    the last error, rethrown). *)
Definition loadBboxImageFromTiles (env : Env) (bbox : BBox) (requestedZoom : R)
    (allowMissingTiles : bool)
  : list AttemptLog * result (option LoadError) Mosaic :=
  attemptLoop env bbox allowMissingTiles 6 (initialZoom requestedZoom) None.

(** Tiles in range at zoom [z]. *)
Definition tileCount (bbox : BBox) (z : nat) : Z :=
  tilesX (calc bbox z) * tilesY (calc bbox z).

(** Every logged attempt ran at a zoom the budget loop handed out and
    records exactly the requests of that attempt. *)
Definition logged (env : Env) (bbox : BBox) (allow : bool) (a : AttemptLog) : Prop :=
  (exists z, att_zoom a = budget bbox z)
  /\ att_fetched a = fst (attempt env bbox allow (att_zoom a)).

(** *** Servers and boxes of the scenarios *)

(** A server that has every tile. *)
Definition envOk : Env := mkEnv (fun _ _ _ => FetchOk) true.

(** A box 39 world widths wide. *)
Definition bboxWide : BBox := mkBBox (-7000)%R 0%R 7000%R 1%R.

(** A server that answers 404 to every tile request. *)
Definition env404 : Env := mkEnv (fun _ _ _ => FetchStatus 404) true.

(** One degree by one degree, north-east of the origin. *)
Definition bboxUnit : BBox := mkBBox 0%R 0%R 1%R 1%R.

(** A browser that hands out no 2d context. *)
Definition envNoCanvas : Env := mkEnv (fun _ _ _ => FetchOk) false.

(** [z; z - 1; ...], [left] zooms in all. *)
Fixpoint countdown (z left : nat) : list nat :=
  match left with
  | O => []
  | S l => z :: countdown (Nat.pred z) l
  end.

End Mosaic.

(** ** [Array.prototype.sort] with a comparator *)

(** The sort is stable and the comparators below are consistent, so its
    result is the stable sort by [cmp a b <= 0], here by insertion. *)
Section ArraySort.
Context {A : Type} (le : A -> A -> bool).

Fixpoint insertSorted (x : A) (l : list A) : list A :=
  match l with
  | [] => [x]
  | y :: l' => if le x y then x :: y :: l' else y :: insertSorted x l'
  end.

Fixpoint Array_sort (l : list A) : list A :=
  match l with
  | [] => []
  | x :: l' => insertSorted x (Array_sort l')
  end.

End ArraySort.

(** ** Candidate selector (pickClosest, pickClearest) *)

Module Selector.

Local Open Scope Z_scope.

(** A STAC feature as the pickers read it: [datetime] is the instant
    [new Date(properties.datetime).getTime()] in milliseconds, absent when
    the property is missing or does not parse; [cloud_cover] is
    [properties["eo:cloud_cover"]] when it is a finite number. *)
Record StacFeature := mkFeature {
  id : string;
  datetime : option Z;
  cloud_cover : option Q
}.

(** Days since 1970-01-01 of a proleptic Gregorian date. *)
Definition daysFromCivil (y m d : Z) : Z :=
  let y' := if m <=? 2 then y - 1 else y in
  let era := (if 0 <=? y' then y' else y' - 399) / 400 in
  let yoe := y' - era * 400 in
  let doy := (153 * (if 2 <? m then m - 3 else m + 9) + 2) / 5 + d - 1 in
  let doe := yoe * 365 + yoe / 4 - yoe / 100 + doy in
  era * 146097 + doe - 719468.

(** [parseUtcDateMs("YYYY-MM-DD")]: midnight UTC of that day. *)
Definition parseUtcDateMs (y m d : Z) : Z := daysFromCivil y m d * 86400000.

Definition datetimeMs (f : StacFeature) : option Z := datetime f.

Definition cloudCoverPct (f : StacFeature) : option Q := cloud_cover f.

(** [Math.abs(aMs - bMs) / (24 * 60 * 60 * 1000)], two binary64
    operations: the difference of two integer timestamps (exact below
    [2^53]) and the quotient, each rounded to the nearest double. *)
Definition daysBetween (aMs bMs : Z) : Q :=
  Binary64.RN
    (Binary64.RN (inject_Z (Z.abs (aMs - bMs))) / inject_Z (24 * 60 * 60 * 1000))%Q.

(** [dist < bestDist], with [None] for [Number.POSITIVE_INFINITY]. *)
Definition ltInf (dist : Z) (bestDist : option Z) : bool :=
  match bestDist with
  | None => true
  | Some b => dist <? b
  end.

(** One pass of the [for ... of] loop over [(best, bestDist)]. *)
Definition closestStep (targetMs : Z) (st : option StacFeature * option Z)
    (f : StacFeature) : option StacFeature * option Z :=
  match datetimeMs f with
  | None => st
  | Some ms =>
      let dist := Z.abs (ms - targetMs) in
      if ltInf dist (snd st) then (Some f, Some dist) else st
  end.

Definition pickClosest (features : list StacFeature) (targetMs : Z)
  : option StacFeature :=
  fst (fold_left (closestStep targetMs) features (None, None)).

Record Candidate := mkCandidate {
  f : StacFeature;
  cloud : Q;
  dtDays : Q
}.

(** [features.map(...).filter(Boolean)] *)
Definition candidatesOf (features : list StacFeature) (targetMs : Z) : list Candidate :=
  flat_map (fun f =>
              match datetimeMs f, cloudCoverPct f with
              | Some ms, Some cloud => [mkCandidate f cloud (daysBetween ms targetMs)]
              | _, _ => []
              end) features.

(** [(a.cloud - b.cloud) || (a.dtDays - b.dtDays)] *)
Definition clearestCmp (a b : Candidate) : Q :=
  let dc := (cloud a - cloud b)%Q in
  if Qeq_bool dc 0 then (dtDays a - dtDays b)%Q else dc.

Definition pickClearest (features : list StacFeature) (targetMs : Z)
    (maxOffsetDays : Q) : option StacFeature :=
  let candidates := candidatesOf features targetMs in
  let near := filter (fun c => Qle_bool (dtDays c) maxOffsetDays) candidates in
  let pool := match near with [] => candidates | _ :: _ => near end in
  match Array_sort (fun a b => Qle_bool (clearestCmp a b) 0) pool with
  | [] => None
  | c :: _ => Some (f c)
  end.

(** The selection rule of "clearest within window", in the words of the
    design: [g] is scored [(cl, d)] when it carries both fields; it is
    eligible when it is scored and lies within [maxOffsetDays] of the
    target, or when no scored item does. *)
Definition Scored (features : list StacFeature) (targetMs : Z)
    (g : StacFeature) (cl d : Q) : Prop :=
  In g features
  /\ exists ms, datetimeMs g = Some ms /\ cloudCoverPct g = Some cl
                /\ d = daysBetween ms targetMs.

Definition Eligible (features : list StacFeature) (targetMs : Z) (maxOffsetDays : Q)
    (g : StacFeature) (cl d : Q) : Prop :=
  Scored features targetMs g cl d
  /\ ((d <= maxOffsetDays)%Q
      \/ forall g' cl' d', Scored features targetMs g' cl' d' -> ~ (d' <= maxOffsetDays)%Q).

(** Cloud cover ascending, then day offset ascending. *)
Definition lexLe (cl d cl' d' : Q) : Prop :=
  (cl < cl')%Q \/ ((cl == cl')%Q /\ (d <= d')%Q).

(** What [(best, bestDist)] means once the items of [pre] have been seen. *)
Definition closestInv (targetMs : Z) (pre : list StacFeature)
    (st : option StacFeature * option Z) : Prop :=
  let dist := fun ms => Z.abs (ms - targetMs) in
  match st with
  | (None, None) => forall g, In g pre -> datetimeMs g = None
  | (Some b, Some d) =>
      exists p1 p2 ms,
        pre = p1 ++ b :: p2 /\ datetimeMs b = Some ms /\ d = dist ms
        /\ (forall g ms', In g p1 -> datetimeMs g = Some ms' -> dist ms < dist ms')
        /\ (forall g ms', In g p2 -> datetimeMs g = Some ms' -> dist ms <= dist ms')
  | _ => False
  end.

(** [clearestCmp a b <= 0]: [a] may stay in front of [b]. *)
Definition leqClearest (a b : Candidate) : bool := Qle_bool (clearestCmp a b) 0.

(** The array [pool] that [pickClearest] sorts. *)
Definition poolOf (features : list StacFeature) (targetMs : Z) (maxOffsetDays : Q)
  : list Candidate :=
  let candidates := candidatesOf features targetMs in
  match filter (fun c => Qle_bool (dtDays c) maxOffsetDays) candidates with
  | [] => candidates
  | x :: near => x :: near
  end.

(** The catalogue of the selector scenarios. *)
Definition item0101 : StacFeature :=
  mkFeature "2024-01-01" (Some (parseUtcDateMs 2024 1 1)) (Some 80%Q).
Definition item0105 : StacFeature :=
  mkFeature "2024-01-05" (Some (parseUtcDateMs 2024 1 5)) (Some 5%Q).
Definition item0110 : StacFeature :=
  mkFeature "2024-01-10" (Some (parseUtcDateMs 2024 1 10)) (Some 50%Q).
Definition catalogue : list StacFeature := [item0101; item0105; item0110].

(** The double [0.3333333333333333], a little less than a third. *)
Definition thirdOfADay : Q := 6004799503160661 # 18014398509481984.

(** An item eight hours after midnight of 2024-01-03, half clouded. *)
Definition itemEightHours : StacFeature :=
  mkFeature "2024-01-03T08" (Some (parseUtcDateMs 2024 1 3 + 28800000)) (Some 50%Q).

End Selector.

(** ** Wayback timeline route (POST) *)

Module Wayback.

Local Open Scope Z_scope.

Record WaybackOption := mkOption {
  id : Z;
  date : string;         (* YYYY-MM-DD *)
  title : string;
  tileUrlTemplate : string
}.

(** A JavaScript number: finite, or [NaN] and the infinities. *)
Inductive JsNumber :=
| Finite (q : Q)
| NaN
| Infinity (negative : bool).

(** A field of the parsed request body. *)
Inductive JsValue :=
| JsUndefined
| JsNull
| JsBoolean (b : bool)
| JsString (s : string)
| JsNum (n : JsNumber).

Record Body := mkBody {
  bbox : Projector.BBox;
  zoom : JsValue;
  limit : JsValue
}.

(** [Math.round] on a finite number. *)
Definition Math_round (q : Q) : Z := Qfloor (q + (1 # 2)).

(** [typeof v === "number" && Number.isFinite(v) ?
     Math.min(Math.max(Math.round(v), lo), hi) : dflt] *)
Definition clampedParam (v : JsValue) (lo hi dflt : Z) : Z :=
  match v with
  | JsNum (Finite q) => Z.min (Z.max (Math_round q) lo) hi
  | _ => dflt
  end.

Definition zoomOf (body : Body) : Z := clampedParam (zoom body) 0 23 16.
Definition limitOf (body : Body) : Z := clampedParam (limit body) 5 120 60.

Record Tile := mkTile { tile_x : Z; tile_y : Z; tile_z : Z }.

Definition centerOfBbox (b : Projector.BBox) : R * R :=
  (((Projector.minLng b + Projector.maxLng b) / 2)%R,
   ((Projector.minLat b + Projector.maxLat b) / 2)%R).

Definition lonLatToTile (lon lat : R) (z : Z) : Tile :=
  let n := (2 ^ Z.to_nat z)%R in
  let x := Projector.Math_floor (((lon + 180) / 360) * n)%R in
  let latRad := ((Projector.clampLat lat * PI) / 180)%R in
  let y := Projector.Math_floor
             (((1 - ln (tan latRad + 1 / cos latRad) / PI) / 2) * n)%R in
  mkTile x y z.

(** The tile every version is probed at. *)
Definition probeTile (body : Body) : Tile :=
  let (lon, lat) := centerOfBbox (bbox body) in
  lonLatToTile lon lat (zoomOf body).

Definition maxProbeMs : Z := 30000.
Definition maxProbes : nat := 180.
Definition batchSize : nat := 10.

(** The locals of the probe loop.  [tick] counts the calls to [Date.now()]
    made so far; [consumed] lists the results the inner loop has counted
    in [probed], in order. *)
Record ProbeState := mkProbeState {
  available : list WaybackOption;
  seen : list string;
  deduped : nat;
  failed : nat;
  probed : nat;
  tick : nat;
  consumed : list (WaybackOption * option string)
}.

Section Probe.
(** [now k] is what the [k]-th call to [Date.now()] returns; call 0 sets
    [startedAt]. *)
Variable now : nat -> Z.
Variable limit : Z.

Definition startedAt : Z := now 0%nat.

Definition hasSeen (h : string) (seen : list string) : bool :=
  existsb (String.eqb h) seen.

(** [for (const r of results)]: returns the state at the end of the loop
    or at its [break]. *)
Fixpoint consumeResults (results : list (WaybackOption * option string))
    (st : ProbeState) : ProbeState :=
  match results with
  | [] => st
  | (v, hash) :: rest =>
      if limit <=? Z.of_nat (List.length (available st)) then st
      else
        let probed' := S (probed st) in
        let consumed' := consumed st ++ [(v, hash)] in
        match hash with
        | Some h =>
            if hasSeen h (seen st) then
              (* deduped += 1; continue *)
              consumeResults rest
                (mkProbeState (available st) (seen st) (S (deduped st)) (failed st)
                              probed' (tick st) consumed')
            else
              let st' := mkProbeState (available st ++ [v]) (h :: seen st)
                           (deduped st) (failed st) probed' (tick st) consumed' in
              if (maxProbes <=? probed')%nat then st'
              else
                let st'' := mkProbeState (available st') (seen st') (deduped st')
                              (failed st') (probed st') (S (tick st')) (consumed st') in
                if now (tick st') - startedAt >? maxProbeMs then st''
                else consumeResults rest st''
        | None =>
            let st' := mkProbeState (available st) (seen st) (deduped st)
                         (S (failed st)) probed' (tick st) consumed' in
            if (maxProbes <=? probed')%nat then st'
            else
              let st'' := mkProbeState (available st') (seen st') (deduped st')
                            (failed st') (probed st') (S (tick st')) (consumed st') in
              if now (tick st') - startedAt >? maxProbeMs then st''
              else consumeResults rest st''
        end
  end.

(** [for (let i = 0; i < versions.length; i += batchSize)] over the
    batches [versions.slice(i, i + batchSize)], each element paired with
    what [probeTileHashWithRetry] resolves to for it. *)
Fixpoint probeBatches (batches : list (list (WaybackOption * option string)))
    (st : ProbeState) : ProbeState :=
  match batches with
  | [] => st
  | batch :: rest =>
      if limit <=? Z.of_nat (List.length (available st)) then st
      else if (maxProbes <=? probed st)%nat then st
      else
        let st' := mkProbeState (available st) (seen st) (deduped st) (failed st)
                     (probed st) (S (tick st)) (consumed st) in
        if now (tick st) - startedAt >? maxProbeMs then st'
        else probeBatches rest (consumeResults batch st')
  end.

End Probe.

Fixpoint slices {A : Type} (fuel : nat) (l : list A) : list (list A) :=
  match fuel with
  | O => []
  | S fuel' =>
      match l with
      | [] => []
      | _ :: _ => firstn batchSize l :: slices fuel' (skipn batchSize l)
      end
  end.

(** [(a, b) => a.date < b.date ? -1 : a.date > b.date ? 1 : a.id - b.id] *)
Definition oldestFirst (a b : WaybackOption) : Z :=
  if String.ltb (date a) (date b) then -1
  else if String.ltb (date b) (date a) then 1
  else id a - id b.

Record Payload := mkPayload {
  options : list WaybackOption;
  beforeId : Z;
  afterId : Z;
  query_probed : nat;
  query_deduped : nat;
  query_failed : nat
}.

Inductive TimelineError := NoCoverage.

(** The probe, sort and suggestion part of [POST]: [versions] newest
    first, each with the outcome of its probe at the tile. *)
Definition buildTimeline (now : nat -> Z) (limit : Z)
    (versions : list (WaybackOption * option string))
  : ProbeState * result TimelineError Payload :=
  let st0 := mkProbeState [] [] 0 0 0 1 [] in
  let st := probeBatches now limit (slices (List.length versions) versions) st0 in
  match available st with
  | [] => (st, Throw NoCoverage)
  | first :: _ =>
      let options := Array_sort (fun a b => oldestFirst a b <=? 0) (available st) in
      (st, Return (mkPayload options
                     (id (nth 0 options first))
                     (id (nth (List.length options - 1) options first))
                     (probed st) (deduped st) (failed st)))
  end.

(** The versions a pass of the loop keeps from the results it consumed:
    those whose probe gave a hash no earlier consumed result had given. *)
Fixpoint firstOfEachHash (results : list (WaybackOption * option string))
    (seen : list string) : list WaybackOption :=
  match results with
  | [] => []
  | (v, Some h) :: rest =>
      if hasSeen h seen then firstOfEachHash rest seen
      else v :: firstOfEachHash rest (h :: seen)
  | (_, None) :: rest => firstOfEachHash rest seen
  end.

(** Date ascending, ties by id ascending. *)
Definition olderOrSame (a b : WaybackOption) : Prop :=
  String.ltb (date a) (date b) = true \/ (date a = date b /\ id a <= id b).

(** [oldestFirst a b <= 0]: [a] may stay in front of [b]. *)
Definition leqOldest (a b : WaybackOption) : bool := oldestFirst a b <=? 0.

(** The hashes seen once [results] have gone through the loop. *)
Fixpoint seenOf (results : list (WaybackOption * option string))
    (seen : list string) : list string :=
  match results with
  | [] => seen
  | (_, Some h) :: rest =>
      if hasSeen h seen then seenOf rest seen else seenOf rest (h :: seen)
  | (_, None) :: rest => seenOf rest seen
  end.

(** What the loop keeps true of its locals. *)
Definition probeInv (st : ProbeState) : Prop :=
  available st = firstOfEachHash (consumed st) []
  /\ seen st = seenOf (consumed st) []
  /\ probed st = List.length (consumed st).

(** The loops have stopped for good with the versions [kept] in hand. *)
Definition finished (limit : Z) (kept : list WaybackOption) (st : ProbeState) : Prop :=
  available st = kept
  /\ (limit <= Z.of_nat (List.length (available st)) \/ (maxProbes <= probed st)%nat).

(** Three versions, newest first, as the timeline scenario has them. *)
Definition v3 : WaybackOption := mkOption 3 "2024-03-01" "World Imagery (Wayback 2024-03-01)" "/api/wayback/tile?v=3&z={z}&x={x}&y={y}".
Definition v2 : WaybackOption := mkOption 2 "2024-02-01" "World Imagery (Wayback 2024-02-01)" "/api/wayback/tile?v=2&z={z}&x={x}&y={y}".
Definition v1 : WaybackOption := mkOption 1 "2024-01-01" "World Imagery (Wayback 2024-01-01)" "/api/wayback/tile?v=1&z={z}&x={x}&y={y}".
Definition scenario : list (WaybackOption * option string) :=
  [(v3, Some "H1"%string); (v2, Some "H1"%string); (v1, Some "H2"%string)].

(** The timeline of a request: the probe loop runs with the clamped
    limit. *)
Definition timelineOf (now : nat -> Z) (body : Body)
    (versions : list (WaybackOption * option string))
  : ProbeState * result TimelineError Payload :=
  buildTimeline now (limitOf body) versions.

(** Six versions, newest first, no two alike at the probed tile. *)
Definition w6 : WaybackOption := mkOption 6 "2024-06-01" "World Imagery (Wayback 2024-06-01)" "/api/wayback/tile?v=6&z={z}&x={x}&y={y}".
Definition w5 : WaybackOption := mkOption 5 "2024-05-01" "World Imagery (Wayback 2024-05-01)" "/api/wayback/tile?v=5&z={z}&x={x}&y={y}".
Definition w4 : WaybackOption := mkOption 4 "2024-04-01" "World Imagery (Wayback 2024-04-01)" "/api/wayback/tile?v=4&z={z}&x={x}&y={y}".
Definition sixVersions : list (WaybackOption * option string) :=
  [(w6, Some "H6"%string); (w5, Some "H5"%string); (w4, Some "H4"%string);
   (v3, Some "H3"%string); (v2, Some "H2"%string); (v1, Some "H1"%string)].

End Wayback.

(** ** The heatmap bytes of the diff loop *)

Module Heatmap.
Import Diff.

(** The four bytes the loop writes for pixel [i]. *)
Definition heatPixel (t : Q) (ic idk : bool) (ad bd : list byte) (i : nat) : list Z :=
  if masked ic idk ad bd i then [255; 0; 0; 0]%Z
  else [255; 0; 0;
        if Qle_bool t (pixelDiff ad bd i)
        then clampU8 (Qmin 220 (40 + pixelDiff ad bd i)) else 0]%Z.

(** [d >= inputs.threshold] as the loop evaluates it: the sum of the three
    differences is exact, [d] is its binary64 quotient by 3. *)
Definition hot64 (threshold : Q) (ad bd : list byte) (i : nat) : bool :=
  Qle_bool threshold (Binary64.RN (pixelDiff ad bd i)).

End Heatmap.

(** ** Preview crop (cropRectForBboxes and the fallback size) *)

Module Preview.

Local Open Scope Q_scope.

(** [[minLng, minLat, maxLng, maxLat]] of a catalogue item or of the
    selection. *)
Record QBBox := mkQBBox {
  qMinLng : Q;
  qMinLat : Q;
  qMaxLng : Q;
  qMaxLat : Q
}.

Record CropRect := mkCropRect {
  sx : Q;
  sy : Q;
  sw : Q;
  sh : Q
}.

(** [img.naturalWidth] and [img.naturalHeight] are [w] and [h]. *)
Definition cropRectForBboxes (w h : nat) (itemBbox selectionBbox : option QBBox)
  : CropRect :=
  let W := inject_Z (Z.of_nat w) in
  let H := inject_Z (Z.of_nat h) in
  match itemBbox, selectionBbox with
  | Some i, Some s =>
      let denomLng := qMaxLng i - qMinLng i in
      let denomLat := qMaxLat i - qMinLat i in
      if Qle_bool denomLng 0 || Qle_bool denomLat 0 then mkCropRect 0 0 W H
      else
        let x0 := ((qMinLng s - qMinLng i) / denomLng) * W in
        let x1 := ((qMaxLng s - qMinLng i) / denomLng) * W in
        let y0 := ((qMaxLat i - qMaxLat s) / denomLat) * H in
        let y1 := ((qMaxLat i - qMinLat s) / denomLat) * H in
        let sx := Qmax 0 (Qmin x0 x1) in
        let ex := Qmin W (Qmax x0 x1) in
        let sy := Qmax 0 (Qmin y0 y1) in
        let ey := Qmin H (Qmax y0 y1) in
        let sw := Qmax 1 (ex - sx) in
        let sh := Qmax 1 (ey - sy) in
        mkCropRect sx sy sw sh
  | _, _ => mkCropRect 0 0 W H
  end.

(** The working size of [runPreviewFallback]: both crops, scaled to at
    most 640 pixels across. *)
Definition previewSize (cropA cropB : CropRect) : Z * Z :=
  let maxW := 640 in
  let baseW := Qmin (sw cropA) (sw cropB) in
  let baseH := Qmin (sh cropA) (sh cropB) in
  let scale := Qmin 1 (maxW / Qmax baseW 1) in
  (Z.max 1 (Qfloor (baseW * scale)), Z.max 1 (Qfloor (baseH * scale))).

End Preview.

(** ** Region pickers of the app (normalizeBbox, bboxFromTwoPoints,
       bboxFromCenterRadius) *)

Module Region.
Import Projector.

Local Open Scope R_scope.

(** A clicked point, [[lng, lat]]. *)
Definition Point : Type := (R * R)%type.

Definition normalizeBbox (a b : Point) : BBox :=
  let minLng := Rmin (fst a) (fst b) in
  let maxLng := Rmax (fst a) (fst b) in
  let minLat := Rmin (snd a) (snd b) in
  let maxLat := Rmax (snd a) (snd b) in
  mkBBox minLng minLat maxLng maxLat.

Definition bboxFromCenterRadius (center : Point) (radiusKm : R) : BBox :=
  let (lng, lat) := center in
  let latRad := (lat * PI) / 180 in
  let kmPerDegLat := 110.574 in
  let kmPerDegLng := 111.320 * cos latRad in
  let dLat := radiusKm / kmPerDegLat in
  let dLng := if Rlt_dec 0 kmPerDegLng then radiusKm / kmPerDegLng
              else radiusKm / 111.320 in
  mkBBox (lng - dLng) (lat - dLat) (lng + dLng) (lat + dLat).

Definition bboxFromTwoPoints (a b : Point) (paddingRatio : R) : BBox :=
  let raw := normalizeBbox a b in
  let w := maxLng raw - minLng raw in
  let h := maxLat raw - minLat raw in
  let padX := Rmax 0.01 (w * paddingRatio) in
  let padY := Rmax 0.01 (h * paddingRatio) in
  mkBBox (minLng raw - padX) (minLat raw - padY) (maxLng raw + padX) (maxLat raw + padY).

(** [paddingRatio = 0.08] *)
Definition defaultPadding : R := 0.08.

(** [circleToFeatureCollection] of the map picker: the ring of the polygon
    drawn for the circle, [steps + 1] points. *)
Definition circleToFeatureCollection (center : Point) (radiusKm : R) (steps : nat)
  : list Point :=
  let (lng, lat) := center in
  let latRad := (lat * PI) / 180 in
  let kmPerDegLat := 110.574 in
  let kmPerDegLng := 111.320 * cos latRad in
  let dLat := radiusKm / kmPerDegLat in
  let dLng := if Rlt_dec 0 kmPerDegLng then radiusKm / kmPerDegLng
              else radiusKm / 111.320 in
  map (fun i => let a := (INR i / INR steps) * PI * 2 in
                (lng + cos a * dLng, lat + sin a * dLat))
      (seq 0 (S steps)).

End Region.

(** ** Tile URLs (fillTemplate) *)

Module Template.

Local Open Scope string_scope.

(** [s.replace(pat, rep)] for a string pattern and a replacement without
    [$]: the first occurrence of [pat] gives way to [rep]. *)
Fixpoint replaceFirst (pat rep s : string) : string :=
  if String.prefix pat s then rep ++ String.substring (String.length pat)
                                      (String.length s - String.length pat) s
  else match s with
       | EmptyString => EmptyString
       | String c s' => String c (replaceFirst pat rep s')
       end.

(** [String(n)] for an integer. *)
Definition String_of (n : Z) : string :=
  NilZero.string_of_int (Z.to_int n).

Definition fillTemplate (tpl : string) (z x y : Z) : string :=
  replaceFirst "{y}" (String_of y)
    (replaceFirst "{x}" (String_of x)
       (replaceFirst "{z}" (String_of z) tpl)).

(** No opening brace anywhere in [s]. *)
Fixpoint braceFree (s : string) : bool :=
  match s with
  | EmptyString => true
  | String c s' => negb (Ascii.eqb c "{"%char) && braceFree s'
  end.

End Template.

(** ** Probe with retries (probeTileHashWithRetry) *)

Module Retry.

Local Open Scope Z_scope.

(** What the loop has done: calls to [probeTileHash] and the pauses taken,
    in milliseconds. *)
Record RetryLog := mkRetryLog {
  probes : nat;
  sleeps : list Z
}.

(** [if (hash)]: a string is truthy unless empty. *)
Definition truthy (h : option string) : bool :=
  match h with
  | Some s => negb (String.eqb s EmptyString)
  | None => false
  end.

(** [for (let attempt = 0; attempt <= retries; attempt++)] with [left]
    passes to go; [probe k] is what the [k]-th call to [probeTileHash]
    resolves to. *)
Fixpoint retryFrom (probe : nat -> option string) (retries left attempt : nat)
    (log : RetryLog) : option string * RetryLog :=
  match left with
  | O => (None, log)
  | S left' =>
      let hash := probe attempt in
      let log1 := mkRetryLog (S (probes log)) (sleeps log) in
      if truthy hash then (hash, log1)
      else
        let log2 :=
          if (attempt <? retries)%nat
          then mkRetryLog (probes log1) (sleeps log1 ++ [200 * (Z.of_nat attempt + 1)])
          else log1 in
        retryFrom probe retries left' (S attempt) log2
  end.

Definition probeTileHashWithRetry (probe : nat -> option string) (retries : nat)
  : option string * RetryLog :=
  retryFrom probe retries (S retries) 0 (mkRetryLog 0 []).

(** The pause after failed attempt [k]: [200 * (attempt + 1)]. *)
Definition backoff (k : nat) : Z := 200 * (Z.of_nat k + 1).

End Retry.

(** ** STAC search route (POST): what is answered once the catalogue has
       replied *)

Module StacRoute.
Import Selector.

Local Open Scope Z_scope.

Inductive Collection := Sentinel2 | Landsat.

(** [body.collection === "landsat-c2-l2" ? "landsat-c2-l2" : "sentinel-2-l2a"] *)
Definition collectionOf (v : Wayback.JsValue) : Collection :=
  match v with
  | Wayback.JsString s => if String.eqb s "landsat-c2-l2" then Landsat else Sentinel2
  | _ => Sentinel2
  end.

Definition maxCloudOffsetDaysOf (v : Wayback.JsValue) (c : Collection) : Q :=
  match v with
  | Wayback.JsNum (Wayback.Finite q) => Qmin (Qmax q 0) 90
  | _ => match c with Landsat => 30%Q | Sentinel2 => 14%Q end
  end.

Inductive StacError :=
| InvalidDateRange     (* 400 *)
| NoImagery            (* 404 *)
| CouldNotPick.        (* 502 *)

Record Picks := mkPicks {
  before : StacFeature;
  after : StacFeature;
  beforeClear : option StacFeature;
  afterClear : option StacFeature
}.

(** [startMs] and [endMs] are [parseUtcDateMs] of the two dates, absent
    when the date does not parse; [features] is the catalogue's reply. *)
Definition respond (features : list StacFeature) (startMs endMs : option Z)
    (maxCloudOffsetDays : Q) : result StacError Picks :=
  match startMs, endMs with
  | Some s, Some e =>
      if s >? e then Throw InvalidDateRange
      else
        match features with
        | [] => Throw NoImagery
        | _ :: _ =>
            let before := pickClosest features s in
            let after := pickClosest features e in
            let beforeClear := pickClearest features s maxCloudOffsetDays in
            let afterClear := pickClearest features e maxCloudOffsetDays in
            match before, after with
            | Some b, Some a => Return (mkPicks b a beforeClear afterClear)
            | _, _ => Throw CouldNotPick
            end
        end
  | _, _ => Throw InvalidDateRange
  end.

Inductive Variant := Closest | Clearest.

(** [pickVariant] of the app: [stac.beforeClear ?? stac.before]. *)
Definition pickVariant (stac : Picks) (v : Variant) : StacFeature * StacFeature :=
  match v with
  | Clearest =>
      (match beforeClear stac with Some x => x | None => before stac end,
       match afterClear stac with Some x => x | None => after stac end)
  | Closest => (before stac, after stac)
  end.

End StacRoute.

(** ** Footprint test of the report search (bboxIntersects) *)

Module Reports.

Local Open Scope Q_scope.

Definition bboxIntersects (a b : Preview.QBBox) : bool :=
  Qle_bool (Preview.qMinLng a) (Preview.qMaxLng b)
  && Qle_bool (Preview.qMinLng b) (Preview.qMaxLng a)
  && Qle_bool (Preview.qMinLat a) (Preview.qMaxLat b)
  && Qle_bool (Preview.qMinLat b) (Preview.qMaxLat a).

(** The point [(x, y)] lies in the box, borders included. *)
Definition inBox (x y : Q) (a : Preview.QBBox) : Prop :=
  Preview.qMinLng a <= x /\ x <= Preview.qMaxLng a
  /\ Preview.qMinLat a <= y /\ y <= Preview.qMaxLat a.

End Reports.

(** * Properties *)

(** ** Pixel diff engine *)

Module DiffProps.
Import Diff.

(** The heuristics on a few pixels.  Mid-grey 210 misses the cloud test
    and grey 18 the dark test, both by one binary64 rounding of [luma]. *)
Example isCloudLike_white : isCloudLike xff xff xff = true.
Proof. reflexivity. Qed.

Example isCloudLike_grey210 : isCloudLike xd2 xd2 xd2 = false.
Proof. vm_compute. reflexivity. Qed.

Example isCloudLike_grey211 : isCloudLike xd3 xd3 xd3 = true.
Proof. vm_compute. reflexivity. Qed.

Example isVeryDark_grey18 : isVeryDark x12 x12 x12 = false.
Proof. vm_compute. reflexivity. Qed.

Example isVeryDark_grey17 : isVeryDark x11 x11 x11 = true.
Proof. vm_compute. reflexivity. Qed.

(** Two 4 x 4 solid buffers, (100,100,100) against (140,140,100), threshold
    20, no masking: every pixel differs by 80/3 and all of them are hot. *)
Example computeDiff_solid_4x4 :
  exists heat s,
    computeDiff (solid 4 4 x64 x64 x64) (solid 4 4 x8c x8c x64) 20 false false
    = Return (heat, s)
    /\ (meanDiff s == 80 # 3)%Q /\ (changedPercent s == 100)%Q
    /\ nth 3 heat 0%Z = 67%Z.
Proof.
  eexists; eexists. split; [vm_compute; reflexivity|].
  repeat split.
Qed.

Section Loop.
Variables (ignoreClouds ignoreDark : bool) (ad bd : list byte).

Let unmasked (i : nat) : bool := negb (masked ignoreClouds ignoreDark ad bd i).
Let step (t : Q) := diffStep t ignoreClouds ignoreDark ad bd.

(** The loop's [considered] counter counts the unmasked indices. *)
Lemma fold_considered (t : Q) (l : list nat) (acc : Acc) :
  considered (fold_left (step t) l acc)
  = (considered acc + List.length (filter unmasked l))%nat.
Proof.
  revert acc; induction l as [|i l IH]; intros acc; simpl.
  - lia.
  - rewrite IH. unfold step, diffStep, unmasked.
    destruct (masked ignoreClouds ignoreDark ad bd i); simpl; lia.
Qed.

(** Raising the threshold can only lower the [changed] counter. *)
Lemma fold_changed_mono (t1 t2 : Q) (l : list nat) :
  (t1 <= t2)%Q ->
  forall acc1 acc2 : Acc,
    (changed acc2 <= changed acc1)%nat ->
    (changed (fold_left (step t2) l acc2)
     <= changed (fold_left (step t1) l acc1))%nat.
Proof.
  intros Ht; induction l as [|i l IH]; intros acc1 acc2 Hc; simpl; [exact Hc|].
  apply IH. unfold step, diffStep.
  destruct (masked ignoreClouds ignoreDark ad bd i); simpl; [exact Hc|].
  destruct (Qle_bool t2 (pixelDiff ad bd i)) eqn:E2.
  - apply Qle_bool_iff in E2.
    assert (E1 : Qle_bool t1 (pixelDiff ad bd i) = true)
      by (apply Qle_bool_iff; eapply Qle_trans; eassumption).
    rewrite E1. lia.
  - destruct (Qle_bool t1 (pixelDiff ad bd i)); lia.
Qed.

(** [changed] never exceeds [considered]. *)
Lemma fold_changed_le (t : Q) (l : list nat) (acc : Acc) :
  (changed acc <= considered acc)%nat ->
  (changed (fold_left (step t) l acc) <= considered (fold_left (step t) l acc))%nat.
Proof.
  revert acc; induction l as [|i l IH]; intros acc Hc; simpl; [exact Hc|].
  apply IH. unfold step, diffStep.
  destruct (masked ignoreClouds ignoreDark ad bd i); simpl; [exact Hc|].
  destruct (Qle_bool t (pixelDiff ad bd i)); lia.
Qed.
End Loop.

(** A pixel differs from itself by nothing. *)
Lemma pixelDiff_same (ad : list byte) (i : nat) : (pixelDiff ad ad i == 0)%Q.
Proof.
  unfold pixelDiff. rewrite !Z.sub_diag. simpl. reflexivity.
Qed.

(** On identical buffers the loop leaves [sum] and [changed] at zero. *)
Lemma fold_same (t : Q) (ic idk : bool) (ad : list byte) (l : list nat) (acc : Acc) :
  (0 < t)%Q -> (sum acc == 0)%Q -> changed acc = 0%nat ->
  let r := fold_left (diffStep t ic idk ad ad) l acc in
  (sum r == 0)%Q /\ changed r = 0%nat.
Proof.
  intros Ht; revert acc; induction l as [|i l IH]; intros acc Hs Hc; simpl.
  - split; assumption.
  - apply IH; unfold diffStep;
      destruct (masked ic idk ad ad i); simpl; try assumption.
    + rewrite Hs, pixelDiff_same. reflexivity.
    + destruct (Qle_bool t (pixelDiff ad ad i)) eqn:E; [|exact Hc].
      apply Qle_bool_iff in E. rewrite pixelDiff_same in E.
      exfalso. apply (Qlt_irrefl 0). eapply Qlt_le_trans; eassumption.
Qed.

Lemma considered_count (a b : ImageData) (t : Q) (ic idk : bool) :
  considered (diffLoop t ic idk (data a) (data b)
                (Nat.min (width a) (width b) * Nat.min (height a) (height b)))
  = consideredCount a b ic idk.
Proof.
  unfold diffLoop, consideredCount. rewrite fold_considered. reflexivity.
Qed.

Lemma natQ_pos (n : nat) : n <> 0%nat -> (0 < natQ n)%Q.
Proof.
  intros Hn. unfold natQ, Qlt. simpl. lia.
Qed.

(** Bytes of a solid image. *)
Lemma solid_at (r g b : byte) (n i : nat) :
  (i < n)%nat ->
  let d := List.concat (repeat [r; g; b; xff] n) in
  at_ d (i * 4) = r /\ at_ d (i * 4 + 1) = g /\ at_ d (i * 4 + 2) = b.
Proof.
  revert i; induction n as [|n IH]; intros i Hi; [lia|].
  destruct i as [|i].
  - simpl. repeat split.
  - assert (Hlt : (i < n)%nat) by lia.
    specialize (IH i Hlt). simpl in IH. exact IH.
Qed.

(** An all-white image is masked whole once clouds are ignored. *)
Lemma white_all_masked (w h : nat) (idk : bool) :
  consideredCount (white w h) (white w h) true idk = 0%nat.
Proof.
  unfold consideredCount, white, solid; simpl width; simpl height; simpl data.
  rewrite !Nat.min_id.
  assert (H : forall i, In i (seq 0 (w * h)) ->
            negb (masked true idk (List.concat (repeat [xff; xff; xff; xff] (w * h)))
                    (List.concat (repeat [xff; xff; xff; xff] (w * h))) i) = false).
  { intros i Hi. apply in_seq in Hi.
    destruct (solid_at xff xff xff (w * h) i) as (E0 & E1 & E2); [lia|].
    unfold masked. rewrite E0, E1, E2. reflexivity. }
  revert H. generalize (seq 0 (w * h)).
  intros l; induction l as [|i l IH]; intros H; simpl; [reflexivity|].
  rewrite (H i (or_introl eq_refl)). apply IH.
  intros j Hj. apply H. right. exact Hj.
Qed.

(** C1, as stated, fails: two identical all-white 2 x 2 buffers with
    [ignoreClouds] on (the component's default) give no statistics at
    all; the loop throws instead. *)
Lemma computeDiff_identical_white_throws :
  ~ (exists heat s,
        computeDiff (white 2 2) (white 2 2) 20 true false = Return (heat, s)
        /\ (meanDiff s == 0)%Q /\ (changedPercent s == 0)%Q).
Proof.
  intros (heat & s & H & _). vm_compute in H. discriminate H.
Qed.

(** C1 (amended): on two identical buffers and a threshold above zero,
    [computeDiff] throws "all pixels masked" when no pixel passes the mask,
    and otherwise returns statistics with [meanDiff = 0] and
    [changedPercent = 0]. *)
Theorem computeDiff_identical (a : ImageData) (t : Q) (ic idk : bool) :
  (0 < t)%Q ->
  (consideredCount a a ic idk = 0%nat ->
     computeDiff a a t ic idk = Throw AllPixelsMasked)
  /\ (consideredCount a a ic idk <> 0%nat ->
       exists heat s,
         computeDiff a a t ic idk = Return (heat, s)
         /\ (meanDiff s == 0)%Q /\ (changedPercent s == 0)%Q).
Proof.
  intros Ht. unfold computeDiff.
  rewrite considered_count.
  split; intros Hc.
  - rewrite Hc. reflexivity.
  - apply Nat.eqb_neq in Hc. rewrite Hc.
    eexists; eexists; split; [reflexivity|]. simpl.
    destruct (fold_same t ic idk (data a) (seq 0 (Nat.min (width a) (width a)
                * Nat.min (height a) (height a))) acc0 Ht) as [Hs Hch];
      [reflexivity | reflexivity |].
    fold (diffLoop t ic idk (data a) (data a)
            (Nat.min (width a) (width a) * Nat.min (height a) (height a))) in Hs, Hch.
    rewrite Hs, Hch. split; reflexivity.
Qed.

Lemma computeDiff_identical_witness :
  exists heat s,
    computeDiff (solid 2 2 x64 x64 x64) (solid 2 2 x64 x64 x64) 20 true false
    = Return (heat, s)
    /\ (meanDiff s == 0)%Q /\ (changedPercent s == 0)%Q.
Proof.
  apply (computeDiff_identical (solid 2 2 x64 x64 x64) 20 true false).
  - reflexivity.
  - vm_compute. discriminate.
Defined.

(** C2: for fixed buffers and masking options, raising the threshold never
    raises [changedPercent]; whether statistics exist at all does not
    depend on the threshold. *)
Theorem computeDiff_threshold_monotone (a b : ImageData) (ic idk : bool) (t1 t2 : Q) :
  (t1 <= t2)%Q ->
  match computeDiff a b t1 ic idk, computeDiff a b t2 ic idk with
  | Return (_, s1), Return (_, s2) => (changedPercent s2 <= changedPercent s1)%Q
  | Throw _, Throw _ => True
  | _, _ => False
  end.
Proof.
  intros Ht. unfold computeDiff. rewrite !considered_count.
  destruct (Nat.eqb (consideredCount a b ic idk) 0) eqn:E; [exact I|].
  apply Nat.eqb_neq in E. simpl.
  pose proof (natQ_pos _ E) as Hpos.
  set (n := (Nat.min (width a) (width b) * Nat.min (height a) (height b))%nat).
  assert (Hch : (changed (diffLoop t2 ic idk (data a) (data b) n)
                 <= changed (diffLoop t1 ic idk (data a) (data b) n))%nat).
  { unfold diffLoop. apply fold_changed_mono; [exact Ht | simpl; lia]. }
  apply Qmult_le_compat_r; [|discriminate].
  unfold Qdiv. apply Qmult_le_compat_r.
  - unfold natQ, Qle. simpl. lia.
  - apply Qlt_le_weak, Qinv_lt_0_compat, Hpos.
Qed.

Lemma computeDiff_threshold_monotone_witness :
  match computeDiff (solid 2 2 x64 x64 x64) (solid 2 2 x8c x8c x64) 20 false false,
        computeDiff (solid 2 2 x64 x64 x64) (solid 2 2 x8c x8c x64) 30 false false with
  | Return (_, s1), Return (_, s2) => (changedPercent s2 <= changedPercent s1)%Q
  | Throw _, Throw _ => True
  | _, _ => False
  end.
Proof.
  apply (computeDiff_threshold_monotone
           (solid 2 2 x64 x64 x64) (solid 2 2 x8c x8c x64) false false 20 30).
  vm_compute. discriminate.
Defined.

(** C3: [computeDiff] throws "all pixels masked" exactly when the number
    of considered (unmasked) pixels is zero; white [(255,255,255)] is
    cloud-like, so two all-white buffers of any size with [ignoreClouds]
    on throw instead of returning zero statistics. *)
Theorem computeDiff_all_masked :
  (forall a b t ic idk,
      computeDiff a b t ic idk = Throw AllPixelsMasked
      <-> consideredCount a b ic idk = 0%nat)
  /\ isCloudLike xff xff xff = true
  /\ (forall w h t idk,
        computeDiff (white w h) (white w h) t true idk = Throw AllPixelsMasked).
Proof.
  assert (H : forall a b t ic idk,
             computeDiff a b t ic idk = Throw AllPixelsMasked
             <-> consideredCount a b ic idk = 0%nat).
  { intros a b t ic idk. unfold computeDiff. rewrite considered_count.
    destruct (Nat.eqb (consideredCount a b ic idk) 0) eqn:E.
    - apply Nat.eqb_eq in E. split; [intros _; exact E | reflexivity].
    - apply Nat.eqb_neq in E. split; [discriminate | intros E'; contradiction]. }
  split; [exact H|]. split; [reflexivity|].
  intros w h t idk. apply H. apply white_all_masked.
Qed.

End DiffProps.

(** ** Coordinate projector *)

Module ProjectorProps.
Import Projector.

Local Open Scope R_scope.

Lemma Math_floor_bounds (x : R) : IZR (Math_floor x) <= x < IZR (Math_floor x) + 1.
Proof.
  unfold Math_floor. destruct (base_Int_part x) as [H1 H2]. lra.
Qed.

Lemma Math_floor_le (x y : R) : x <= y -> (Math_floor x <= Math_floor y)%Z.
Proof.
  intros Hxy.
  pose proof (Math_floor_bounds x) as Hx.
  pose proof (Math_floor_bounds y) as Hy.
  assert (H : IZR (Math_floor x) < IZR (Math_floor y + 1)).
  { rewrite plus_IZR. lra. }
  apply lt_IZR in H. lia.
Qed.

Lemma Math_floor_unique (x : R) (k : Z) : IZR k <= x < IZR k + 1 -> Math_floor x = k.
Proof.
  intros H. unfold Math_floor. symmetry. apply Int_part_spec. lra.
Qed.

Lemma clampLat_range (lat : R) : -85.05112878 <= clampLat lat <= 85.05112878.
Proof.
  unfold clampLat, Rmax, Rmin.
  repeat destruct (Rle_dec _ _); lra.
Qed.

Lemma clampLat_mono (a b : R) : a <= b -> clampLat a <= clampLat b.
Proof.
  intros H. unfold clampLat, Rmax, Rmin.
  repeat destruct (Rle_dec _ _); lra.
Qed.

Lemma PI_gt_3 : 3 < PI.
Proof. pose proof PI2_3_2. lra. Qed.

(** The clamped latitude, in radians, stays strictly inside the domain of
    the Mercator map. *)
Lemma latRad_range (lat : R) :
  - (PI / 2) < clampLat lat * PI / 180 < PI / 2.
Proof.
  pose proof (clampLat_range lat) as Hc. pose proof PI_RGT_0 as Hpi.
  split; nra.
Qed.

(** [tan + 1/cos] on the open interval: positive and increasing. *)
Lemma merc_quot (a : R) :
  - (PI / 2) < a < PI / 2 -> tan a + 1 / cos a = (1 + sin a) / cos a.
Proof.
  intros [H1 H2]. pose proof (cos_gt_0 a H1 H2) as Hc.
  unfold tan. field. lra.
Qed.

Lemma merc_pos (a : R) : - (PI / 2) < a < PI / 2 -> 0 < tan a + 1 / cos a.
Proof.
  intros H. rewrite (merc_quot a H). destruct H as [H1 H2].
  pose proof (cos_gt_0 a H1 H2) as Hc.
  pose proof (sin2_cos2 a) as Hs. unfold Rsqr in Hs.
  pose proof (SIN_bound a) as [Hb _].
  apply Rdiv_lt_0_compat; [nra | exact Hc].
Qed.

Lemma merc_mono (a b : R) :
  - (PI / 2) < a -> a <= b -> b < PI / 2 ->
  tan a + 1 / cos a <= tan b + 1 / cos b.
Proof.
  intros Ha Hab Hb.
  rewrite (merc_quot a), (merc_quot b) by lra.
  assert (Hca : 0 < cos a) by (apply cos_gt_0; lra).
  assert (Hcb : 0 < cos b) by (apply cos_gt_0; lra).
  set (u := (a + b) / 2). set (v := (b - a) / 2).
  assert (Ea : a = u - v) by (unfold u, v; lra).
  assert (Eb : b = u + v) by (unfold u, v; lra).
  assert (Hsv : 0 <= sin v).
  { apply sin_ge_0; unfold v; pose proof PI_RGT_0; lra. }
  assert (Hsu : 0 <= sin u + cos v).
  { rewrite <- (sin_shift v).
    assert (H : sin (v - PI / 2) <= sin u).
    { apply sin_incr_1; unfold u, v; pose proof PI_RGT_0; lra. }
    replace (v - PI / 2) with (- (PI / 2 - v)) in H by lra.
    rewrite sin_neg in H. lra. }
  assert (K : (1 + sin a) * cos b <= (1 + sin b) * cos a).
  { rewrite Ea, Eb. rewrite sin_minus, sin_plus, cos_minus, cos_plus.
    pose proof (sin2_cos2 u) as Hu. unfold Rsqr in Hu.
    assert (P : 0 <= 2 * sin v * (sin u + cos v)) by nra.
    assert (E : (1 + (sin u * cos v + cos u * sin v)) * (cos u * cos v + sin u * sin v)
                - (1 + (sin u * cos v - cos u * sin v)) * (cos u * cos v - sin u * sin v)
                = 2 * sin v * sin u + 2 * sin v * cos v * (sin u * sin u + cos u * cos u))
      by ring.
    rewrite Hu in E. lra. }
  apply (Rmult_le_reg_r (cos a * cos b)); [nra|].
  replace ((1 + sin a) / cos a * (cos a * cos b)) with ((1 + sin a) * cos b)
    by (field; lra).
  replace ((1 + sin b) / cos b * (cos a * cos b)) with ((1 + sin b) * cos a)
    by (field; lra).
  exact K.
Qed.

Lemma py_mercY (lon lat : R) (z : nat) :
  py (lonLatToWorldPx lon lat z) = (1 - mercY lat / PI) / 2 * 2 ^ z * 256.
Proof. reflexivity. Qed.

Lemma mercY_mono (lat1 lat2 : R) : lat1 <= lat2 -> mercY lat1 <= mercY lat2.
Proof.
  intros H. unfold mercY.
  pose proof (latRad_range lat1) as H1. pose proof (latRad_range lat2) as H2.
  pose proof (clampLat_mono _ _ H) as Hc. pose proof PI_RGT_0 as Hpi.
  assert (Hm : tan (clampLat lat1 * PI / 180) + 1 / cos (clampLat lat1 * PI / 180)
               <= tan (clampLat lat2 * PI / 180) + 1 / cos (clampLat lat2 * PI / 180)).
  { apply merc_mono; [lra | nra | lra]. }
  destruct Hm as [Hlt | Heq].
  - left. apply ln_increasing; [apply merc_pos; exact H1 | exact Hlt].
  - right. rewrite Heq. reflexivity.
Qed.

Lemma pow2_pos (z : nat) : 0 < 2 ^ z.
Proof. apply pow_lt. lra. Qed.

(** East is right: the pixel column grows with the longitude. *)
Lemma px_mono (lon1 lon2 lat1 lat2 : R) (z : nat) :
  lon1 <= lon2 ->
  px (lonLatToWorldPx lon1 lat1 z) <= px (lonLatToWorldPx lon2 lat2 z).
Proof.
  intros H. simpl. pose proof (pow2_pos z) as Hn.
  apply Rmult_le_compat_r; [lra|].
  apply Rmult_le_compat_r; lra.
Qed.

(** North is up: the pixel row shrinks as the latitude grows. *)
Lemma py_antimono (lon1 lon2 lat1 lat2 : R) (z : nat) :
  lat1 <= lat2 ->
  py (lonLatToWorldPx lon2 lat2 z) <= py (lonLatToWorldPx lon1 lat1 z).
Proof.
  intros H. rewrite !py_mercY.
  pose proof (pow2_pos z) as Hn. pose proof PI_RGT_0 as Hpi.
  pose proof (mercY_mono _ _ H) as Hm.
  apply Rmult_le_compat_r; [lra|].
  apply Rmult_le_compat_r; [lra|].
  assert (Hd : mercY lat1 / PI <= mercY lat2 / PI).
  { apply Rmult_le_compat_r; [|exact Hm]. left. apply Rinv_0_lt_compat, Hpi. }
  lra.
Qed.

Lemma tilesX_calc (bbox : BBox) (z : nat) :
  tilesX (calc bbox z)
  = (Math_floor (px (lonLatToWorldPx (maxLng bbox) (minLat bbox) z) / 256)
     - Math_floor (px (lonLatToWorldPx (minLng bbox) (maxLat bbox) z) / 256) + 1)%Z.
Proof. reflexivity. Qed.

Lemma tilesY_calc (bbox : BBox) (z : nat) :
  tilesY (calc bbox z)
  = (Math_floor (py (lonLatToWorldPx (maxLng bbox) (minLat bbox) z) / 256)
     - Math_floor (py (lonLatToWorldPx (minLng bbox) (maxLat bbox) z) / 256) + 1)%Z.
Proof. reflexivity. Qed.

Lemma tilesX_ge_1 (bbox : BBox) (zoom : nat) :
  minLng bbox <= maxLng bbox -> (1 <= tilesX (calc bbox zoom))%Z.
Proof.
  intros Hlng. rewrite tilesX_calc.
  assert (Hx : (Math_floor (px (lonLatToWorldPx (minLng bbox) (maxLat bbox) zoom) / 256)
                <= Math_floor (px (lonLatToWorldPx (maxLng bbox) (minLat bbox) zoom) / 256))%Z).
  { apply Math_floor_le.
    pose proof (px_mono (minLng bbox) (maxLng bbox) (maxLat bbox) (minLat bbox) zoom Hlng).
    lra. }
  lia.
Qed.

Lemma tilesY_ge_1 (bbox : BBox) (zoom : nat) :
  minLat bbox <= maxLat bbox -> (1 <= tilesY (calc bbox zoom))%Z.
Proof.
  intros Hlat. rewrite tilesY_calc.
  assert (Hy : (Math_floor (py (lonLatToWorldPx (minLng bbox) (maxLat bbox) zoom) / 256)
                <= Math_floor (py (lonLatToWorldPx (maxLng bbox) (minLat bbox) zoom) / 256))%Z).
  { apply Math_floor_le.
    pose proof (py_antimono (maxLng bbox) (minLng bbox) (minLat bbox) (maxLat bbox) zoom Hlat).
    lra. }
  lia.
Qed.

(** Over the real-number projection: for every zoom and every bounding box
    with [minLng < maxLng] and [minLat < maxLat], the tile range of [calc]
    has [tilesX >= 1] and [tilesY >= 1].  The columns as binary64 computes
    them are the subject of [Projector64Props]. *)
Theorem calc_tiles_nonempty (bbox : BBox) (zoom : nat) :
  (zoom <= 24)%nat ->
  minLng bbox < maxLng bbox ->
  minLat bbox < maxLat bbox ->
  (1 <= tilesX (calc bbox zoom))%Z /\ (1 <= tilesY (calc bbox zoom))%Z.
Proof.
  intros _ Hlng Hlat. split.
  - apply tilesX_ge_1. lra.
  - apply tilesY_ge_1. lra.
Qed.

Lemma calc_tiles_nonempty_witness :
  (1 <= tilesX (calc (mkBBox 13.37 52.31 13.63 52.46) 16))%Z
  /\ (1 <= tilesY (calc (mkBBox 13.37 52.31 13.63 52.46) 16))%Z.
Proof.
  apply (calc_tiles_nonempty (mkBBox 13.37 52.31 13.63 52.46) 16).
  - lia.
  - simpl. lra.
  - simpl. lra.
Defined.

(** *** How far the clamp lets the projection go *)

Lemma sin_half_ge (x : R) : 0 <= x <= PI / 2 -> sin (2 * x) / 2 <= sin x.
Proof.
  intros Hx. rewrite sin_2a.
  assert (Hs : 0 <= sin x) by (apply sin_ge_0; pose proof PI_RGT_0; lra).
  pose proof (COS_bound x) as [_ Hc]. nra.
Qed.

Lemma sin_PI48 : 1 / 16 <= sin (PI / 48).
Proof.
  pose proof PI_RGT_0 as Hpi. pose proof PI_4 as Hpi4.
  pose proof sin_PI6 as H6.
  pose proof (sin_half_ge (PI / 12)) as H12.
  replace (2 * (PI / 12)) with (PI / 6) in H12 by lra.
  pose proof (sin_half_ge (PI / 24)) as H24.
  replace (2 * (PI / 24)) with (PI / 12) in H24 by lra.
  pose proof (sin_half_ge (PI / 48)) as H48.
  replace (2 * (PI / 48)) with (PI / 24) in H48 by lra.
  assert (A : sin (PI / 6) / 2 <= sin (PI / 12)) by (apply H12; lra).
  assert (B : sin (PI / 12) / 2 <= sin (PI / 24)) by (apply H24; lra).
  assert (C : sin (PI / 24) / 2 <= sin (PI / 48)) by (apply H48; lra).
  lra.
Qed.

Lemma cos_latRad_lb (lat : R) : 1 / 16 <= cos (clampLat lat * PI / 180).
Proof.
  pose proof (clampLat_range lat) as Hc. pose proof PI_RGT_0 as Hpi.
  set (c := 85.05112878 * PI / 180).
  assert (Hcc : 1 / 16 <= cos c).
  { rewrite <- (sin_shift c).
    apply Rle_trans with (1 := sin_PI48).
    apply sin_incr_1; unfold c; lra. }
  apply Rle_trans with (1 := Hcc).
  destruct (Rle_dec 0 (clampLat lat)) as [Hpos | Hneg].
  - apply cos_decr_1; unfold c; nra.
  - rewrite <- (cos_neg (clampLat lat * PI / 180)).
    apply cos_decr_1; unfold c; nra.
Qed.

Lemma exp_5_gt_32 : 32 < exp 5.
Proof.
  assert (H1 : 2 < exp 1) by (pose proof (exp_ineq1 1); lra).
  replace 5 with (1 + (1 + (1 + (1 + 1)))) by lra.
  rewrite !exp_plus. set (e := exp 1) in *.
  assert (H2 : 4 < e * e) by nra.
  assert (H3 : 8 < e * (e * e)) by nra.
  assert (H4 : 16 < e * (e * (e * e))) by nra.
  nra.
Qed.

(** Thanks to [clampLat] the logarithm stays within [-5, 5]. *)
Lemma mercY_bound (lat : R) : -5 < mercY lat < 5.
Proof.
  unfold mercY.
  pose proof (latRad_range lat) as Hr.
  pose proof (cos_latRad_lb lat) as Hc.
  pose proof (merc_pos _ Hr) as Hpos.
  rewrite (merc_quot _ Hr) in *.
  set (a := clampLat lat * PI / 180) in *.
  pose proof (SIN_bound a) as [Hs1 Hs2].
  pose proof (sin2_cos2 a) as Hsc. unfold Rsqr in Hsc.
  pose proof exp_5_gt_32 as He.
  assert (Hinv : 0 < / cos a) by (apply Rinv_0_lt_compat; lra).
  assert (E : cos a * / cos a = 1) by (apply Rinv_r; lra).
  assert (Hub : (1 + sin a) / cos a <= 32).
  { unfold Rdiv. nra. }
  assert (Hlb : 1 / 32 <= (1 + sin a) / cos a).
  { unfold Rdiv.
    assert (H2 : cos a * cos a <= 2 * (1 + sin a)) by nra.
    assert (H3 : cos a / 2 <= (1 + sin a) * / cos a) by nra.
    lra. }
  split.
  - rewrite <- (ln_exp (-5)). apply ln_increasing; [apply exp_pos|].
    replace (-5) with (- (5)) by lra. rewrite exp_Ropp.
    assert (H5 : / exp 5 < / 32) by (apply Rinv_lt_contravar; lra).
    lra.
  - rewrite <- (ln_exp 5). apply ln_increasing; [exact Hpos | lra].
Qed.

(** At zoom 0 the rows seen are -1, 0 and 1. *)
Lemma row_zoom0 (lon lat : R) :
  (-1 <= Math_floor (py (lonLatToWorldPx lon lat 0) / 256) <= 1)%Z.
Proof.
  rewrite py_mercY.
  pose proof (mercY_bound lat) as Hm. pose proof PI_gt_3 as Hpi.
  set (q := mercY lat / PI).
  assert (Hq : -5 / 3 < q < 5 / 3).
  { unfold q. assert (Hi : 0 < / PI) by (apply Rinv_0_lt_compat; lra).
    assert (Hi3 : / PI < / 3) by (apply Rinv_lt_contravar; lra).
    unfold Rdiv. split; nra. }
  pose proof (Math_floor_bounds ((1 - q) / 2 * 2 ^ 0 * 256 / 256)) as Hf.
  simpl pow in *.
  set (k := Math_floor ((1 - q) / 2 * 1 * 256 / 256)) in *.
  assert (H1 : IZR (-2) < IZR k) by (simpl; lra).
  assert (H2 : IZR k < IZR 2) by (simpl; lra).
  apply lt_IZR in H1, H2. lia.
Qed.

(** At zoom 0 a longitude of [-180, 180] falls in column 0 or 1. *)
Lemma col_zoom0 (lon lat : R) :
  -180 <= lon <= 180 ->
  (0 <= Math_floor (px (lonLatToWorldPx lon lat 0) / 256) <= 1)%Z.
Proof.
  intros Hl. cbn [lonLatToWorldPx px]. simpl pow.
  pose proof (Math_floor_bounds ((lon + 180) / 360 * 1 * 256 / 256)) as Hf.
  set (k := Math_floor ((lon + 180) / 360 * 1 * 256 / 256)) in *.
  assert (H1 : IZR (-1) < IZR k) by (simpl; lra).
  assert (H2 : IZR k < IZR 2) by (simpl; lra).
  apply lt_IZR in H1, H2. lia.
Qed.

(** *** The projection on the equator and one degree north *)

Lemma clampLat_id (lat : R) : -85.05112878 <= lat <= 85.05112878 -> clampLat lat = lat.
Proof.
  intros H. unfold clampLat, Rmax, Rmin.
  repeat destruct (Rle_dec _ _); lra.
Qed.

Lemma mercY_0 : mercY 0 = 0.
Proof.
  unfold mercY. rewrite clampLat_id by lra.
  replace (0 * PI / 180) with 0 by lra.
  rewrite tan_0, cos_0. replace (0 + 1 / 1) with 1 by lra. apply ln_1.
Qed.

Lemma exp_2_gt_4 : 4 < exp 2.
Proof.
  assert (H1 : 2 < exp 1) by (pose proof (exp_ineq1 1); lra).
  replace 2 with (1 + 1) by lra. rewrite exp_plus. nra.
Qed.

Lemma mercY_1 : 0 <= mercY 1 <= 2.
Proof.
  split.
  - rewrite <- mercY_0. apply mercY_mono. lra.
  - unfold mercY. rewrite clampLat_id by lra.
    pose proof PI_RGT_0 as Hpi. pose proof PI_4 as Hpi4.
    set (a := 1 * PI / 180).
    assert (Hr : - (PI / 2) < a < PI / 2) by (unfold a; lra).
    pose proof (merc_pos a Hr) as Hpos.
    rewrite (merc_quot a Hr) in *.
    assert (Hc : 1 / 2 <= cos a).
    { rewrite <- cos_PI3. apply cos_decr_1; unfold a; lra. }
    pose proof (SIN_bound a) as [_ Hs].
    assert (Hinv : 0 < / cos a) by (apply Rinv_0_lt_compat; lra).
    assert (E : cos a * / cos a = 1) by (apply Rinv_r; lra).
    assert (Hub : (1 + sin a) / cos a <= 4) by (unfold Rdiv; nra).
    left. rewrite <- (ln_exp 2). apply ln_increasing; [exact Hpos|].
    pose proof exp_2_gt_4. lra.
Qed.

End ProjectorProps.


(** ** Tile mosaic loader *)

Module MosaicProps.
Import Projector Mosaic ProjectorProps.

Local Open Scope Z_scope.

Lemma budget_le (bbox : BBox) (z : nat) : (budget bbox z <= z)%nat.
Proof.
  induction z as [|z IH]; simpl; [lia|].
  destruct (_ >? maxTiles); lia.
Qed.

(** Where the budget loop stops: at zoom 0, or on a range within budget. *)
Lemma budget_stop (bbox : BBox) (z : nat) :
  budget bbox z = 0%nat \/ tileCount bbox (budget bbox z) <= maxTiles.
Proof.
  induction z as [|z IH]; [left; reflexivity|].
  cbn [budget].
  destruct (tilesX (calc bbox (S z)) * tilesY (calc bbox (S z)) >? maxTiles) eqn:E.
  - exact IH.
  - right. unfold tileCount. lia.
Qed.

Lemma budget_fix (bbox : BBox) (z : nat) :
  tileCount bbox z <= maxTiles -> budget bbox z = z.
Proof.
  intros H. destruct z as [|z]; [reflexivity|].
  cbn [budget]. unfold tileCount in H.
  destruct (tilesX (calc bbox (S z)) * tilesY (calc bbox (S z)) >? maxTiles) eqn:E;
    [lia | reflexivity].
Qed.

Lemma zrange_length (s : Z) (n : nat) : List.length (zrange s n) = n.
Proof.
  revert s; induction n as [|n IH]; intros s; simpl; [reflexivity|].
  rewrite IH. reflexivity.
Qed.

Lemma tileList_length (c : TileRange) :
  List.length (tileList c) = (Z.to_nat (tilesY c) * Z.to_nat (tilesX c))%nat.
Proof.
  unfold tileList.
  generalize (zrange (y0 c) (Z.to_nat (tilesY c))) (zrange_length (y0 c) (Z.to_nat (tilesY c))).
  intros rows; generalize (Z.to_nat (tilesY c)).
  induction rows as [|ty rows IH]; intros n Hn; simpl in *.
  - subst n. reflexivity.
  - destruct n as [|n]; [discriminate|].
    rewrite length_app, length_map, zrange_length, (IH n); [simpl; lia | lia].
Qed.

(** The fetch loop asks for a prefix of the tile list, each tile once. *)
Lemma fetchTiles_issued (env : Env) (allow : bool) (z : nat) (tiles : list (Z * Z)) :
  forall (missing : nat) (issued : list (Z * Z)),
    exists done rest,
      tiles = done ++ rest
      /\ fst (fetchTiles env allow z tiles missing issued) = issued ++ done.
Proof.
  induction tiles as [|[tx ty] tiles IH]; intros missing issued.
  - exists [], []. simpl. rewrite app_nil_r. split; reflexivity.
  - cbn [fetchTiles].
    destruct (fetchTile env z tx ty) as [|st|].
    + destruct (IH missing (issued ++ [(tx, ty)])) as (done & rest & E1 & E2).
      exists ((tx, ty) :: done), rest. rewrite E2, <- app_assoc, E1. split; reflexivity.
    + destruct allow.
      * destruct (IH (S missing) (issued ++ [(tx, ty)])) as (done & rest & E1 & E2).
        exists ((tx, ty) :: done), rest. rewrite E2, <- app_assoc, E1. split; reflexivity.
      * exists [(tx, ty)], tiles. split; reflexivity.
    + exists [(tx, ty)], tiles. split; reflexivity.
Qed.

(** An attempt never asks for more tiles than its range holds. *)
Lemma attempt_fetched_le (env : Env) (bbox : BBox) (allow : bool) (z : nat) :
  (List.length (fst (attempt env bbox allow z))
   <= Z.to_nat (tilesY (calc bbox z)) * Z.to_nat (tilesX (calc bbox z)))%nat.
Proof.
  rewrite <- tileList_length. unfold attempt.
  destruct (negb (canvas2d env)); [simpl; lia|].
  destruct (fetchTiles_issued env allow z (tileList (calc bbox z)) 0%nat [])
    as (done & rest & E1 & E2).
  destruct (fetchTiles env allow z (tileList (calc bbox z)) 0 []) as [issued [e|missing]];
    simpl in E2; subst issued.
  - simpl. rewrite E1, length_app. lia.
  - match goal with |- context [if ?c then _ else _] => destruct c end;
      simpl; rewrite E1, length_app; lia.
Qed.

Lemma attemptLoop_logged (env : Env) (bbox : BBox) (allow : bool) (left : nat) :
  forall z lastErr,
    Forall (logged env bbox allow) (fst (attemptLoop env bbox allow left z lastErr)).
Proof.
  induction left as [|left IH]; intros z lastErr; [constructor|].
  cbn [attemptLoop].
  destruct (attempt env bbox allow (budget bbox z)) as [issued [e|m]] eqn:E.
  - assert (Hl : logged env bbox allow (mkAttemptLog (budget bbox z) issued (Some e))).
    { split; [exists z; reflexivity | simpl; rewrite E; reflexivity]. }
    destruct (budget bbox z) as [|z2] eqn:Ez.
    + simpl. constructor; [exact Hl | constructor].
    + specialize (IH z2 (Some e)).
      destruct (attemptLoop env bbox allow left z2 (Some e)) as [trace r].
      simpl. constructor; [exact Hl | exact IH].
  - simpl. constructor; [|constructor].
    split; [exists z; reflexivity | simpl; rewrite E; reflexivity].
Qed.

(** *** The tile budget *)

Lemma tileCount_zoom0 (bbox : BBox) :
  (-180 <= minLng bbox <= 180)%R -> (-180 <= maxLng bbox <= 180)%R ->
  tileCount bbox 0 <= 6.
Proof.
  intros H1 H2. unfold tileCount. rewrite tilesX_calc, tilesY_calc.
  pose proof (col_zoom0 (minLng bbox) (maxLat bbox) H1).
  pose proof (col_zoom0 (maxLng bbox) (minLat bbox) H2).
  pose proof (row_zoom0 (minLng bbox) (maxLat bbox)).
  pose proof (row_zoom0 (maxLng bbox) (minLat bbox)).
  nia.
Qed.

Lemma budget_within (bbox : BBox) (z : nat) :
  (-180 <= minLng bbox <= 180)%R -> (-180 <= maxLng bbox <= 180)%R ->
  tileCount bbox (budget bbox z) <= maxTiles.
Proof.
  intros H1 H2. destruct (budget_stop bbox z) as [E | H]; [|exact H].
  rewrite E. pose proof (tileCount_zoom0 bbox H1 H2). unfold maxTiles. lia.
Qed.

Lemma fetchTiles_all_ok (env : Env) (allow : bool) (z : nat) :
  (forall tx ty, fetchTile env z tx ty = FetchOk) ->
  forall tiles missing issued,
    fetchTiles env allow z tiles missing issued = (issued ++ tiles, Return missing).
Proof.
  intros Hok tiles; induction tiles as [|[tx ty] tiles IH]; intros missing issued.
  - simpl. rewrite app_nil_r. reflexivity.
  - cbn [fetchTiles]. rewrite Hok, IH, <- app_assoc. reflexivity.
Qed.

Lemma initialZoom_int (k : Z) : 0 <= k <= 24 -> initialZoom (IZR k) = Z.to_nat k.
Proof.
  intros Hk. unfold initialZoom, Math_round.
  assert (E : Int_part (IZR k + / 2) = k).
  { symmetry. apply Int_part_spec. lra. }
  rewrite E. f_equal. lia.
Qed.

Lemma bboxWide_tilesX : tilesX (calc bboxWide 0) = 39.
Proof.
  rewrite tilesX_calc. cbn [lonLatToWorldPx px bboxWide minLng maxLng minLat maxLat].
  simpl pow.
  rewrite (Math_floor_unique ((7000 + 180) / 360 * 1 * 256 / 256) 19) by (simpl; lra).
  rewrite (Math_floor_unique ((-7000 + 180) / 360 * 1 * 256 / 256) (-19)) by (simpl; lra).
  reflexivity.
Qed.

(** C4, as stated, fails: on a box spanning 39 world widths the budget
    loop stops at zoom 0 with 39 or more tiles in range, and the one
    attempt made asks for all of them. *)
Lemma mosaic_wide_bbox_over_budget :
  ~ Forall (fun a => (List.length (att_fetched a) <= 36)%nat)
           (fst (loadBboxImageFromTiles envOk bboxWide 0 false)).
Proof.
  unfold loadBboxImageFromTiles.
  rewrite initialZoom_int by lia.
  cbn [Z.to_nat attemptLoop budget]. unfold attempt. cbn [envOk canvas2d negb].
  rewrite fetchTiles_all_ok by reflexivity.
  cbn [andb app fst att_fetched]. intros H.
  apply Forall_inv in H. cbn [att_fetched] in H.
  rewrite tileList_length, bboxWide_tilesX in H.
  assert (Hy : 1 <= tilesY (calc bboxWide 0)).
  { apply tilesY_ge_1. simpl. lra. }
  nia.
Qed.

(** C4 (amended): for every bounding box whose longitudes lie in
    [-180, 180] and every requested zoom, every attempt of the loader runs
    at a zoom whose tile range has [tilesX * tilesY <= 36], and issues at
    most 36 tile requests. *)
Theorem mosaic_attempt_within_budget (env : Env) (bbox : BBox) (requestedZoom : R)
    (allowMissingTiles : bool) :
  (-180 <= minLng bbox <= 180)%R ->
  (-180 <= maxLng bbox <= 180)%R ->
  Forall (fun a =>
            tilesX (calc bbox (att_zoom a)) * tilesY (calc bbox (att_zoom a)) <= maxTiles
            /\ (List.length (att_fetched a) <= 36)%nat)
         (fst (loadBboxImageFromTiles env bbox requestedZoom allowMissingTiles)).
Proof.
  intros H1 H2. unfold loadBboxImageFromTiles.
  eapply Forall_impl; [|apply attemptLoop_logged].
  intros a [[z Hz] Hf].
  pose proof (budget_within bbox z H1 H2) as Hb. rewrite <- Hz in Hb.
  split; [exact Hb|].
  rewrite Hf.
  pose proof (attempt_fetched_le env bbox allowMissingTiles (att_zoom a)) as Hl.
  unfold tileCount, maxTiles in Hb. nia.
Qed.

Lemma mosaic_attempt_within_budget_witness :
  Forall (fun a =>
            tilesX (calc (mkBBox 13.37 52.31 13.63 52.46) (att_zoom a))
            * tilesY (calc (mkBBox 13.37 52.31 13.63 52.46) (att_zoom a)) <= maxTiles
            /\ (List.length (att_fetched a) <= 36)%nat)
         (fst (loadBboxImageFromTiles envOk (mkBBox 13.37 52.31 13.63 52.46) 16 false)).
Proof.
  apply (mosaic_attempt_within_budget envOk (mkBBox 13.37 52.31 13.63 52.46) 16 false).
  - simpl. lra.
  - simpl. lra.
Defined.

(** *** The retry policy *)

Section Retry.
Variables (env : Env) (bbox : BBox) (allow : bool).

Let loop := attemptLoop env bbox allow.

(** What the attempt loop guarantees with [left] passes to go. *)
Lemma attemptLoop_policy (left : nat) :
  forall (z : nat) (lastErr : option LoadError),
    let trace := fst (loop left z lastErr) in
    let res := snd (loop left z lastErr) in
    (forall e, res = Throw e ->
       (left = 0%nat /\ trace = [] /\ e = lastErr)
       \/ exists init a,
            trace = init ++ [a] /\ e = att_error a /\ e <> None
            /\ (att_zoom a = 0%nat \/ List.length trace = left))
    /\ (forall i a,
          nth_error trace i = Some a -> att_error a <> None ->
          (0 < att_zoom a)%nat -> (S i < left)%nat ->
          exists b, nth_error trace (S i) = Some b
                    /\ att_zoom b = budget bbox (att_zoom a - 1))
    /\ (forall a, nth_error trace 0 = Some a -> att_zoom a = budget bbox z)
    /\ (left <> 0%nat -> nth_error trace 0 <> None).
Proof.
  unfold loop.
  induction left as [|l IH]; intros z lastErr; cbn zeta.
  - cbn [attemptLoop fst snd]. repeat split.
    + intros e He. injection He as <-. left. repeat split.
    + intros i a Hi. destruct i; discriminate Hi.
    + intros a Ha. discriminate Ha.
    + intros H; contradiction.
  - cbn [attemptLoop].
    destruct (attempt env bbox allow (budget bbox z)) as [issued [e|m]].
    + destruct (budget bbox z) as [|z2] eqn:Ez.
      * cbn [fst snd]. repeat split.
        -- intros e' He. injection He as <-. right.
           exists [], (mkAttemptLog 0 issued (Some e)).
           repeat split; [discriminate | left; reflexivity].
        -- intros i a Hi Herr Hz. destruct i as [|i].
           ++ injection Hi as <-. simpl in Hz. lia.
           ++ destruct i; discriminate Hi.
        -- intros a Ha. injection Ha as <-. reflexivity.
        -- discriminate.
      * specialize (IH z2 (Some e)). cbn zeta in IH.
        destruct (attemptLoop env bbox allow l z2 (Some e)) as [trace r].
        cbn [fst snd] in *. destruct IH as (IHA & IHB & IHC & IHD).
        repeat split.
        -- intros e' He. right. destruct (IHA e' He) as [(El & Et & Ee) | (init & a & Et & Ee & Hn & Hz)].
           ++ subst. exists [], (mkAttemptLog (S z2) issued (Some e)).
              repeat split; [discriminate | right; reflexivity].
           ++ exists (mkAttemptLog (S z2) issued (Some e) :: init), a.
              repeat split; try assumption.
              ** rewrite Et. reflexivity.
              ** destruct Hz as [Hz | Hz]; [left; exact Hz | right; simpl; lia].
        -- intros i a Hi Herr Hz Hlt. destruct i as [|i].
           ++ injection Hi as <-. cbn [att_zoom].
              assert (Hl : l <> 0%nat) by lia.
              destruct (nth_error trace 0) as [b|] eqn:Eb; [|exfalso; apply (IHD Hl); reflexivity].
              exists b. split; [exact Eb|].
              rewrite (IHC b eq_refl). f_equal. lia.
           ++ apply (IHB i a Hi Herr Hz). lia.
        -- intros a Ha. injection Ha as <-. reflexivity.
        -- discriminate.
    + cbn [fst snd]. repeat split.
      * intros e He. discriminate He.
      * intros i a Hi Herr. destruct i as [|i].
        -- injection Hi as <-. simpl in Herr. contradiction.
        -- destruct i; discriminate Hi.
      * intros a Ha. injection Ha as <-. reflexivity.
      * discriminate.
Qed.

End Retry.

(** C5 (amended): the loader rethrows an error only when the attempt at
    zoom 0 has failed or when six attempts have failed, and what it
    rethrows is the error of its last attempt; every failed attempt at a
    zoom [z > 0], the sixth apart, is followed by a retry at the zoom the
    budget loop reaches from [z - 1], which is below [z]. *)
Theorem loader_retry_policy (env : Env) (bbox : BBox) (requestedZoom : R)
    (allowMissingTiles : bool) :
  let trace := fst (loadBboxImageFromTiles env bbox requestedZoom allowMissingTiles) in
  let res := snd (loadBboxImageFromTiles env bbox requestedZoom allowMissingTiles) in
  (forall e, res = Throw e ->
     exists init a,
       trace = init ++ [a] /\ e = att_error a /\ e <> None
       /\ (att_zoom a = 0%nat \/ List.length trace = 6%nat))
  /\ (forall i a,
        nth_error trace i = Some a -> att_error a <> None ->
        (0 < att_zoom a)%nat -> (i < 5)%nat ->
        exists b, nth_error trace (S i) = Some b
                  /\ att_zoom b = budget bbox (att_zoom a - 1)
                  /\ (att_zoom b < att_zoom a)%nat).
Proof.
  cbn zeta. unfold loadBboxImageFromTiles.
  destruct (attemptLoop_policy env bbox allowMissingTiles 6 (initialZoom requestedZoom) None)
    as (HA & HB & _ & _).
  split.
  - intros e He. destruct (HA e He) as [(E & _) | H]; [discriminate E | exact H].
  - intros i a Hi Herr Hz Hlt.
    destruct (HB i a Hi Herr Hz) as (b & Hb & Ezb); [lia|].
    exists b. repeat split; try assumption.
    rewrite Ezb. pose proof (budget_le bbox (att_zoom a - 1)). lia.
Qed.

(** Without a canvas every attempt throws before its first request. *)
Lemma attemptLoop_no_canvas (bbox : BBox) (allow : bool) (left : nat) :
  forall z lastErr,
    left <> 0%nat ->
    snd (attemptLoop envNoCanvas bbox allow left z lastErr)
    = Throw (Some CanvasNotAvailable).
Proof.
  induction left as [|l IH]; intros z lastErr Hl; [contradiction|].
  cbn [attemptLoop]. unfold attempt at 1. cbn [envNoCanvas canvas2d negb].
  destruct (budget bbox z) as [|z2]; [reflexivity|].
  specialize (IH z2 (Some CanvasNotAvailable)).
  destruct l as [|l']; [reflexivity|].
  destruct (attemptLoop envNoCanvas bbox allow (S l') z2 (Some CanvasNotAvailable))
    as [trace r].
  cbn [snd] in *. apply IH. discriminate.
Qed.

Lemma loader_retry_policy_witness :
  exists init a,
    fst (loadBboxImageFromTiles envNoCanvas bboxUnit 6 false) = init ++ [a]
    /\ Some CanvasNotAvailable = att_error a
    /\ Some CanvasNotAvailable <> None
    /\ (att_zoom a = 0%nat
        \/ List.length (fst (loadBboxImageFromTiles envNoCanvas bboxUnit 6 false)) = 6%nat).
Proof.
  destruct (loader_retry_policy envNoCanvas bboxUnit 6 false) as [H _].
  apply H. unfold loadBboxImageFromTiles. apply attemptLoop_no_canvas. discriminate.
Defined.

(** *** Six failures in a row *)

Lemma zrange_S (s : Z) (n : nat) : zrange s (S n) = s :: zrange (s + 1) n.
Proof. reflexivity. Qed.

(** When every request is refused and missing tiles are not allowed, the
    attempt dies on its first tile. *)
Lemma attempt_refused (env : Env) (bbox : BBox) (z : nat) (st : Z) :
  canvas2d env = true ->
  (forall tx ty, fetchTile env z tx ty = FetchStatus st) ->
  1 <= tilesX (calc bbox z) -> 1 <= tilesY (calc bbox z) ->
  exists issued e, attempt env bbox false z = (issued, Throw e).
Proof.
  intros Hc Hf Hx Hy. unfold attempt. rewrite Hc. cbn [negb].
  unfold tileList.
  destruct (Z.to_nat (tilesX (calc bbox z))) as [|nx] eqn:Ex; [lia|].
  destruct (Z.to_nat (tilesY (calc bbox z))) as [|ny] eqn:Ey; [lia|].
  rewrite (zrange_S (y0 _)). cbn [flat_map]. rewrite (zrange_S (x0 _)).
  cbn [map app fetchTiles]. rewrite Hf.
  eexists; eexists; reflexivity.
Qed.

Ltac floor_is k :=
  repeat match goal with
         | |- context [Math_floor ?x] =>
             rewrite (Math_floor_unique x k) by (simpl; lra)
         end.

Lemma bboxUnit_tileCount (z : nat) :
  (1 <= z <= 6)%nat ->
  tilesX (calc bboxUnit z) = 1
  /\ 1 <= tilesY (calc bboxUnit z)
  /\ tileCount bboxUnit z <= maxTiles.
Proof.
  intros Hz.
  assert (Hy1 : 1 <= tilesY (calc bboxUnit z)) by (apply tilesY_ge_1; simpl; lra).
  assert (Hrow : 0 <= Math_floor (py (lonLatToWorldPx 0 1 z) / 256)).
  { replace 0 with (Math_floor 0) by (apply Math_floor_unique; simpl; lra).
    apply Math_floor_le. rewrite py_mercY.
    pose proof mercY_1 as Hm. pose proof PI_gt_3 as Hpi. pose proof (pow2_pos z) as Hn.
    assert (Hq : (0 <= mercY 1 / PI <= 1)%R).
    { assert (Hi : (0 < / PI)%R) by (apply Rinv_0_lt_compat; lra).
      assert (Hi3 : (/ PI < / 3)%R) by (apply Rinv_lt_contravar; lra).
      unfold Rdiv. split; nra. }
    assert (Hp : (0 <= (1 - mercY 1 / PI) / 2 * 2 ^ z)%R) by nra.
    lra. }
  unfold tileCount, maxTiles. revert Hy1 Hrow.
  rewrite tilesX_calc, tilesY_calc.
  cbn [bboxUnit minLng minLat maxLng maxLat].
  rewrite (py_mercY 1 0), mercY_0.
  cbn [lonLatToWorldPx px].
  destruct z as [|[|[|[|[|[|[|z]]]]]]]; try lia; clear Hz; simpl pow.
  - floor_is 1. lia.
  - floor_is 2. lia.
  - floor_is 4. lia.
  - floor_is 8. lia.
  - floor_is 16. lia.
  - floor_is 32. lia.
Qed.

Lemma attemptLoop_all_refused (left : nat) :
  forall z lastErr,
    (left <= z <= 6)%nat ->
    map att_zoom (fst (attemptLoop env404 bboxUnit false left z lastErr)) = countdown z left
    /\ (left <> 0%nat ->
        exists e, snd (attemptLoop env404 bboxUnit false left z lastErr) = Throw (Some e)).
Proof.
  induction left as [|l IH]; intros z lastErr Hz.
  - split; [reflexivity | intros H; contradiction].
  - destruct (bboxUnit_tileCount z) as (Hx & Hy & Hc); [lia|].
    destruct (attempt_refused env404 bboxUnit z 404 eq_refl (fun _ _ => eq_refl))
      as (issued & e & Ea); [lia | exact Hy |].
    cbn [attemptLoop]. rewrite (budget_fix bboxUnit z Hc), Ea.
    destruct z as [|z2]; [lia|].
    destruct (IH z2 (Some e)) as [IHz IHr]; [lia|].
    destruct (attemptLoop env404 bboxUnit false l z2 (Some e)) as [trace r] eqn:El.
    cbn [fst snd map att_zoom countdown Nat.pred] in *. split.
    + rewrite IHz. reflexivity.
    + intros _. destruct l as [|l'].
      * cbn [attemptLoop] in El. injection El as <- <-. exists e. reflexivity.
      * apply IHr. discriminate.
Qed.

(** C5, as stated, fails: asked for zoom 6 against a server that refuses
    every tile, the loader tries zooms 6, 5, 4, 3, 2, 1 and then rethrows
    the last error; zoom 0 is never attempted. *)
Lemma loader_gives_up_above_zoom_0 :
  (exists e, snd (loadBboxImageFromTiles env404 bboxUnit 6 false) = Throw (Some e))
  /\ map att_zoom (fst (loadBboxImageFromTiles env404 bboxUnit 6 false))
     = [6; 5; 4; 3; 2; 1]%nat.
Proof.
  unfold loadBboxImageFromTiles. rewrite initialZoom_int by lia.
  destruct (attemptLoop_all_refused 6 (Z.to_nat 6) None) as [Hz Hr]; [simpl; lia|].
  split; [apply Hr; discriminate | exact Hz].
Qed.

End MosaicProps.

(** ** Sorting *)

Section ArraySortProps.
Context {A : Type} (le : A -> A -> bool).
Hypothesis le_total : forall a b, le a b = false -> le b a = true.
Hypothesis le_trans : forall a b c, le a b = true -> le b c = true -> le a c = true.

Lemma insertSorted_perm (x : A) (l : list A) :
  Permutation (x :: l) (insertSorted le x l).
Proof.
  induction l as [|y l IH]; simpl; [apply Permutation_refl|].
  destruct (le x y); [apply Permutation_refl|].
  eapply Permutation_trans; [apply perm_swap|].
  apply perm_skip. exact IH.
Qed.

Lemma Array_sort_perm (l : list A) : Permutation l (Array_sort le l).
Proof.
  induction l as [|x l IH]; simpl; [constructor|].
  eapply Permutation_trans; [apply perm_skip, IH | apply insertSorted_perm].
Qed.

Lemma insertSorted_sorted (x : A) (l : list A) :
  StronglySorted (fun a b => le a b = true) l ->
  StronglySorted (fun a b => le a b = true) (insertSorted le x l).
Proof.
  induction 1 as [|y l Hs IH Hy]; simpl.
  - constructor; constructor.
  - destruct (le x y) eqn:E.
    + constructor; [constructor; assumption|].
      constructor; [exact E|].
      eapply Forall_impl; [|exact Hy]. intros b Hb. eapply le_trans; eassumption.
    + constructor; [exact IH|].
      eapply Permutation_Forall; [apply insertSorted_perm|].
      constructor; [apply le_total; exact E | exact Hy].
Qed.

Lemma Array_sort_sorted (l : list A) :
  StronglySorted (fun a b => le a b = true) (Array_sort le l).
Proof.
  induction l as [|x l IH]; simpl; [constructor|].
  apply insertSorted_sorted. exact IH.
Qed.

(** The first element of the sorted array is a least element of the input. *)
Lemma Array_sort_head (l : list A) (x : A) (rest : list A) :
  Array_sort le l = x :: rest ->
  In x l /\ forall y, In y l -> le x y = true.
Proof.
  intros E. pose proof (Array_sort_perm l) as P. pose proof (Array_sort_sorted l) as S.
  rewrite E in P, S. split.
  - eapply Permutation_in; [apply Permutation_sym, P | left; reflexivity].
  - intros y Hy. apply (Permutation_in _ P) in Hy.
    destruct Hy as [<- | Hy].
    + destruct (le x x) eqn:Exx; [reflexivity|].
      rewrite (le_total x x Exx) in Exx. discriminate Exx.
    + apply StronglySorted_inv in S. destruct S as [_ Hall].
      rewrite Forall_forall in Hall. apply Hall. exact Hy.
Qed.

End ArraySortProps.

Lemma Array_sort_nil {A : Type} (le : A -> A -> bool) (l : list A) :
  Array_sort le l = [] -> l = [].
Proof.
  destruct l as [|x l]; [reflexivity|]. simpl.
  generalize (Array_sort le l). intros s; destruct s as [|y s]; simpl;
    [discriminate | destruct (le x y); discriminate].
Qed.

(** ** Candidate selector *)

Module SelectorProps.
Import Selector.

Local Open Scope Z_scope.

Example parseUtcDateMs_epoch : parseUtcDateMs 1970 1 1 = 0.
Proof. reflexivity. Qed.

Example parseUtcDateMs_2024 : parseUtcDateMs 2024 1 1 = 1704067200000.
Proof. reflexivity. Qed.

(** With a window of one day nothing is near and the whole scored set is
    the pool. *)
Example pickClearest_fallback :
  pickClearest catalogue (parseUtcDateMs 2024 1 3) 1 = Some item0105.
Proof. vm_compute. reflexivity. Qed.

Section Closest.
Variable targetMs : Z.

Lemma closestStep_inv (pre : list StacFeature) (st : option StacFeature * option Z)
    (x : StacFeature) :
  closestInv targetMs pre st ->
  closestInv targetMs (pre ++ [x]) (closestStep targetMs st x).
Proof.
  unfold closestStep. destruct st as [[b|] [d|]]; simpl; try contradiction.
  - intros (p1 & p2 & ms & Epre & Hb & Hd & Hlt & Hle).
    destruct (datetimeMs x) as [ms'|] eqn:Ex.
    + destruct (Z.abs (ms' - targetMs) <? d) eqn:E.
      * apply Z.ltb_lt in E. simpl.
        exists pre, [], ms'. rewrite Ex. repeat split.
        -- intros g msg Hg Hdg. subst pre. apply in_app_or in Hg.
           destruct Hg as [Hg | [<- | Hg]].
           ++ specialize (Hlt g msg Hg Hdg). lia.
           ++ rewrite Hb in Hdg. injection Hdg as <-. lia.
           ++ specialize (Hle g msg Hg Hdg). lia.
        -- intros g msg [].
      * apply Z.ltb_ge in E. simpl.
        exists p1, (p2 ++ [x]), ms. repeat split; try assumption.
        -- rewrite Epre, <- app_assoc. reflexivity.
        -- intros g msg Hg Hdg. apply in_app_or in Hg.
           destruct Hg as [Hg | [<- | []]]; [eauto|].
           rewrite Ex in Hdg. injection Hdg as <-. lia.
    + simpl. exists p1, (p2 ++ [x]), ms. repeat split; try assumption.
      * rewrite Epre, <- app_assoc. reflexivity.
      * intros g msg Hg Hdg. apply in_app_or in Hg.
        destruct Hg as [Hg | [<- | []]]; [eauto | congruence].
  - intros Hnone. destruct (datetimeMs x) as [ms'|] eqn:Ex; simpl.
    + exists pre, [], ms'. repeat split; try assumption.
      * intros g msg Hg Hdg. rewrite (Hnone g Hg) in Hdg. discriminate.
      * intros g msg [].
    + intros g Hg. apply in_app_or in Hg.
      destruct Hg as [Hg | [<- | []]]; [auto | assumption].
Qed.

Lemma closestFold_inv (l : list StacFeature) :
  forall pre st,
    closestInv targetMs pre st ->
    closestInv targetMs (pre ++ l) (fold_left (closestStep targetMs) l st).
Proof.
  induction l as [|x l IH]; intros pre st H; simpl.
  - rewrite app_nil_r. exact H.
  - replace (pre ++ x :: l) with ((pre ++ [x]) ++ l) by (rewrite <- app_assoc; reflexivity).
    apply IH, closestStep_inv, H.
Qed.

End Closest.

(** C6: [pickClosest] returns nothing exactly when no item has a
    datetime; otherwise the item it returns has a datetime, every dated item
    before it in the list is strictly farther from the target and every
    dated item after it is at least as far, so it is the first item that
    minimises [|datetime - target|].  On the catalogue 2024-01-01 (cloud 80),
    2024-01-05 (cloud 5), 2024-01-10 (cloud 50) with target 2024-01-03 it
    returns the item of 2024-01-01. *)
Theorem pickClosest_first_minimum (features : list StacFeature) (targetMs : Z) :
  (pickClosest features targetMs = None
   <-> forall g, In g features -> datetimeMs g = None)
  /\ (forall best,
        pickClosest features targetMs = Some best ->
        exists pre post ms,
          features = pre ++ best :: post
          /\ datetimeMs best = Some ms
          /\ (forall g ms', In g pre -> datetimeMs g = Some ms' ->
                            Z.abs (ms - targetMs) < Z.abs (ms' - targetMs))
          /\ (forall g ms', In g post -> datetimeMs g = Some ms' ->
                            Z.abs (ms - targetMs) <= Z.abs (ms' - targetMs)))
  /\ pickClosest catalogue (parseUtcDateMs 2024 1 3) = Some item0101.
Proof.
  assert (Inv : closestInv targetMs features
                  (fold_left (closestStep targetMs) features (None, None))).
  { apply (closestFold_inv targetMs features [] (None, None)). intros g []. }
  unfold pickClosest.
  destruct (fold_left (closestStep targetMs) features (None, None)) as [[b|] [d|]];
    simpl in Inv; try contradiction; simpl fst.
  - destruct Inv as (p1 & p2 & ms & Ef & Hb & Hd & Hlt & Hle).
    split; [|split].
    + split; [discriminate|]. intros Hnone.
      rewrite (Hnone b) in Hb; [discriminate|].
      rewrite Ef. apply in_or_app. right. left. reflexivity.
    + intros best Hbest. injection Hbest as <-.
      exists p1, p2, ms. repeat split; assumption.
    + vm_compute. reflexivity.
  - split; [|split].
    + split; [intros _; exact Inv | reflexivity].
    + intros best Hbest. discriminate Hbest.
    + vm_compute. reflexivity.
Qed.

Lemma pickClosest_first_minimum_witness :
  exists pre post ms,
    catalogue = pre ++ item0101 :: post
    /\ datetimeMs item0101 = Some ms
    /\ (forall g ms', In g pre -> datetimeMs g = Some ms' ->
                      Z.abs (ms - parseUtcDateMs 2024 1 3)
                      < Z.abs (ms' - parseUtcDateMs 2024 1 3))
    /\ (forall g ms', In g post -> datetimeMs g = Some ms' ->
                      Z.abs (ms - parseUtcDateMs 2024 1 3)
                      <= Z.abs (ms' - parseUtcDateMs 2024 1 3)).
Proof.
  destruct (pickClosest_first_minimum catalogue (parseUtcDateMs 2024 1 3))
    as (_ & H & E).
  apply (H item0101 E).
Defined.

(** *** Clearest within window *)

Lemma leqClearest_lexLe (a b : Candidate) :
  leqClearest a b = true <-> lexLe (cloud a) (dtDays a) (cloud b) (dtDays b).
Proof.
  unfold leqClearest, clearestCmp, lexLe. rewrite Qle_bool_iff.
  destruct (Qeq_bool (cloud a - cloud b) 0) eqn:E.
  - apply Qeq_bool_iff in E. split.
    + intros H. right. split; Lqa.lra.
    + intros [H | [_ H]]; Lqa.lra.
  - apply Qeq_bool_neq in E. split.
    + intros H. left. apply Qnot_le_lt. intros Hle. apply E. Lqa.lra.
    + intros [H | [H _]]; Lqa.lra.
Qed.

Lemma leqClearest_total (a b : Candidate) :
  leqClearest a b = false -> leqClearest b a = true.
Proof.
  intros H. apply leqClearest_lexLe.
  assert (N : ~ lexLe (cloud a) (dtDays a) (cloud b) (dtDays b)).
  { intros L. apply leqClearest_lexLe in L. congruence. }
  unfold lexLe in *.
  destruct (Qlt_le_dec (cloud b) (cloud a)) as [Hlt | Hle]; [left; exact Hlt|].
  right. destruct (Qlt_le_dec (cloud a) (cloud b)) as [Hlt' | Hle'].
  - exfalso. apply N. left. exact Hlt'.
  - split; [Lqa.lra|].
    destruct (Qlt_le_dec (dtDays a) (dtDays b)) as [Hd | Hd]; [|exact Hd].
    exfalso. apply N. right. split; Lqa.lra.
Qed.

Lemma leqClearest_trans (a b c : Candidate) :
  leqClearest a b = true -> leqClearest b c = true -> leqClearest a c = true.
Proof.
  rewrite !leqClearest_lexLe. unfold lexLe.
  intros [H1 | [H1 H1']] [H2 | [H2 H2']].
  - left. Lqa.lra.
  - left. Lqa.lra.
  - left. Lqa.lra.
  - right. split; Lqa.lra.
Qed.

Lemma candidatesOf_in (features : list StacFeature) (targetMs : Z) (c : Candidate) :
  In c (candidatesOf features targetMs)
  <-> Scored features targetMs (f c) (cloud c) (dtDays c)
      /\ c = mkCandidate (f c) (cloud c) (dtDays c).
Proof.
  unfold candidatesOf, Scored. rewrite in_flat_map. split.
  - intros (g & Hg & Hc).
    destruct (datetimeMs g) as [ms|] eqn:Ems; [|destruct Hc].
    destruct (cloudCoverPct g) as [cl|] eqn:Ecl; [|destruct Hc].
    destruct Hc as [<- | []]. simpl. repeat split; [exact Hg|].
    exists ms. repeat split; assumption.
  - intros [(Hg & ms & Ems & Ecl & Ed) Ec]. exists (f c). split; [exact Hg|].
    rewrite Ems, Ecl. left. rewrite Ec. simpl. rewrite Ed. reflexivity.
Qed.

Lemma pickClearest_pool (features : list StacFeature) (targetMs : Z) (m : Q) :
  pickClearest features targetMs m
  = match Array_sort leqClearest (poolOf features targetMs m) with
    | [] => None
    | c :: _ => Some (f c)
    end.
Proof.
  unfold pickClearest, poolOf.
  destruct (filter _ (candidatesOf features targetMs)); reflexivity.
Qed.

Lemma poolOf_in (features : list StacFeature) (targetMs : Z) (m : Q) (c : Candidate) :
  In c (poolOf features targetMs m)
  <-> In c (candidatesOf features targetMs)
      /\ ((dtDays c <= m)%Q
          \/ forall c', In c' (candidatesOf features targetMs) -> ~ (dtDays c' <= m)%Q).
Proof.
  unfold poolOf.
  destruct (filter (fun c => Qle_bool (dtDays c) m) (candidatesOf features targetMs))
    as [|x near] eqn:E.
  - split.
    + intros Hc. split; [exact Hc|]. right. intros c' Hc' Hle.
      assert (Hin : In c' (filter (fun c => Qle_bool (dtDays c) m)
                                  (candidatesOf features targetMs))).
      { apply filter_In. split; [exact Hc' | apply Qle_bool_iff; exact Hle]. }
      rewrite E in Hin. destruct Hin.
    + intros [Hc _]. exact Hc.
  - rewrite <- E. rewrite filter_In, Qle_bool_iff. split.
    + intros [Hc Hle]. split; [exact Hc | left; exact Hle].
    + intros [Hc [Hle | Hnone]]; [split; assumption|].
      exfalso. assert (Hx : In x (x :: near)) by (left; reflexivity).
      rewrite <- E in Hx. apply filter_In in Hx. destruct Hx as [Hx Hxle].
      apply Qle_bool_iff in Hxle. exact (Hnone x Hx Hxle).
Qed.

(** The pool of the code is the set of eligible items of the design. *)
Lemma poolOf_eligible (features : list StacFeature) (targetMs : Z) (m : Q)
    (g : StacFeature) (cl d : Q) :
  Eligible features targetMs m g cl d
  <-> In (mkCandidate g cl d) (poolOf features targetMs m).
Proof.
  rewrite poolOf_in, candidatesOf_in. unfold Eligible. simpl. split.
  - intros [Hs Hw]. split; [split; [exact Hs | reflexivity]|].
    destruct Hw as [Hle | Hnone]; [left; exact Hle | right].
    intros c' Hc'. apply candidatesOf_in in Hc'. destruct Hc' as [Hs' _].
    exact (Hnone _ _ _ Hs').
  - intros [[Hs _] Hw]. split; [exact Hs|].
    destruct Hw as [Hle | Hnone]; [left; exact Hle | right].
    intros g' cl' d' Hs'. apply (Hnone (mkCandidate g' cl' d')).
    apply candidatesOf_in. simpl. split; [exact Hs' | reflexivity].
Qed.

Lemma candidatesOf_nil (features : list StacFeature) (targetMs : Z) :
  candidatesOf features targetMs = []
  <-> forall g, In g features -> datetimeMs g = None \/ cloudCoverPct g = None.
Proof.
  unfold candidatesOf. induction features as [|x l IH]; simpl.
  - split; [intros _ g [] | reflexivity].
  - split.
    + intros E. apply app_eq_nil in E. destruct E as [Ex El].
      intros g [<- | Hg]; [|apply IH; assumption].
      destruct (datetimeMs x); [|left; reflexivity].
      destruct (cloudCoverPct x); [discriminate Ex | right; reflexivity].
    + intros H. 
      assert (El : flat_map (fun f0 => match datetimeMs f0, cloudCoverPct f0 with
                                       | Some ms, Some cloud =>
                                           [mkCandidate f0 cloud (daysBetween ms targetMs)]
                                       | _, _ => []
                                       end) l = []).
      { apply IH. intros g Hg. apply H. right. exact Hg. }
      rewrite El, app_nil_r.
      destruct (H x (or_introl eq_refl)) as [E | E]; rewrite E; [reflexivity|].
      destruct (datetimeMs x); reflexivity.
Qed.



(** The window is compared with the binary64 day offset: eight hours are
    [0.3333333333333333] days as the quotient is rounded, so a window of
    that double keeps the item of 08:00 (cloud 50) and the item of
    2024-01-05 (cloud 5) stays out, although a third of a day is more
    than the window. *)
Example pickClearest_window_binary64 :
  pickClearest [itemEightHours; item0105] (parseUtcDateMs 2024 1 3) thirdOfADay
  = Some itemEightHours
  /\ (daysBetween (parseUtcDateMs 2024 1 3 + 28800000) (parseUtcDateMs 2024 1 3)
      == thirdOfADay)%Q
  /\ (thirdOfADay < 1 # 3)%Q.
Proof. split; [vm_compute; reflexivity | split; [vm_compute|]; reflexivity]. Qed.

(** The rounding is that of the machine on these quotients. *)
Example daysBetween_machine :
  (daysBetween 28800000 0 == Binary64.valueOf (28800000 / 86400000)%float)%Q
  /\ (daysBetween (parseUtcDateMs 2024 1 5) (parseUtcDateMs 2024 1 3)
      == Binary64.valueOf (172800000 / 86400000)%float)%Q
  /\ (daysBetween 123456789 0 == Binary64.valueOf (123456789 / 86400000)%float)%Q.
Proof. split; [|split]; vm_compute; reflexivity. Qed.

End SelectorProps.

(** ** Wayback timeline *)

Module WaybackProps.
Import Wayback.

Local Open Scope Z_scope.

Example Math_round_half_up : Math_round (5 # 2) = 3 /\ Math_round (- (5 # 2)) = -2.
Proof. split; reflexivity. Qed.

Example zoomOf_24 :
  zoomOf (mkBody (Projector.mkBBox 0 0 1 1) (JsNum (Finite 24)) JsUndefined) = 23.
Proof. reflexivity. Qed.

(** A probe that fails keeps its version out of the timeline. *)
Example buildTimeline_failed_probe :
  List.map id (available (fst (buildTimeline (fun _ => 0) 60
                                 [(v3, None); (v2, Some "H1"%string)])))
  = [2].
Proof. reflexivity. Qed.

(** *** The order on dates *)

Lemma ascii_compare_refl (a : ascii) : Ascii.compare a a = Eq.
Proof. unfold Ascii.compare. apply N.compare_refl. Qed.

Lemma string_compare_refl (s : string) : String.compare s s = Eq.
Proof.
  induction s as [|a s IH]; simpl; [reflexivity|].
  rewrite ascii_compare_refl. exact IH.
Qed.

Lemma string_compare_lt_trans (s1 : string) :
  forall s2 s3,
    String.compare s1 s2 = Lt -> String.compare s2 s3 = Lt -> String.compare s1 s3 = Lt.
Proof.
  induction s1 as [|a1 s1 IH]; intros [|a2 s2] [|a3 s3]; simpl;
    try discriminate; try reflexivity.
  destruct (Ascii.compare a1 a2) eqn:E12; try discriminate;
    destruct (Ascii.compare a2 a3) eqn:E23; try discriminate; intros H1 H2.
  - apply Ascii.compare_eq_iff in E12, E23. subst.
    rewrite ascii_compare_refl. eapply IH; eassumption.
  - apply Ascii.compare_eq_iff in E12. subst. rewrite E23. reflexivity.
  - apply Ascii.compare_eq_iff in E23. subst. rewrite E12. reflexivity.
  - unfold Ascii.compare in *. rewrite N.compare_lt_iff in *.
    assert (H : (N_of_ascii a1 < N_of_ascii a3)%N) by lia.
    apply N.compare_lt_iff in H. rewrite H. reflexivity.
Qed.

Lemma string_ltb_trans (s1 s2 s3 : string) :
  String.ltb s1 s2 = true -> String.ltb s2 s3 = true -> String.ltb s1 s3 = true.
Proof.
  unfold String.ltb. intros H1 H2.
  destruct (String.compare s1 s2) eqn:E1; try discriminate.
  destruct (String.compare s2 s3) eqn:E2; try discriminate.
  rewrite (string_compare_lt_trans _ _ _ E1 E2). reflexivity.
Qed.

Lemma string_ltb_irrefl (s : string) : String.ltb s s = false.
Proof. unfold String.ltb. rewrite string_compare_refl. reflexivity. Qed.

(** Neither before nor after: the same date. *)
Lemma string_ltb_neither (s1 s2 : string) :
  String.ltb s1 s2 = false -> String.ltb s2 s1 = false -> s1 = s2.
Proof.
  unfold String.ltb. rewrite (String.compare_antisym s2 s1). intros H1 H2.
  destruct (String.compare s1 s2) eqn:E; simpl in *; try discriminate.
  apply String.compare_eq_iff. exact E.
Qed.

Lemma leqOldest_olderOrSame (a b : WaybackOption) :
  leqOldest a b = true <-> olderOrSame a b.
Proof.
  unfold leqOldest, oldestFirst, olderOrSame.
  destruct (String.ltb (date a) (date b)) eqn:E1.
  - split; [intros _; left; reflexivity | reflexivity].
  - destruct (String.ltb (date b) (date a)) eqn:E2.
    + split; [discriminate|]. intros [H | [H _]]; [discriminate|].
      rewrite H, string_ltb_irrefl in E2. discriminate.
    + pose proof (string_ltb_neither _ _ E1 E2) as Ed.
      rewrite Z.leb_le. split.
      * intros H. right. split; [exact Ed | lia].
      * intros [H | [_ H]]; [discriminate | lia].
Qed.

Lemma leqOldest_total (a b : WaybackOption) :
  leqOldest a b = false -> leqOldest b a = true.
Proof.
  intros H. apply leqOldest_olderOrSame.
  assert (N : ~ olderOrSame a b).
  { intros L. apply leqOldest_olderOrSame in L. congruence. }
  unfold olderOrSame in *.
  destruct (String.ltb (date b) (date a)) eqn:E2; [left; reflexivity|].
  destruct (String.ltb (date a) (date b)) eqn:E1; [exfalso; apply N; left; reflexivity|].
  pose proof (string_ltb_neither _ _ E1 E2) as Ed.
  right. split; [symmetry; exact Ed|].
  destruct (Z_le_gt_dec (id a) (id b)) as [Hle | Hgt]; [|lia].
  exfalso. apply N. right. split; assumption.
Qed.

Lemma olderOrSame_trans (a b c : WaybackOption) :
  olderOrSame a b -> olderOrSame b c -> olderOrSame a c.
Proof.
  unfold olderOrSame. intros [H1 | [H1 H1']] [H2 | [H2 H2']].
  - left. eapply string_ltb_trans; eassumption.
  - left. rewrite <- H2. exact H1.
  - left. rewrite H1. exact H2.
  - right. split; [congruence | lia].
Qed.

Lemma leqOldest_trans (a b c : WaybackOption) :
  leqOldest a b = true -> leqOldest b c = true -> leqOldest a c = true.
Proof.
  rewrite !leqOldest_olderOrSame. apply olderOrSame_trans.
Qed.

Lemma olderOrSame_refl (a : WaybackOption) : olderOrSame a a.
Proof. right. split; [reflexivity | lia]. Qed.

(** *** Deduplication *)

Lemma firstOfEachHash_app (c r : list (WaybackOption * option string)) :
  forall s0,
    firstOfEachHash (c ++ r) s0
    = firstOfEachHash c s0 ++ firstOfEachHash r (seenOf c s0).
Proof.
  induction c as [|[v [h|]] c IH]; intros s0; simpl; [reflexivity| |apply IH].
  destruct (hasSeen h s0); [apply IH|]. simpl. rewrite IH. reflexivity.
Qed.

Lemma seenOf_app (c r : list (WaybackOption * option string)) :
  forall s0, seenOf (c ++ r) s0 = seenOf r (seenOf c s0).
Proof.
  induction c as [|[v [h|]] c IH]; intros s0; simpl; [reflexivity| |apply IH].
  destruct (hasSeen h s0); apply IH.
Qed.

Lemma probeInv_step (st : ProbeState) (v : WaybackOption) (hash : option string)
    (t : nat) :
  probeInv st ->
  probeInv
    (match hash with
     | Some h =>
         if hasSeen h (seen st)
         then mkProbeState (available st) (seen st) (S (deduped st)) (failed st)
                (S (probed st)) t (consumed st ++ [(v, hash)])
         else mkProbeState (available st ++ [v]) (h :: seen st) (deduped st) (failed st)
                (S (probed st)) t (consumed st ++ [(v, hash)])
     | None => mkProbeState (available st) (seen st) (deduped st) (S (failed st))
                 (S (probed st)) t (consumed st ++ [(v, hash)])
     end).
Proof.
  intros (Ha & Hs & Hp). unfold probeInv.
  destruct hash as [h|]; [destruct (hasSeen h (seen st)) eqn:E|];
    cbn [available seen probed consumed];
    rewrite firstOfEachHash_app, seenOf_app, length_app, <- Hs, <- Ha, <- Hp;
    cbn [firstOfEachHash seenOf List.length]; rewrite ?E, ?app_nil_r;
    repeat split; lia.
Qed.

Section Loops.
Variables (now : nat -> Z) (limit : Z).

Lemma consumeResults_inv (results : list (WaybackOption * option string)) :
  forall st, probeInv st -> probeInv (consumeResults now limit results st).
Proof.
  induction results as [|[v hash] rest IH]; intros st H; cbn [consumeResults];
    [exact H|].
  destruct (limit <=? Z.of_nat (List.length (available st))); [exact H|].
  pose proof (probeInv_step st v hash (tick st) H) as H1.
  pose proof (probeInv_step st v hash (S (tick st)) H) as H2.
  destruct hash as [h|].
  - destruct (hasSeen h (seen st)); [apply IH; exact H1|].
    cbn [probed tick available seen deduped failed consumed] in *.
    destruct (maxProbes <=? S (probed st))%nat; [exact H1|].
    destruct (now (tick st) - startedAt now >? maxProbeMs); [exact H2|].
    apply IH. exact H2.
  - cbn [probed tick available seen deduped failed consumed] in *.
    destruct (maxProbes <=? S (probed st))%nat; [exact H1|].
    destruct (now (tick st) - startedAt now >? maxProbeMs); [exact H2|].
    apply IH. exact H2.
Qed.

Lemma probeInv_tick (st : ProbeState) (t : nat) :
  probeInv st ->
  probeInv (mkProbeState (available st) (seen st) (deduped st) (failed st)
              (probed st) t (consumed st)).
Proof. intros H. exact H. Qed.

Lemma probeBatches_inv (batches : list (list (WaybackOption * option string))) :
  forall st, probeInv st -> probeInv (probeBatches now limit batches st).
Proof.
  induction batches as [|batch rest IH]; intros st H; cbn [probeBatches]; [exact H|].
  destruct (limit <=? Z.of_nat (List.length (available st))); [exact H|].
  destruct (maxProbes <=? probed st)%nat; [exact H|].
  destruct (now (tick st) - startedAt now >? maxProbeMs); [exact H|].
  apply IH, consumeResults_inv. exact H.
Qed.

End Loops.

Lemma slices_concat {A : Type} (fuel : nat) :
  forall l : list A, (List.length l <= fuel)%nat -> List.concat (slices fuel l) = l.
Proof.
  induction fuel as [|fuel IH]; intros l Hl.
  - destruct l; [reflexivity | simpl in Hl; lia].
  - destruct l as [|x l]; [reflexivity|].
    cbn [slices List.concat]. rewrite IH.
    + apply firstn_skipn.
    + rewrite length_skipn. unfold batchSize. simpl List.length in *. lia.
Qed.

(** *** When no budget runs out *)

Section WithinBudget.
Variables (now : nat -> Z) (limit : Z).
Variable versions : list (WaybackOption * option string).
Hypothesis clock_ok : forall k, now k - now 0%nat <= maxProbeMs.
Hypothesis probes_ok : (List.length versions <= maxProbes)%nat.
Hypothesis limit_ok : Z.of_nat (List.length (firstOfEachHash versions [])) <= limit.

Let kept := firstOfEachHash versions [].

Lemma clock_check (k : nat) : (now k - startedAt now >? maxProbeMs) = false.
Proof. unfold startedAt. pose proof (clock_ok k). lia. Qed.

(** Once [limit] versions are kept there is nothing left to find. *)
Lemma limit_reached (st : ProbeState) (rest : list (WaybackOption * option string)) :
  probeInv st -> consumed st ++ rest = versions ->
  limit <= Z.of_nat (List.length (available st)) ->
  available st = kept.
Proof.
  intros (Ha & _ & _) Hv Hl. unfold kept. pose proof limit_ok as Hk.
  rewrite <- Hv, firstOfEachHash_app, <- Ha in *. rewrite length_app in Hk.
  destruct (firstOfEachHash rest (seenOf (consumed st) [])) as [|x l];
    [rewrite app_nil_r; reflexivity | simpl in Hk; lia].
Qed.

Lemma consumeResults_within (results : list (WaybackOption * option string)) :
  forall st future,
    probeInv st -> consumed st ++ results ++ future = versions ->
    consumed (consumeResults now limit results st) = consumed st ++ results
    \/ finished limit kept (consumeResults now limit results st).
Proof.
  induction results as [|[v hash] rest IH]; intros st future H Hv; cbn [consumeResults].
  - left. rewrite app_nil_r. reflexivity.
  - destruct (limit <=? Z.of_nat (List.length (available st))) eqn:El.
    + right. apply Z.leb_le in El. split; [|left; exact El].
      eapply limit_reached; eassumption.
    + pose proof (probeInv_step st v hash (tick st) H) as H1.
      pose proof (probeInv_step st v hash (S (tick st)) H) as H2.
      assert (Hv' : (consumed st ++ [(v, hash)]) ++ rest ++ future = versions).
      { rewrite <- app_assoc. exact Hv. }
      assert (Hfull : (maxProbes <= S (probed st))%nat -> rest = []).
      { intros Hp. destruct H as (_ & _ & Hpr). pose proof probes_ok as Hlen.
        rewrite <- Hv, !length_app in Hlen. destruct rest; [reflexivity|].
        simpl in Hlen. lia. }
      destruct hash as [h|].
      * destruct (hasSeen h (seen st)).
        -- destruct (IH _ future H1 Hv') as [E | F]; [left | right; exact F].
           rewrite E. cbn [consumed]. rewrite <- app_assoc. reflexivity.
        -- cbn [probed tick available seen deduped failed consumed] in *.
           destruct (maxProbes <=? S (probed st))%nat eqn:Ep.
           ++ apply Nat.leb_le in Ep. rewrite (Hfull Ep). left. reflexivity.
           ++ rewrite clock_check.
              destruct (IH _ future H2 Hv') as [E | F]; [left | right; exact F].
              rewrite E. cbn [consumed]. rewrite <- app_assoc. reflexivity.
      * cbn [probed tick available seen deduped failed consumed] in *.
        destruct (maxProbes <=? S (probed st))%nat eqn:Ep.
        -- apply Nat.leb_le in Ep. rewrite (Hfull Ep). left. reflexivity.
        -- rewrite clock_check.
           destruct (IH _ future H2 Hv') as [E | F]; [left | right; exact F].
           rewrite E. cbn [consumed]. rewrite <- app_assoc. reflexivity.
Qed.

Lemma probeBatches_within (batches : list (list (WaybackOption * option string))) :
  forall st,
    (probeInv st /\ consumed st ++ List.concat batches = versions)
    \/ finished limit kept st ->
    available (probeBatches now limit batches st) = kept.
Proof.
  induction batches as [|batch rest IH]; intros st H; cbn [probeBatches].
  - destruct H as [[(Ha & _) Hv] | [F _]]; [|exact F].
    simpl in Hv. rewrite app_nil_r in Hv. unfold kept. rewrite <- Hv. exact Ha.
  - destruct H as [[Hi Hv] | [F Hstop]].
    + destruct (limit <=? Z.of_nat (List.length (available st))) eqn:El.
      { apply Z.leb_le in El. eapply limit_reached; eassumption. }
      destruct (maxProbes <=? probed st)%nat eqn:Ep.
      { apply Nat.leb_le in Ep. destruct Hi as (Ha & _ & Hpr).
        pose proof probes_ok as Hlen. rewrite <- Hv, length_app in Hlen.
        assert (Hnil : List.concat (batch :: rest) = []).
        { destruct (List.concat (batch :: rest)); [reflexivity | simpl in Hlen; lia]. }
        rewrite Hnil, app_nil_r in Hv. unfold kept. rewrite <- Hv. exact Ha. }
      rewrite clock_check. apply IH.
      pose proof (probeInv_tick st (S (tick st)) Hi) as Hi'.
      cbn [List.concat] in Hv.
      destruct (consumeResults_within batch _ (List.concat rest) Hi' Hv) as [E | F].
      * left. split; [apply consumeResults_inv; exact Hi'|].
        rewrite E. cbn [consumed]. rewrite <- app_assoc. exact Hv.
      * right. exact F.
    + destruct Hstop as [Hl | Hp].
      * apply Z.leb_le in Hl. rewrite Hl. exact F.
      * apply Nat.leb_le in Hp. rewrite Hp.
        destruct (limit <=? Z.of_nat (List.length (available st))); exact F.
Qed.

(** With time, probes and limit to spare, the loop keeps the first version
    of every hash and nothing else. *)
Lemma buildTimeline_within :
  available (fst (buildTimeline now limit versions)) = kept.
Proof.
  assert (H : available (probeBatches now limit
                           (slices (List.length versions) versions)
                           (mkProbeState [] [] 0 0 0 1 [])) = kept).
  { apply probeBatches_within. left. split.
    - repeat split.
    - cbn [consumed app]. apply slices_concat. lia. }
  unfold buildTimeline.
  destruct (available (probeBatches now limit (slices (List.length versions) versions)
                         (mkProbeState [] [] 0 0 0 1 []))) eqn:E;
    cbn [fst]; rewrite E; exact H.
Qed.

End WithinBudget.

(** *** The timeline *)

Lemma StronglySorted_weaken {A : Type} (R R' : A -> A -> Prop) (l : list A) :
  (forall a b, R a b -> R' a b) -> StronglySorted R l -> StronglySorted R' l.
Proof.
  intros HR. induction 1 as [|x l Hs IH Hx]; constructor; [exact IH|].
  eapply Forall_impl; [|exact Hx]. intros b. apply HR.
Qed.

(** In a sorted list nothing comes after the last element. *)
Lemma sorted_last {A : Type} (R : A -> A -> Prop) (d : A) (l : list A) :
  (forall a, R a a) -> StronglySorted R l ->
  forall v, In v l -> R v (nth (List.length l - 1) l d).
Proof.
  intros Hrefl. induction 1 as [|x l Hs IH Hx]; intros v Hv; [destruct Hv|].
  destruct l as [|y l].
  - destruct Hv as [<- | []]. simpl. apply Hrefl.
  - replace (nth (List.length (x :: y :: l) - 1) (x :: y :: l) d)
      with (nth (List.length (y :: l) - 1) (y :: l) d)
      by (simpl; rewrite Nat.sub_0_r; reflexivity).
    destruct Hv as [<- | Hv]; [|apply IH; exact Hv].
    rewrite Forall_forall in Hx. apply Hx. apply nth_In. simpl. lia.
Qed.

(** *** Request parameters *)

Lemma clampedParam_range (v : JsValue) (lo hi dflt : Z) :
  lo <= hi -> lo <= dflt <= hi -> lo <= clampedParam v lo hi dflt <= hi.
Proof.
  intros Hlh Hd. unfold clampedParam.
  destruct v as [| | | |[q| |]]; lia.
Qed.

End WaybackProps.

(** ** binary64 rounding *)

Module Binary64Props.
Import Diff Binary64.

Local Open Scope Z_scope.

Lemma roundHalfEven_between (q : Q) (lo hi : Z) :
  (inject_Z lo <= q)%Q -> (q <= inject_Z hi)%Q ->
  (lo <= roundHalfEven q <= hi)%Z.
Proof.
  intros Hlo Hhi. unfold roundHalfEven. cbv zeta.
  pose proof (Qfloor_le q) as Hf. pose proof (Qlt_floor q) as Hc.
  assert (H1 : (lo <= Qfloor q)%Z).
  { rewrite <- (Qfloor_Z lo). apply Qfloor_resp_le. exact Hlo. }
  assert (H2 : (Qfloor q <= hi)%Z).
  { rewrite <- (Qfloor_Z hi). apply Qfloor_resp_le. exact Hhi. }
  assert (H3 : (inject_Z (Qfloor q) < q)%Q -> (Qfloor q + 1 <= hi)%Z).
  { intros Hlt. assert (H : (inject_Z (Qfloor q) < inject_Z hi)%Q) by Lqa.lra.
    rewrite <- Zlt_Qlt in H. lia. }
  destruct (q - inject_Z (Qfloor q) ?= 1 # 2)%Q eqn:E.
  - apply Qeq_alt in E. destruct (Z.even (Qfloor q)); [lia|].
    assert (Hlt : (inject_Z (Qfloor q) < q)%Q) by Lqa.lra.
    specialize (H3 Hlt). lia.
  - lia.
  - apply Qgt_alt in E.
    assert (Hlt : (inject_Z (Qfloor q) < q)%Q) by Lqa.lra.
    specialize (H3 Hlt). lia.
Qed.

Lemma roundHalfEven_Z (k : Z) : roundHalfEven (inject_Z k) = k.
Proof.
  pose proof (roundHalfEven_between (inject_Z k) k k) as H.
  assert (Hk : (inject_Z k <= inject_Z k)%Q) by apply Qle_refl.
  specialize (H Hk Hk). lia.
Qed.

Lemma roundHalfEven_comp (q1 q2 : Q) :
  (q1 == q2)%Q -> roundHalfEven q1 = roundHalfEven q2.
Proof.
  intros E. unfold roundHalfEven. cbv zeta.
  rewrite (Qfloor_comp _ _ E).
  assert (E' : (q1 - inject_Z (Qfloor q2) == q2 - inject_Z (Qfloor q2))%Q)
    by (rewrite E; reflexivity).
  rewrite (Qcompare_comp _ _ E' (1 # 2) (1 # 2) (Qeq_refl _)). reflexivity.
Qed.

(** Rounding to the nearest integer keeps the order. *)
Lemma roundHalfEven_mono (q1 q2 : Q) :
  (q1 <= q2)%Q -> roundHalfEven q1 <= roundHalfEven q2.
Proof.
  intros Hle.
  pose proof (Qfloor_resp_le _ _ Hle) as Hf.
  destruct (Z.eq_dec (Qfloor q1) (Qfloor q2)) as [E | N].
  - unfold roundHalfEven. cbv zeta. rewrite E.
    destruct (q1 - inject_Z (Qfloor q2) ?= 1 # 2)%Q eqn:E1;
      destruct (q2 - inject_Z (Qfloor q2) ?= 1 # 2)%Q eqn:E2;
      try (destruct (Z.even (Qfloor q2))); try lia; exfalso;
      first [apply Qeq_alt in E1 | apply Qlt_alt in E1 | apply Qgt_alt in E1];
      first [apply Qeq_alt in E2 | apply Qlt_alt in E2 | apply Qgt_alt in E2];
      Lqa.lra.
  - assert (H1 : roundHalfEven q1 <= Qfloor q1 + 1).
    { apply roundHalfEven_between with (lo := Qfloor q1).
      - apply Qfloor_le.
      - apply Qlt_le_weak, Qlt_floor. }
    assert (H2 : Qfloor q2 <= roundHalfEven q2).
    { apply roundHalfEven_between with (hi := Qfloor q2 + 1).
      - apply Qfloor_le.
      - apply Qlt_le_weak, Qlt_floor. }
    lia.
Qed.


Lemma roundHalfEven_ge (q : Q) (lo : Z) :
  (inject_Z lo <= q)%Q -> lo <= roundHalfEven q.
Proof.
  intros H. apply (roundHalfEven_between q lo (Qfloor q + 1)); [exact H|].
  apply Qlt_le_weak, Qlt_floor.
Qed.

Lemma roundHalfEven_le (q : Q) (hi : Z) :
  (q <= inject_Z hi)%Q -> roundHalfEven q <= hi.
Proof.
  intros H. apply (roundHalfEven_between q (Qfloor q) hi); [apply Qfloor_le | exact H].
Qed.

Lemma pow2_Qpos (u : Z) : 0 <= u -> (0 < inject_Z (2 ^ u))%Q.
Proof.
  intros Hu. change 0%Q with (inject_Z 0). rewrite <- Zlt_Qlt.
  apply Z.pow_pos_nonneg; lia.
Qed.

Lemma div_pow2_le (x : Q) (a b : Z) :
  0 <= a -> 0 <= b ->
  (x <= inject_Z (2 ^ (a + b)))%Q -> (x / inject_Z (2 ^ b) <= inject_Z (2 ^ a))%Q.
Proof.
  intros Ha Hb H. apply Qle_shift_div_r; [apply pow2_Qpos; exact Hb|].
  rewrite <- inject_Z_mult, <- Z.pow_add_r by assumption. exact H.
Qed.

Lemma div_pow2_ge (x : Q) (a b : Z) :
  0 <= a -> 0 <= b ->
  (inject_Z (2 ^ (a + b)) <= x)%Q -> (inject_Z (2 ^ a) <= x / inject_Z (2 ^ b))%Q.
Proof.
  intros Ha Hb H. apply Qle_shift_div_l; [apply pow2_Qpos; exact Hb|].
  rewrite <- inject_Z_mult, <- Z.pow_add_r by assumption. exact H.
Qed.

(** What [round53] sees of a number of at least [2^53] quanta: its
    binade. *)
Lemma binade_bounds (x : Q) :
  2 ^ 53 <= Qfloor x ->
  let u := Z.log2 (Qfloor x) - 52 in
  1 <= u
  /\ (inject_Z (2 ^ (52 + u)) <= x)%Q
  /\ (x <= inject_Z (2 ^ (53 + u)))%Q.
Proof.
  intros Hf. cbv zeta.
  assert (Hpos : 0 < Qfloor x) by (pose proof (Z.pow_pos_nonneg 2 53); lia).
  assert (Hl : 53 <= Z.log2 (Qfloor x)) by (apply Z.log2_le_pow2; assumption).
  pose proof (Z.log2_spec _ Hpos) as [S1 S2].
  split; [lia|].
  replace (52 + (Z.log2 (Qfloor x) - 52)) with (Z.log2 (Qfloor x)) by lia.
  replace (53 + (Z.log2 (Qfloor x) - 52)) with (Z.succ (Z.log2 (Qfloor x))) by lia.
  split.
  - apply Qle_trans with (inject_Z (Qfloor x)); [|apply Qfloor_le].
    rewrite <- Zle_Qle. exact S1.
  - apply Qle_trans with (inject_Z (Qfloor x + 1));
      [apply Qlt_le_weak, Qlt_floor|].
    rewrite <- Zle_Qle. lia.
Qed.

(** The mantissa of a number of at least [2^53] quanta. *)
Lemma mantissa_bounds (x : Q) :
  2 ^ 53 <= Qfloor x ->
  let u := Z.log2 (Qfloor x) - 52 in
  2 ^ 52 <= roundHalfEven (x / inject_Z (2 ^ u)) <= 2 ^ 53.
Proof.
  intros Hf. destruct (binade_bounds x Hf) as (Hu & Hlo & Hhi). cbv zeta in *.
  split.
  - apply roundHalfEven_ge, div_pow2_ge; [lia | lia | exact Hlo].
  - apply roundHalfEven_le, div_pow2_le; [lia | lia | exact Hhi].
Qed.

Lemma round53_nonneg (x : Q) : (0 <= x)%Q -> 0 <= round53 x.
Proof.
  intros H. unfold round53. cbv zeta.
  destruct (Qfloor x <? 2 ^ 53) eqn:E.
  - apply roundHalfEven_ge. exact H.
  - apply Z.ltb_ge in E. pose proof (mantissa_bounds x E) as [Hm _]. cbv zeta in Hm.
    apply Z.mul_nonneg_nonneg; [lia|]. apply Z.pow_nonneg. lia.
Qed.

(** Rounding to 53 bits keeps the order. *)
Lemma round53_mono (x1 x2 : Q) :
  (0 <= x1)%Q -> (x1 <= x2)%Q -> round53 x1 <= round53 x2.
Proof.
  intros H0 Hle. unfold round53. cbv zeta.
  pose proof (Qfloor_resp_le _ _ Hle) as Hf.
  destruct (Qfloor x1 <? 2 ^ 53) eqn:E1; destruct (Qfloor x2 <? 2 ^ 53) eqn:E2.
  - apply roundHalfEven_mono. exact Hle.
  - apply Z.ltb_lt in E1. apply Z.ltb_ge in E2.
    assert (H1 : roundHalfEven x1 <= 2 ^ 53).
    { apply roundHalfEven_le.
      apply Qle_trans with (inject_Z (Qfloor x1 + 1));
        [apply Qlt_le_weak, Qlt_floor|].
      rewrite <- Zle_Qle. lia. }
    destruct (binade_bounds x2 E2) as (Hu & _). cbv zeta in Hu.
    pose proof (mantissa_bounds x2 E2) as [Hm _]. cbv zeta in Hm.
    set (u := Z.log2 (Qfloor x2) - 52) in *.
    set (m := roundHalfEven (x2 / inject_Z (2 ^ u))) in *.
    assert (Hp : 2 <= 2 ^ u).
    { change 2 with (2 ^ 1) at 1. apply Z.pow_le_mono_r; lia. }
    assert (E53 : 2 ^ 53 = 2 * 2 ^ 52) by reflexivity.
    nia.
  - apply Z.ltb_ge in E1. apply Z.ltb_lt in E2. lia.
  - apply Z.ltb_ge in E1. apply Z.ltb_ge in E2.
    assert (Hp1 : 0 < Qfloor x1) by (pose proof (Z.pow_pos_nonneg 2 53); lia).
    pose proof (Z.log2_le_mono _ _ Hf) as Hl.
    destruct (binade_bounds x1 E1) as (Hu1 & Hlo1 & Hhi1).
    destruct (binade_bounds x2 E2) as (Hu2 & Hlo2 & Hhi2).
    pose proof (mantissa_bounds x1 E1) as [Hm1 Hm1'].
    pose proof (mantissa_bounds x2 E2) as [Hm2 Hm2'].
    cbv zeta in *.
    set (u1 := Z.log2 (Qfloor x1) - 52) in *.
    set (u2 := Z.log2 (Qfloor x2) - 52) in *.
    destruct (Z.eq_dec u1 u2) as [Eu | Nu].
    + rewrite Eu. apply Z.mul_le_mono_nonneg_r; [apply Z.pow_nonneg; lia|].
      apply roundHalfEven_mono. apply Qmult_le_compat_r; [exact Hle|].
      apply Qlt_le_weak, Qinv_lt_0_compat, pow2_Qpos. lia.
    + assert (Hlt : u1 + 1 <= u2) by lia.
      set (m1 := roundHalfEven (x1 / inject_Z (2 ^ u1))) in *.
      set (m2 := roundHalfEven (x2 / inject_Z (2 ^ u2))) in *.
      assert (Hp : 2 * 2 ^ u1 <= 2 ^ u2).
      { replace (2 * 2 ^ u1) with (2 ^ (u1 + 1))
          by (rewrite Z.pow_add_r by lia; lia).
        apply Z.pow_le_mono_r; lia. }
      assert (Hq : 0 < 2 ^ u1) by (apply Z.pow_pos_nonneg; lia).
      assert (E53 : 2 ^ 53 = 2 * 2 ^ 52) by reflexivity.
      nia.
Qed.

(** A number with a mantissa of at most 53 bits is its own rounding. *)
Lemma round53_fix (m u : Z) :
  0 <= m < 2 ^ 53 -> 0 <= u -> round53 (inject_Z (m * 2 ^ u)) = m * 2 ^ u.
Proof.
  intros Hm Hu. unfold round53. cbv zeta. rewrite Qfloor_Z.
  destruct (m * 2 ^ u <? 2 ^ 53) eqn:E; [apply roundHalfEven_Z|].
  apply Z.ltb_ge in E.
  assert (Hp : 0 < 2 ^ u) by (apply Z.pow_pos_nonneg; lia).
  assert (Hm0 : 0 < m) by nia.
  assert (Hl : Z.log2 m < 53) by (apply Z.log2_lt_pow2; lia).
  pose proof (Z.log2_nonneg m) as Hl0.
  assert (El : Z.log2 (m * 2 ^ u) = u + Z.log2 m) by (apply Z.log2_mul_pow2; lia).
  assert (Hl' : 53 <= Z.log2 (m * 2 ^ u)) by (apply Z.log2_le_pow2; [nia | exact E]).
  rewrite El in *.
  set (U := u + Z.log2 m - 52).
  assert (HU : 1 <= U <= u) by (unfold U; lia).
  assert (Es : m * 2 ^ u = m * 2 ^ (u - U) * 2 ^ U).
  { rewrite <- Z.mul_assoc, <- Z.pow_add_r by lia. do 2 f_equal. lia. }
  assert (Eq : (inject_Z (m * 2 ^ u) / inject_Z (2 ^ U) == inject_Z (m * 2 ^ (u - U)))%Q).
  { rewrite Es at 1. rewrite inject_Z_mult. apply Qdiv_mult_l.
    intros Hz. pose proof (pow2_Qpos U ltac:(lia)) as Hp'. rewrite Hz in Hp'.
    discriminate Hp'. }
  rewrite (roundHalfEven_comp _ _ Eq), roundHalfEven_Z. symmetry. exact Es.
Qed.

(** *** [RN] *)

Lemma quantum_eq : quantum = 2 ^ 1074.
Proof. reflexivity. Qed.

Lemma quantum_pos : (0 < inject_Z quantum)%Q.
Proof. rewrite quantum_eq. apply (pow2_Qpos 1074). lia. Qed.

Lemma round53_comp (x1 x2 : Q) : (x1 == x2)%Q -> round53 x1 = round53 x2.
Proof.
  intros E. unfold round53. cbv zeta. rewrite (Qfloor_comp _ _ E).
  destruct (Qfloor x2 <? 2 ^ 53); [apply roundHalfEven_comp; exact E|].
  f_equal. apply roundHalfEven_comp. rewrite E. reflexivity.
Qed.

Lemma RN_comp (q1 q2 : Q) : (q1 == q2)%Q -> (RN q1 == RN q2)%Q.
Proof.
  intros E. unfold RN.
  assert (Eb : Qle_bool 0 q1 = Qle_bool 0 q2).
  { destruct (Qle_bool 0 q1) eqn:E1; destruct (Qle_bool 0 q2) eqn:E2; try reflexivity.
    - apply Qle_bool_iff in E1. rewrite E in E1. apply Qle_bool_iff in E1. congruence.
    - apply Qle_bool_iff in E2. rewrite <- E in E2. apply Qle_bool_iff in E2. congruence. }
  rewrite Eb. destruct (Qle_bool 0 q2).
  - rewrite (round53_comp (q1 * inject_Z quantum) (q2 * inject_Z quantum))
      by (rewrite E; reflexivity). reflexivity.
  - rewrite (round53_comp (- q1 * inject_Z quantum) (- q2 * inject_Z quantum))
      by (rewrite E; reflexivity). reflexivity.
Qed.

Lemma RN_nonneg (q : Q) : (0 <= q)%Q -> (0 <= RN q)%Q.
Proof.
  intros H. unfold RN. apply Qle_bool_iff in H. rewrite H. apply Qle_bool_iff in H.
  pose proof quantum_pos as Hq.
  apply Qle_shift_div_l; [exact Hq|]. rewrite Qmult_0_l.
  change 0%Q with (inject_Z 0). rewrite <- Zle_Qle. apply round53_nonneg.
  apply Qmult_le_0_compat; [exact H | apply Qlt_le_weak; exact Hq].
Qed.

Lemma RN_nonpos (q : Q) : (q <= 0)%Q -> (RN q <= 0)%Q.
Proof.
  intros H. unfold RN. pose proof quantum_pos as Hq.
  destruct (Qle_bool 0 q) eqn:E.
  - apply Qle_bool_iff in E. assert (E0 : (q == 0)%Q) by Lqa.lra.
    rewrite (round53_comp _ 0) by (rewrite E0; apply Qmult_0_l).
    change (round53 0) with 0. unfold Qdiv. rewrite Qmult_0_l. apply Qle_refl.
  - assert (Hr : (0 <= inject_Z (round53 (- q * inject_Z quantum)) / inject_Z quantum)%Q).
    { apply Qle_shift_div_l; [exact Hq|]. rewrite Qmult_0_l.
      change 0%Q with (inject_Z 0). rewrite <- Zle_Qle. apply round53_nonneg.
      apply Qmult_le_0_compat; [Lqa.lra | apply Qlt_le_weak; exact Hq]. }
    Lqa.lra.
Qed.

(** Rounding to the nearest double keeps the order. *)
Lemma RN_mono (q1 q2 : Q) : (q1 <= q2)%Q -> (RN q1 <= RN q2)%Q.
Proof.
  intros Hle. pose proof quantum_pos as Hq.
  destruct (Qlt_le_dec q1 0) as [N1 | P1]; destruct (Qlt_le_dec q2 0) as [N2 | P2].
  - unfold RN.
    replace (Qle_bool 0 q1) with false
      by (symmetry; apply not_true_is_false; intros H; apply Qle_bool_iff in H; Lqa.lra).
    replace (Qle_bool 0 q2) with false
      by (symmetry; apply not_true_is_false; intros H; apply Qle_bool_iff in H; Lqa.lra).
    apply Qopp_le_compat. unfold Qdiv. apply Qmult_le_compat_r;
      [|apply Qlt_le_weak, Qinv_lt_0_compat; exact Hq].
    rewrite <- Zle_Qle. apply round53_mono.
    + apply Qmult_le_0_compat; [Lqa.lra | apply Qlt_le_weak; exact Hq].
    + apply Qmult_le_compat_r; [Lqa.lra | apply Qlt_le_weak; exact Hq].
  - apply Qle_trans with 0%Q; [apply RN_nonpos; Lqa.lra | apply RN_nonneg; exact P2].
  - exfalso. Lqa.lra.
  - unfold RN.
    replace (Qle_bool 0 q1) with true by (symmetry; apply Qle_bool_iff; exact P1).
    replace (Qle_bool 0 q2) with true by (symmetry; apply Qle_bool_iff; exact P2).
    unfold Qdiv. apply Qmult_le_compat_r;
      [|apply Qlt_le_weak, Qinv_lt_0_compat; exact Hq].
    rewrite <- Zle_Qle. apply round53_mono.
    + apply Qmult_le_0_compat; [exact P1 | apply Qlt_le_weak; exact Hq].
    + apply Qmult_le_compat_r; [exact Hle | apply Qlt_le_weak; exact Hq].
Qed.

(** Integers of at most 53 bits are doubles. *)
Lemma RN_Z (k : Z) : Z.abs k < 2 ^ 53 -> (RN (inject_Z k) == inject_Z k)%Q.
Proof.
  intros Hk. pose proof quantum_pos as Hq. unfold RN.
  assert (Hnz : ~ (inject_Z quantum == 0)%Q) by (intros Hz; rewrite Hz in Hq; discriminate Hq).
  destruct (Qle_bool 0 (inject_Z k)) eqn:E.
  - apply Qle_bool_iff in E. change 0%Q with (inject_Z 0) in E. rewrite <- Zle_Qle in E.
    rewrite (round53_comp _ (inject_Z (k * 2 ^ 1074)))
      by (rewrite inject_Z_mult, quantum_eq; reflexivity).
    rewrite round53_fix by lia. rewrite inject_Z_mult, <- quantum_eq.
    apply Qdiv_mult_l. exact Hnz.
  - assert (Hneg : k < 0).
    { destruct (Z_lt_le_dec k 0) as [H | H]; [exact H|]. exfalso.
      assert (H' : Qle_bool 0 (inject_Z k) = true).
      { apply Qle_bool_iff. change 0%Q with (inject_Z 0). rewrite <- Zle_Qle. exact H. }
      congruence. }
    rewrite (round53_comp _ (inject_Z ((- k) * 2 ^ 1074)))
      by (rewrite inject_Z_mult, inject_Z_opp, quantum_eq; reflexivity).
    rewrite round53_fix by lia. rewrite inject_Z_mult, inject_Z_opp, <- quantum_eq.
    field. exact Hnz.
Qed.

(** So are the multiples of [2^-j] with a numerator of at most 53 bits. *)
Lemma RN_dyadic (m j : Z) :
  Z.abs m < 2 ^ 53 -> 0 <= j <= 1074 ->
  (RN (inject_Z m / inject_Z (2 ^ j)) == inject_Z m / inject_Z (2 ^ j))%Q.
Proof.
  intros Hm Hj. pose proof quantum_pos as Hq. pose proof (pow2_Qpos j (proj1 Hj)) as Hpj.
  assert (Hnz : ~ (inject_Z quantum == 0)%Q) by (intros Hz; rewrite Hz in Hq; discriminate Hq).
  assert (Hnj : ~ (inject_Z (2 ^ j) == 0)%Q) by (intros Hz; rewrite Hz in Hpj; discriminate Hpj).
  assert (Es : quantum = 2 ^ (1074 - j) * 2 ^ j).
  { rewrite quantum_eq, <- Z.pow_add_r by lia. f_equal. lia. }
  assert (Esc : forall n, (inject_Z n / inject_Z (2 ^ j) * inject_Z quantum
                           == inject_Z (n * 2 ^ (1074 - j)))%Q).
  { intros n. rewrite Es, !inject_Z_mult. field. exact Hnj. }
  unfold RN.
  destruct (Qle_bool 0 (inject_Z m / inject_Z (2 ^ j))) eqn:E.
  - apply Qle_bool_iff in E.
    assert (H0 : 0 <= m).
    { destruct (Z_lt_le_dec m 0) as [H | H]; [|exact H]. exfalso.
      assert (Hneg : (inject_Z m / inject_Z (2 ^ j) < 0)%Q).
      { apply Qlt_shift_div_r; [exact Hpj|]. rewrite Qmult_0_l.
        change 0%Q with (inject_Z 0). rewrite <- Zlt_Qlt. exact H. }
      Lqa.lra. }
    rewrite (round53_comp _ _ (Esc m)), round53_fix by lia.
    rewrite Es, !inject_Z_mult. field. split; [exact Hnj|].
    intros Hz. pose proof (pow2_Qpos (1074 - j) ltac:(lia)) as Hp. rewrite Hz in Hp.
    discriminate Hp.
  - assert (H0 : m < 0).
    { destruct (Z_lt_le_dec m 0) as [H | H]; [exact H|]. exfalso.
      assert (Hpos : Qle_bool 0 (inject_Z m / inject_Z (2 ^ j)) = true).
      { apply Qle_bool_iff. apply Qle_shift_div_l; [exact Hpj|]. rewrite Qmult_0_l.
        change 0%Q with (inject_Z 0). rewrite <- Zle_Qle. exact H. }
      congruence. }
    assert (Esc' : (- (inject_Z m / inject_Z (2 ^ j)) * inject_Z quantum
                    == inject_Z ((- m) * 2 ^ (1074 - j)))%Q).
    { rewrite <- (Esc (- m)), inject_Z_opp. field. exact Hnj. }
    rewrite (round53_comp _ _ Esc'), round53_fix by lia.
    rewrite Es, !inject_Z_mult, inject_Z_opp. field. split; [exact Hnj|].
    intros Hz. pose proof (pow2_Qpos (1074 - j) ltac:(lia)) as Hp. rewrite Hz in Hp.
    discriminate Hp.
Qed.

(** [RN] against the machine: an inexact quotient, an inexact sum, a tie
    between two subnormals (to the even one) and a carry into the next
    binade. *)
Example RN_machine :
  (RN (1 # 3) == valueOf (1 / 3)%float)%Q
  /\ (RN (valueOf 0.1%float + valueOf 0.2%float) == valueOf (0.1 + 0.2)%float)%Q
  /\ (RN (valueOf 5e-324%float * (3 # 2)) == valueOf (5e-324 * 1.5)%float)%Q
  /\ (RN (valueOf 9007199254740991%float + (3 # 2))
       == valueOf (9007199254740991 + 1.5)%float)%Q
  /\ (RN (- valueOf 1e22%float / 3) == valueOf (- 1e22 / 3)%float)%Q.
Proof.
  split; [vm_compute; reflexivity|].
  split; [vm_compute; reflexivity|].
  split; [vm_compute; reflexivity|].
  split; vm_compute; reflexivity.
Qed.

End Binary64Props.

(** ** Tile columns in binary64 *)

Module Projector64Props.
Import Binary64 Binary64Props Projector64.

Local Open Scope Q_scope.

Lemma add_Fin (a b : Q) : add (Fin a) (Fin b) = fl (a + b).
Proof. reflexivity. Qed.

Lemma sub_Fin (a b : Q) : sub (Fin a) (Fin b) = fl (a + - b).
Proof. reflexivity. Qed.

Lemma mul_Fin (a b : Q) : mul (Fin a) (Fin b) = fl (a * b).
Proof. reflexivity. Qed.

Lemma div_Fin (a b : Q) : 0 < b -> div (Fin a) (Fin b) = fl (a / b).
Proof.
  intros Hb. unfold div. rewrite (proj1 (Qgt_alt b 0) Hb). reflexivity.
Qed.

(** Rounding stays between two whole bounds of at most 53 bits. *)
Lemma RN_between (q : Q) (lo hi : Z) :
  (Z.abs lo < 2 ^ 53)%Z -> (Z.abs hi < 2 ^ 53)%Z ->
  inject_Z lo <= q -> q <= inject_Z hi ->
  inject_Z lo <= RN q /\ RN q <= inject_Z hi.
Proof.
  intros Hlo Hhi H1 H2. split.
  - rewrite <- (RN_Z lo Hlo). apply RN_mono. exact H1.
  - rewrite <- (RN_Z hi Hhi). apply RN_mono. exact H2.
Qed.

(** A result of at most 53 bits in size does not overflow. *)
Lemma fl_Fin (q : Q) (B : Z) :
  (0 <= B < 2 ^ 53)%Z -> - inject_Z B <= q -> q <= inject_Z B ->
  fl q = Fin (RN q).
Proof.
  intros HB H1 H2.
  destruct (RN_between q (- B) B) as [L U]; try lia.
  { rewrite inject_Z_opp. exact H1. }
  { exact H2. }
  rewrite inject_Z_opp in L.
  assert (Hh : inject_Z B < huge).
  { unfold huge. rewrite <- Zlt_Qlt. unfold hugeZ. lia. }
  unfold fl. cbv zeta.
  replace (Qle_bool huge (RN q)) with false
    by (symmetry; apply not_true_is_false; intros H; apply Qle_bool_iff in H; Lqa.lra).
  replace (Qle_bool (RN q) (- huge)) with false
    by (symmetry; apply not_true_is_false; intros H; apply Qle_bool_iff in H; Lqa.lra).
  reflexivity.
Qed.

Lemma pow2_le (z b : nat) : (z <= b)%nat -> (0 < 2 ^ Z.of_nat z <= 2 ^ Z.of_nat b)%Z.
Proof.
  intros H. split; [apply Z.pow_pos_nonneg; lia|]. apply Z.pow_le_mono_r; lia.
Qed.

Lemma pow2_exact (z : nat) :
  (z <= 24)%nat ->
  pow2 z = Fin (RN (inject_Z (2 ^ Z.of_nat z)))
  /\ RN (inject_Z (2 ^ Z.of_nat z)) == inject_Z (2 ^ Z.of_nat z).
Proof.
  intros Hz. pose proof (pow2_le z 24 Hz) as Hp. change (2 ^ Z.of_nat 24)%Z with 16777216%Z in Hp.
  split.
  - unfold pow2. apply (fl_Fin _ 16777216); [lia | |].
    + apply Qle_trans with 0; [discriminate|].
      change 0 with (inject_Z 0). rewrite <- Zle_Qle. lia.
    + rewrite <- Zle_Qle. lia.
  - apply RN_Z. lia.
Qed.

(** [lon + 180] and the fraction of the way round the globe. *)
Lemma shifted_range (lon : Q) :
  -180 <= lon -> lon <= 180 -> 0 <= RN (lon + 180) /\ RN (lon + 180) <= 360.
Proof.
  intros H1 H2. apply (RN_between _ 0 360); [reflexivity | reflexivity | |].
  - change (inject_Z 0) with 0. Lqa.lra.
  - change (inject_Z 360) with 360. Lqa.lra.
Qed.

Lemma fraction_range (lon : Q) :
  -180 <= lon -> lon <= 180 ->
  0 <= RN (RN (lon + 180) / 360) /\ RN (RN (lon + 180) / 360) <= 1.
Proof.
  intros H1 H2. destruct (shifted_range lon H1 H2) as [L U].
  apply (RN_between _ 0 1); [reflexivity | reflexivity | |].
  - change (inject_Z 0) with 0. apply Qle_shift_div_l; [reflexivity|]. Lqa.lra.
  - change (inject_Z 1) with 1. apply Qle_shift_div_r; [reflexivity|]. Lqa.lra.
Qed.

Lemma scaledQ_range (lon : Q) (z : nat) :
  (z <= 24)%nat -> -180 <= lon -> lon <= 180 ->
  0 <= scaledQ lon z /\ scaledQ lon z <= inject_Z (2 ^ Z.of_nat z).
Proof.
  intros Hz H1 H2. destruct (fraction_range lon H1 H2) as [L U].
  destruct (pow2_exact z Hz) as [_ Ep]. pose proof (pow2_le z 24 Hz) as Hp.
  change (2 ^ Z.of_nat 24)%Z with 16777216%Z in Hp.
  assert (Hn : 0 < inject_Z (2 ^ Z.of_nat z)).
  { change 0 with (inject_Z 0). rewrite <- Zlt_Qlt. lia. }
  unfold scaledQ. set (f := RN (RN (lon + 180) / 360)) in *.
  apply (RN_between _ 0 (2 ^ Z.of_nat z)); try lia.
  - change (inject_Z 0) with 0. rewrite Ep. apply Qmult_le_0_compat; Lqa.lra.
  - rewrite Ep. rewrite <- (Qmult_1_l (inject_Z (2 ^ Z.of_nat z))) at 2.
    apply Qmult_le_compat_r; Lqa.lra.
Qed.

Lemma scaledQ_mono (lon1 lon2 : Q) (z : nat) :
  (z <= 24)%nat -> lon1 <= lon2 -> scaledQ lon1 z <= scaledQ lon2 z.
Proof.
  intros Hz H. destruct (pow2_exact z Hz) as [_ Ep]. pose proof (pow2_le z 24 Hz) as Hp.
  unfold scaledQ. apply RN_mono. apply Qmult_le_compat_r.
  - apply RN_mono. unfold Qdiv. apply Qmult_le_compat_r; [|discriminate].
    apply RN_mono. Lqa.lra.
  - rewrite Ep. change 0 with (inject_Z 0). rewrite <- Zle_Qle. lia.
Qed.

(** The scaled longitude of a longitude of the map is finite. *)
Lemma scaled_finite (lon : Q) (z : nat) :
  (z <= 24)%nat -> -180 <= lon -> lon <= 180 ->
  mul (div (add (Fin lon) (Fin 180)) (Fin 360)) (pow2 z) = Fin (scaledQ lon z).
Proof.
  intros Hz H1 H2. destruct (shifted_range lon H1 H2) as [L1 U1].
  destruct (fraction_range lon H1 H2) as [L2 U2].
  destruct (pow2_exact z Hz) as [Epow Ep]. pose proof (pow2_le z 24 Hz) as Hp.
  change (2 ^ Z.of_nat 24)%Z with 16777216%Z in Hp.
  rewrite add_Fin, (fl_Fin _ 360);
    [| lia | change (inject_Z 360) with 360; Lqa.lra | change (inject_Z 360) with 360; Lqa.lra].
  rewrite div_Fin by reflexivity.
  rewrite (fl_Fin _ 1); [| lia | | ].
  2:{ change (inject_Z 1) with 1. apply Qle_trans with 0; [discriminate|].
      apply Qle_shift_div_l; [reflexivity|]. Lqa.lra. }
  2:{ change (inject_Z 1) with 1. apply Qle_shift_div_r; [reflexivity|]. Lqa.lra. }
  rewrite Epow, mul_Fin. unfold scaledQ.
  set (f := RN (RN (lon + 180) / 360)) in *.
  assert (Hn : 0 <= inject_Z (2 ^ Z.of_nat z)).
  { change 0 with (inject_Z 0). rewrite <- Zle_Qle. lia. }
  apply (fl_Fin _ 16777216); [lia | |].
  - apply Qle_trans with 0; [discriminate|]. rewrite Ep.
    apply Qmult_le_0_compat; Lqa.lra.
  - rewrite Ep. apply Qle_trans with (inject_Z (2 ^ Z.of_nat z)).
    + rewrite <- (Qmult_1_l (inject_Z (2 ^ Z.of_nat z))) at 2.
      apply Qmult_le_compat_r; Lqa.lra.
    + rewrite <- Zle_Qle. lia.
Qed.

Lemma px_range (lon : Q) (z : nat) :
  (z <= 24)%nat -> -180 <= lon -> lon <= 180 ->
  0 <= RN (scaledQ lon z * 256) /\ RN (scaledQ lon z * 256) <= inject_Z (2 ^ Z.of_nat z * 256).
Proof.
  intros Hz H1 H2. destruct (scaledQ_range lon z Hz H1 H2) as [L U].
  pose proof (pow2_le z 24 Hz) as Hp. change (2 ^ Z.of_nat 24)%Z with 16777216%Z in Hp.
  apply (RN_between _ 0 (2 ^ Z.of_nat z * 256)); try lia.
  - change (inject_Z 0) with 0. Lqa.lra.
  - rewrite inject_Z_mult. change (inject_Z 256) with 256. Lqa.lra.
Qed.

Lemma quotient_range (lon : Q) (z : nat) :
  (z <= 24)%nat -> -180 <= lon -> lon <= 180 ->
  0 <= RN (RN (scaledQ lon z * 256) / 256)
  /\ RN (RN (scaledQ lon z * 256) / 256) <= inject_Z (2 ^ Z.of_nat z).
Proof.
  intros Hz H1 H2. destruct (px_range lon z Hz H1 H2) as [L U].
  pose proof (pow2_le z 24 Hz) as Hp. change (2 ^ Z.of_nat 24)%Z with 16777216%Z in Hp.
  rewrite inject_Z_mult in U. change (inject_Z 256) with 256 in U.
  apply (RN_between _ 0 (2 ^ Z.of_nat z)); try lia.
  - change (inject_Z 0) with 0. apply Qle_shift_div_l; [reflexivity|]. Lqa.lra.
  - apply Qle_shift_div_r; [reflexivity|]. exact U.
Qed.

Lemma columnQ_range (lon : Q) (z : nat) :
  (z <= 24)%nat -> -180 <= lon -> lon <= 180 ->
  (0 <= columnQ lon z <= 2 ^ Z.of_nat z)%Z.
Proof.
  intros Hz H1 H2. destruct (quotient_range lon z Hz H1 H2) as [L U].
  unfold columnQ. split.
  - rewrite <- (Qfloor_Z 0). apply Qfloor_resp_le. exact L.
  - rewrite <- (Qfloor_Z (2 ^ Z.of_nat z)). apply Qfloor_resp_le. exact U.
Qed.

Lemma columnQ_mono (lon1 lon2 : Q) (z : nat) :
  (z <= 24)%nat -> lon1 <= lon2 -> (columnQ lon1 z <= columnQ lon2 z)%Z.
Proof.
  intros Hz H. pose proof (scaledQ_mono lon1 lon2 z Hz H) as Hs.
  unfold columnQ. apply Qfloor_resp_le. apply RN_mono.
  unfold Qdiv. apply Qmult_le_compat_r; [|discriminate].
  apply RN_mono. apply Qmult_le_compat_r; [exact Hs | discriminate].
Qed.

(** The column of a longitude of the map is finite. *)
Lemma column_finite (lon : Q) (z : nat) :
  (z <= 24)%nat -> -180 <= lon -> lon <= 180 ->
  column (Fin lon) z = Fin (inject_Z (columnQ lon z)).
Proof.
  intros Hz H1 H2. destruct (scaledQ_range lon z Hz H1 H2) as [L U].
  destruct (px_range lon z Hz H1 H2) as [L' U'].
  pose proof (pow2_le z 24 Hz) as Hp. change (2 ^ Z.of_nat 24)%Z with 16777216%Z in Hp.
  rewrite inject_Z_mult in U'. change (inject_Z 256) with 256 in U'.
  assert (Hb : inject_Z (2 ^ Z.of_nat z) <= 16777216).
  { change 16777216 with (inject_Z 16777216). rewrite <- Zle_Qle. lia. }
  unfold column, worldPxX. rewrite (scaled_finite lon z Hz H1 H2), mul_Fin.
  rewrite (fl_Fin _ 4294967296);
    [| lia | change (inject_Z 4294967296) with 4294967296; Lqa.lra
     | change (inject_Z 4294967296) with 4294967296; Lqa.lra].
  rewrite div_Fin by reflexivity.
  rewrite (fl_Fin _ 16777216); [reflexivity | lia | |].
  - apply Qle_trans with 0; [discriminate|]. apply Qle_shift_div_l; [reflexivity|]. Lqa.lra.
  - change (inject_Z 16777216) with 16777216. apply Qle_shift_div_r; [reflexivity|]. Lqa.lra.
Qed.

(** A sum of two whole numbers of at most 2^25 in size is exact. *)
Lemma fl_add_Z (a b : Z) :
  (Z.abs a <= 2 ^ 25)%Z -> (Z.abs b <= 2 ^ 25)%Z ->
  exists t, fl (inject_Z a + inject_Z b) = Fin t /\ t == inject_Z (a + b).
Proof.
  intros Ha Hb. exists (RN (inject_Z a + inject_Z b)). split.
  - apply (fl_Fin _ (2 ^ 26)); [lia | |]; rewrite <- inject_Z_plus;
      [rewrite <- inject_Z_opp|]; rewrite <- Zle_Qle; lia.
  - rewrite (RN_comp _ (inject_Z (a + b))) by (rewrite inject_Z_plus; reflexivity).
    apply RN_Z. lia.
Qed.




(** The columns of an ordinary box on the machine's own doubles. *)
Example column_machine :
  RN (RN (scaledQ (valueOf 13.37%float) 16 * 256) / 256)
  == valueOf ((((13.37 + 180) / 360) * 65536 * 256) / 256)%float
  /\ column (Fin (valueOf 13.37%float)) 16 = Fin (inject_Z 35201)
  /\ column (Fin (valueOf 13.63%float)) 16 = Fin (inject_Z 35249).
Proof.
  split; [vm_compute; reflexivity|].
  split; vm_compute; reflexivity.
Qed.

(** The same overflow on the machine's own doubles. *)
Example worldPx_overflow_machine :
  (((1e308 + 180) / 360) * 16777216 * 256)%float = infinity
  /\ valueOf 1e308%float == lon1e308
  /\ valueOf 1.5e308%float == lon15e307.
Proof.
  split; [vm_compute; reflexivity|].
  split; vm_compute; reflexivity.
Qed.

(** The column the route probes lies between 0 and [2^z], both included. *)
Lemma tileX_finite (lon : Q) (z : nat) :
  (z <= 24)%nat -> -180 <= lon -> lon <= 180 ->
  tileX (Fin lon) z = Fin (inject_Z (Qfloor (scaledQ lon z)))
  /\ (0 <= Qfloor (scaledQ lon z) <= 2 ^ Z.of_nat z)%Z.
Proof.
  intros Hz H1 H2. destruct (scaledQ_range lon z Hz H1 H2) as [L U]. split.
  - unfold tileX. rewrite (scaled_finite lon z Hz H1 H2). reflexivity.
  - split.
    + rewrite <- (Qfloor_Z 0). apply Qfloor_resp_le. exact L.
    + rewrite <- (Qfloor_Z (2 ^ Z.of_nat z)). apply Qfloor_resp_le. exact U.
Qed.

(** X27: for a zoom the route can use (at most 23) and a bounding box whose
    two longitudes lie in [-180, 180], the column of the probed tile, taken
    in binary64 at the longitude of the centre of the box, is a whole
    number between 0 and [2^z], both included.  The upper end is one past
    the last column of the map, and it is reached: at zoom 16 the box
    [179.99999999999997, 0, 179.99999999999997, 0] probes column 65536. *)
Theorem probeColumn_range (minLng maxLng : Q) (z : nat) :
  (z <= 23)%nat ->
  -180 <= minLng -> minLng <= 180 -> -180 <= maxLng -> maxLng <= 180 ->
  (exists x : Z,
      probeColumn (Fin minLng) (Fin maxLng) z = Fin (inject_Z x)
      /\ (0 <= x <= 2 ^ Z.of_nat z)%Z)
  /\ probeColumn (Fin lonBelow180) (Fin lonBelow180) 16 = Fin (inject_Z (2 ^ 16)).
Proof.
  intros Hz A1 A2 B1 B2. split; [|vm_compute; reflexivity].
  unfold probeColumn, centerLon. rewrite add_Fin.
  destruct (RN_between (minLng + maxLng) (-360) 360) as [L U];
    [reflexivity | reflexivity | | |].
  { change (inject_Z (-360)) with (-360). Lqa.lra. }
  { change (inject_Z 360) with 360. Lqa.lra. }
  change (inject_Z (-360)) with (-360) in L. change (inject_Z 360) with 360 in U.
  rewrite (fl_Fin _ 360);
    [| lia | change (inject_Z 360) with 360; Lqa.lra | change (inject_Z 360) with 360; Lqa.lra].
  rewrite div_Fin by reflexivity.
  set (s := RN (minLng + maxLng)) in *.
  destruct (RN_between (s / 2) (-180) 180) as [L' U'];
    [reflexivity | reflexivity | | |].
  { change (inject_Z (-180)) with (-180). apply Qle_shift_div_l; [reflexivity|]. Lqa.lra. }
  { change (inject_Z 180) with 180. apply Qle_shift_div_r; [reflexivity|]. Lqa.lra. }
  change (inject_Z (-180)) with (-180) in L'. change (inject_Z 180) with 180 in U'.
  rewrite (fl_Fin _ 180); [| lia | |].
  2:{ change (inject_Z 180) with 180. apply Qle_shift_div_l; [reflexivity|]. Lqa.lra. }
  2:{ change (inject_Z 180) with 180. apply Qle_shift_div_r; [reflexivity|]. Lqa.lra. }
  destruct (tileX_finite (RN (s / 2)) z) as [E R]; [lia | exact L' | exact U' |].
  exists (Qfloor (scaledQ (RN (s / 2)) z)). split; [exact E | exact R].
Qed.

Lemma probeColumn_range_witness :
  (exists x : Z,
      probeColumn (Fin (1337 # 100)) (Fin (1363 # 100)) 16 = Fin (inject_Z x)
      /\ (0 <= x <= 2 ^ Z.of_nat 16)%Z)
  /\ probeColumn (Fin lonBelow180) (Fin lonBelow180) 16 = Fin (inject_Z (2 ^ 16)).
Proof.
  apply (probeColumn_range (1337 # 100) (1363 # 100) 16).
  - lia.
  - vm_compute. discriminate.
  - vm_compute. discriminate.
  - vm_compute. discriminate.
  - vm_compute. discriminate.
Defined.

(** The same column on the machine's own doubles. *)
Example probeColumn_machine :
  valueOf 179.99999999999997%float == lonBelow180
  /\ valueOf ((((179.99999999999997 + 179.99999999999997) / 2 + 180) / 360) * 65536)%float
     == 65536.
Proof.
  split; vm_compute; reflexivity.
Qed.

End Projector64Props.

(** ** The box around a picked centre in binary64 *)

Module Region64Props.
Import Binary64 Binary64Props Projector64 Projector64Props Region64.

Local Open Scope Q_scope.

Lemma fl_cases (q : Q) :
  (fl q = PInf /\ huge <= RN q)
  \/ (fl q = NInf /\ RN q <= - huge)
  \/ (fl q = Fin (RN q) /\ - huge < RN q /\ RN q < huge).
Proof.
  unfold fl. cbv zeta.
  destruct (Qle_bool huge (RN q)) eqn:E1.
  { left. split; [reflexivity|]. apply Qle_bool_iff. exact E1. }
  destruct (Qle_bool (RN q) (- huge)) eqn:E2.
  { right. left. split; [reflexivity|]. apply Qle_bool_iff. exact E2. }
  right. right. split; [reflexivity|]. split.
  - apply Qnot_le_lt. intros H. apply Qle_bool_iff in H. congruence.
  - apply Qnot_le_lt. intros H. apply Qle_bool_iff in H. congruence.
Qed.

Lemma fl_nonNegative (q : Q) : 0 <= q -> nonNegative (fl q).
Proof.
  intros H. pose proof (RN_nonneg q H) as Hr.
  assert (Hh : 0 < huge) by reflexivity.
  destruct (fl_cases q) as [[E _] | [[E Hn] | [E _]]].
  - left. exact E.
  - exfalso. Lqa.lra.
  - right. exists (RN q). split; [exact E | exact Hr].
Qed.

(** A radius that is not negative over a positive number of kilometres per
    degree is not negative. *)
Lemma div_nonNegative (r : Q) (k : F64) :
  0 <= r -> gtb k (Fin 0) = true -> nonNegative (div (Fin r) k).
Proof.
  intros Hr Hk. destruct k as [q | | |]; try discriminate Hk.
  - cbn [gtb] in Hk. apply negb_true_iff in Hk.
    assert (Hq : 0 < q).
    { apply Qnot_le_lt. intros H. apply Qle_bool_iff in H. congruence. }
    rewrite div_Fin by exact Hq. apply fl_nonNegative.
    apply Qle_shift_div_l; [exact Hq|]. Lqa.lra.
  - right. exists 0. split; [reflexivity | apply Qle_refl].
Qed.

Lemma sub_nonNegative_le (a : Q) (d : F64) :
  isDouble a -> nonNegative d -> leb (sub (Fin a) d) (Fin a) = true.
Proof.
  intros (Ea & Hlo & Hhi) [-> | (r & -> & Hr)]; [reflexivity|].
  rewrite sub_Fin.
  assert (Hle : RN (a + - r) <= a).
  { rewrite <- Ea at 2. apply RN_mono. Lqa.lra. }
  destruct (fl_cases (a + - r)) as [[E H] | [[E _] | [E _]]]; rewrite E.
  - exfalso. Lqa.lra.
  - reflexivity.
  - cbn [leb geb]. apply Qle_bool_iff. exact Hle.
Qed.

Lemma add_nonNegative_ge (a : Q) (d : F64) :
  isDouble a -> nonNegative d -> leb (Fin a) (add (Fin a) d) = true.
Proof.
  intros (Ea & Hlo & Hhi) [-> | (r & -> & Hr)]; [reflexivity|].
  rewrite add_Fin.
  assert (Hle : a <= RN (a + r)).
  { rewrite <- Ea at 1. apply RN_mono. Lqa.lra. }
  destruct (fl_cases (a + r)) as [[E _] | [[E H] | [E _]]]; rewrite E.
  - reflexivity.
  - exfalso. Lqa.lra.
  - cbn [leb geb]. apply Qle_bool_iff. exact Hle.
Qed.

(** X11: whatever [Math.cos] returns, for a centre of finite doubles and a
    finite radius that is not negative the box computed in binary64 holds
    the centre: [minLng <= lng <= maxLng] and [minLat <= lat <= maxLat]
    (a bound is infinite when its division overflows). *)
Theorem bboxFromCenterRadius_holds_centre (Math_cos : F64 -> F64)
    (lng lat radiusKm : Q) :
  isDouble lng -> isDouble lat -> 0 <= radiusKm ->
  let '(minLng, minLat, maxLng, maxLat) :=
    bboxFromCenterRadius Math_cos (Fin lng) (Fin lat) (Fin radiusKm) in
  leb minLng (Fin lng) = true /\ leb (Fin lng) maxLng = true
  /\ leb minLat (Fin lat) = true /\ leb (Fin lat) maxLat = true.
Proof.
  intros Hlng Hlat Hr. unfold bboxFromCenterRadius.
  set (k := mul (Fin kmPerDegLngEquator) (Math_cos (div (mul (Fin lat) (Fin Math_PI)) (Fin 180)))).
  assert (HdLat : nonNegative (div (Fin radiusKm) (Fin kmPerDegLat))).
  { apply div_nonNegative; [exact Hr | reflexivity]. }
  assert (HdLng : nonNegative (if gtb k (Fin 0) then div (Fin radiusKm) k
                               else div (Fin radiusKm) (Fin kmPerDegLngEquator))).
  { destruct (gtb k (Fin 0)) eqn:E.
    - apply div_nonNegative; [exact Hr | exact E].
    - apply div_nonNegative; [exact Hr | reflexivity]. }
  split; [apply sub_nonNegative_le; assumption|].
  split; [apply add_nonNegative_ge; assumption|].
  split; [apply sub_nonNegative_le; assumption|].
  apply add_nonNegative_ge; assumption.
Qed.

Lemma bboxFromCenterRadius_holds_centre_witness :
  let '(minLng, minLat, maxLng, maxLat) :=
    bboxFromCenterRadius cosAtPole (Fin (27 # 2)) (Fin 90) (Fin 15) in
  leb minLng (Fin (27 # 2)) = true /\ leb (Fin (27 # 2)) maxLng = true
  /\ leb minLat (Fin 90) = true /\ leb (Fin 90) maxLat = true.
Proof.
  apply (bboxFromCenterRadius_holds_centre cosAtPole (27 # 2) 90 15).
  - split; [|split]; vm_compute; reflexivity.
  - split; [|split]; vm_compute; reflexivity.
  - discriminate.
Defined.

(** At the pole the cosine is a tiny positive double, the main branch is
    taken, and a radius of 15 km gives a box more than [10^15] degrees
    wide to either side. *)
Example bboxFromCenterRadius_at_pole :
  let '(minLng, _, maxLng, _) :=
    bboxFromCenterRadius cosAtPole (Fin (27 # 2)) (Fin 90) (Fin 15) in
  leb minLng (Fin (- inject_Z (10 ^ 15))) = true
  /\ leb (Fin (inject_Z (10 ^ 15))) maxLng = true.
Proof. split; vm_compute; reflexivity. Qed.

End Region64Props.

(** ** Pixel diff engine: the heatmap and the range of the statistics *)

Module DiffMore.
Import Diff DiffProps Heatmap Binary64Props.

Lemma byteZ_range (b : byte) : (0 <= byteZ b <= 255)%Z.
Proof.
  unfold byteZ. pose proof (Byte.to_N_bounded b) as H. lia.
Qed.

Lemma pixelDiff_range (ad bd : list byte) (i : nat) :
  (0 <= pixelDiff ad bd i)%Q /\ (pixelDiff ad bd i <= 255)%Q.
Proof.
  unfold pixelDiff.
  pose proof (byteZ_range (at_ ad (i * 4))). pose proof (byteZ_range (at_ bd (i * 4))).
  pose proof (byteZ_range (at_ ad (i * 4 + 1))). pose proof (byteZ_range (at_ bd (i * 4 + 1))).
  pose proof (byteZ_range (at_ ad (i * 4 + 2))). pose proof (byteZ_range (at_ bd (i * 4 + 2))).
  set (s := (Z.abs _ + Z.abs _ + Z.abs _)%Z).
  assert (Hs : (0 <= s <= 765)%Z) by (unfold s; lia).
  clearbody s. unfold Qdiv, Qle, Qmult, Qinv, inject_Z; simpl. lia.
Qed.

Lemma pixelDiff_sym (ad bd : list byte) (i : nat) : pixelDiff ad bd i = pixelDiff bd ad i.
Proof.
  unfold pixelDiff. do 2 f_equal. lia.
Qed.

Lemma masked_sym (ic idk : bool) (ad bd : list byte) (i : nat) :
  masked ic idk ad bd i = masked ic idk bd ad i.
Proof.
  unfold masked.
  rewrite (orb_comm (isCloudLike (at_ ad (i * 4)) _ _)).
  rewrite (orb_comm (isVeryDark (at_ ad (i * 4)) _ _)).
  reflexivity.
Qed.

(** [sum] stays between 0 and 255 times [considered]. *)
Lemma fold_sum_range (t : Q) (ic idk : bool) (ad bd : list byte) (l : list nat) :
  forall acc,
    (0 <= sum acc)%Q -> (sum acc <= 255 * natQ (considered acc))%Q ->
    let r := fold_left (diffStep t ic idk ad bd) l acc in
    (0 <= sum r)%Q /\ (sum r <= 255 * natQ (considered r))%Q.
Proof.
  induction l as [|i l IH]; intros acc H0 H1; simpl; [split; assumption|].
  apply IH; unfold diffStep; destruct (masked ic idk ad bd i); simpl; try assumption.
  - destruct (pixelDiff_range ad bd i) as [Hd _]. Lqa.lra.
  - destruct (pixelDiff_range ad bd i) as [_ Hd].
    assert (E : (natQ (S (considered acc)) == natQ (considered acc) + 1)%Q).
    { unfold natQ. rewrite Nat2Z.inj_succ, <- Z.add_1_r, inject_Z_plus. reflexivity. }
    rewrite E. Lqa.lra.
Qed.

Lemma fold_od (t : Q) (ic idk : bool) (ad bd : list byte) (l : list nat) :
  forall acc,
    od (fold_left (diffStep t ic idk ad bd) l acc)
    = od acc ++ flat_map (heatPixel t ic idk ad bd) l.
Proof.
  induction l as [|i l IH]; intros acc; simpl; [rewrite app_nil_r; reflexivity|].
  rewrite IH. unfold diffStep, heatPixel.
  destruct (masked ic idk ad bd i); simpl; rewrite <- app_assoc; reflexivity.
Qed.

Lemma flat_map_quad {A : Type} (g : nat -> list A) (d : A) (len start : nat) :
  (forall i, List.length (g i) = 4%nat) ->
  List.length (flat_map g (seq start len)) = (4 * len)%nat
  /\ forall i k, (i < len)%nat -> (k < 4)%nat ->
       nth (i * 4 + k) (flat_map g (seq start len)) d = nth k (g (start + i)%nat) d.
Proof.
  intros Hg. revert start; induction len as [|len IH]; intros start.
  - split; [reflexivity | intros i k Hi; lia].
  - destruct (IH (S start)) as [IHl IHn]. simpl. split.
    + rewrite length_app, Hg, IHl. lia.
    + intros i k Hi Hk. destruct i as [|i].
      * rewrite Nat.add_0_r. simpl. rewrite app_nth1 by (rewrite Hg; lia). reflexivity.
      * rewrite app_nth2 by (rewrite Hg; lia). rewrite Hg.
        replace (S i * 4 + k - 4)%nat with (i * 4 + k)%nat by lia.
        rewrite IHn by lia. f_equal. f_equal. lia.
Qed.

Lemma heatPixel_shape (t : Q) (ic idk : bool) (ad bd : list byte) (i : nat) :
  exists alpha,
    heatPixel t ic idk ad bd i = [255; 0; 0; alpha]%Z
    /\ (alpha = 0 \/ 40 <= alpha <= 220)%Z
    /\ (alpha <> 0%Z <->
        masked ic idk ad bd i = false /\ (t <= pixelDiff ad bd i)%Q).
Proof.
  unfold heatPixel. destruct (masked ic idk ad bd i).
  - exists 0%Z. split; [reflexivity|]. split; [left; reflexivity|].
    split; [intros H; contradiction | intros [H _]; discriminate].
  - destruct (Qle_bool t (pixelDiff ad bd i)) eqn:E.
    + apply Qle_bool_iff in E.
      destruct (pixelDiff_range ad bd i) as [Hd0 Hd1].
      assert (Hr : (40 <= roundHalfEven (Qmin 220 (40 + pixelDiff ad bd i)) <= 220)%Z).
      { apply roundHalfEven_between.
        - apply Q.min_glb; unfold inject_Z; Lqa.lra.
        - apply Q.le_min_l. }
      exists (clampU8 (Qmin 220 (40 + pixelDiff ad bd i))).
      split; [reflexivity|]. unfold clampU8. split; [right; lia|].
      split; [intros _; split; [reflexivity | exact E] | intros _; lia].
    + exists 0%Z. split; [reflexivity|]. split; [left; reflexivity|].
      split; [intros H; contradiction|].
      intros [_ H]. apply Qle_bool_iff in H. congruence.
Qed.

(** The heatmap over the exact quotient [(dr + dg + db) / 3]. *)
Lemma heatmap_shape_exact (a b : ImageData) (t : Q) (ic idk : bool)
    (heat : list Z) (s : DiffStats) :
  computeDiff a b t ic idk = Return (heat, s) ->
  let n := (Nat.min (width a) (width b) * Nat.min (height a) (height b))%nat in
  List.length heat = (4 * n)%nat
  /\ forall i, (i < n)%nat ->
       nth (i * 4) heat 0%Z = 255%Z
       /\ nth (i * 4 + 1) heat 0%Z = 0%Z
       /\ nth (i * 4 + 2) heat 0%Z = 0%Z
       /\ (nth (i * 4 + 3) heat 0%Z = 0 \/ 40 <= nth (i * 4 + 3) heat 0%Z <= 220)%Z
       /\ (nth (i * 4 + 3) heat 0%Z <> 0%Z
           <-> masked ic idk (data a) (data b) i = false
               /\ (t <= pixelDiff (data a) (data b) i)%Q).
Proof.
  unfold computeDiff.
  destruct (Nat.eqb _ 0); [discriminate|]. intros H. injection H as Hh _.
  cbn zeta. set (n := (Nat.min (width a) (width b) * Nat.min (height a) (height b))%nat) in *.
  unfold diffLoop in Hh. rewrite fold_od in Hh. cbn [od acc0 app] in Hh. subst heat.
  destruct (flat_map_quad (heatPixel t ic idk (data a) (data b)) 0%Z n 0) as [Hl Hn].
  { intros i. destruct (heatPixel_shape t ic idk (data a) (data b) i) as (al & E & _).
    rewrite E. reflexivity. }
  split; [exact Hl|]. intros i Hi.
  destruct (heatPixel_shape t ic idk (data a) (data b) i) as (al & E & Hr & Hm).
  pose proof (Hn i 0%nat Hi) as E0. rewrite Nat.add_0_r in E0.
  rewrite E0, (Hn i 1%nat), (Hn i 2%nat), (Hn i 3%nat) by lia.
  cbn [Nat.add]. rewrite E. cbn [nth].
  split; [reflexivity|]. split; [reflexivity|]. split; [reflexivity|].
  split; [exact Hr | exact Hm].
Qed.

(** The binary64 quotient by 3 lies in the same unit interval as the exact
    one: three quarters above a whole number is a double. *)
Lemma third_floor (s : Z) :
  (0 <= s <= 765)%Z ->
  Qfloor (Binary64.RN (inject_Z s / 3)) = Qfloor (inject_Z s / 3).
Proof.
  intros Hs.
  assert (Ef : Qfloor (inject_Z s / 3) = (s / 3)%Z).
  { change 3%Q with (inject_Z 3). symmetry. apply Zdiv_Qdiv. }
  rewrite Ef. set (k := (s / 3)%Z).
  assert (Hk : (3 * k <= s <= 3 * k + 2)%Z).
  { unfold k. pose proof (Z.div_mod s 3 ltac:(lia)).
    pose proof (Z.mod_pos_bound s 3 ltac:(lia)). lia. }
  assert (Hlo : (inject_Z k <= inject_Z s / 3)%Q).
  { apply Qle_shift_div_l; [reflexivity|]. change 3%Q with (inject_Z 3).
    rewrite <- inject_Z_mult, <- Zle_Qle. lia. }
  assert (Hhi : (inject_Z s / 3 <= inject_Z (4 * k + 3) / inject_Z (2 ^ 2))%Q).
  { apply Qle_shift_div_l; [reflexivity|]. unfold Qdiv. rewrite <- Qmult_assoc.
    rewrite (Qmult_comm (/ 3)), Qmult_assoc. apply Qle_shift_div_r; [reflexivity|].
    change 3%Q with (inject_Z 3). rewrite <- !inject_Z_mult, <- Zle_Qle.
    change (2 ^ 2)%Z with 4%Z. lia. }
  pose proof (Binary64Props.RN_mono _ _ Hlo) as R1.
  pose proof (Binary64Props.RN_mono _ _ Hhi) as R2.
  rewrite Binary64Props.RN_Z in R1 by (change (2 ^ 53)%Z with 9007199254740992%Z; lia).
  rewrite Binary64Props.RN_dyadic in R2
    by (change (2 ^ 53)%Z with 9007199254740992%Z; lia).
  assert (R3 : (Binary64.RN (inject_Z s / 3) < inject_Z (k + 1))%Q).
  { eapply Qle_lt_trans; [exact R2|]. apply Qlt_shift_div_r; [reflexivity|].
    rewrite <- inject_Z_mult, <- Zlt_Qlt. change (2 ^ 2)%Z with 4%Z. lia. }
  apply Z.le_antisymm.
  - assert (H : (Qfloor (Binary64.RN (inject_Z s / 3)) < k + 1)%Z); [|lia].
    rewrite Zlt_Qlt. eapply Qle_lt_trans; [apply Qfloor_le | exact R3].
  - rewrite <- (Qfloor_Z k). apply Qfloor_resp_le. exact R1.
Qed.

Lemma Zle_Qfloor (k : Z) (x : Q) : (inject_Z k <= x)%Q <-> (k <= Qfloor x)%Z.
Proof.
  split.
  - intros H. rewrite <- (Qfloor_Z k). apply Qfloor_resp_le. exact H.
  - intros H. apply Qle_trans with (inject_Z (Qfloor x)); [|apply Qfloor_le].
    rewrite <- Zle_Qle. exact H.
Qed.

(** For a whole threshold the test on the exact quotient and the test on
    the binary64 quotient agree. *)
Lemma hot64_whole_threshold (k : Z) (ad bd : list byte) (i : nat) :
  hot64 (inject_Z k) ad bd i = Qle_bool (inject_Z k) (pixelDiff ad bd i).
Proof.
  unfold hot64, pixelDiff.
  pose proof (byteZ_range (at_ ad (i * 4))). pose proof (byteZ_range (at_ bd (i * 4))).
  pose proof (byteZ_range (at_ ad (i * 4 + 1))). pose proof (byteZ_range (at_ bd (i * 4 + 1))).
  pose proof (byteZ_range (at_ ad (i * 4 + 2))). pose proof (byteZ_range (at_ bd (i * 4 + 2))).
  set (s := (Z.abs _ + Z.abs _ + Z.abs _)%Z).
  assert (Hs : (0 <= s <= 765)%Z) by (unfold s; lia).
  clearbody s. pose proof (third_floor s Hs) as Hf.
  destruct (Qle_bool (inject_Z k) (inject_Z s / 3)) eqn:E.
  - apply Qle_bool_iff. apply Qle_bool_iff in E. apply Zle_Qfloor.
    rewrite Hf. apply Zle_Qfloor. exact E.
  - apply not_true_is_false. intros E'. apply Qle_bool_iff in E'.
    apply Zle_Qfloor in E'. rewrite Hf in E'. apply Zle_Qfloor in E'.
    apply Qle_bool_iff in E'. congruence.
Qed.

(** X1: for a whole threshold, as the slider of the app gives it, the
    heatmap has four bytes for each of the [w * h] pixels; every pixel is
    pure red, with alpha 0 or between 40 and 220, and the alpha is non-zero
    exactly on the unmasked pixels whose binary64 difference [d] reaches the
    threshold. *)
Theorem heatmap_shape (a b : ImageData) (k : Z) (ic idk : bool)
    (heat : list Z) (s : DiffStats) :
  computeDiff a b (inject_Z k) ic idk = Return (heat, s) ->
  let n := (Nat.min (width a) (width b) * Nat.min (height a) (height b))%nat in
  List.length heat = (4 * n)%nat
  /\ forall i, (i < n)%nat ->
       nth (i * 4) heat 0%Z = 255%Z
       /\ nth (i * 4 + 1) heat 0%Z = 0%Z
       /\ nth (i * 4 + 2) heat 0%Z = 0%Z
       /\ (nth (i * 4 + 3) heat 0%Z = 0 \/ 40 <= nth (i * 4 + 3) heat 0%Z <= 220)%Z
       /\ (nth (i * 4 + 3) heat 0%Z <> 0%Z
           <-> masked ic idk (data a) (data b) i = false
               /\ hot64 (inject_Z k) (data a) (data b) i = true).
Proof.
  intros H. destruct (heatmap_shape_exact _ _ _ _ _ _ _ H) as [Hl Hp].
  cbn zeta in *. split; [exact Hl|]. intros i Hi.
  destruct (Hp i Hi) as (H0 & H1 & H2 & H3 & H4).
  repeat (split; [assumption|]).
  rewrite hot64_whole_threshold, H4, Qle_bool_iff. reflexivity.
Qed.

Lemma heatmap_shape_witness :
  List.length (List.concat (repeat [255; 0; 0; 67]%Z 4)) = 16%nat.
Proof.
  assert (E : computeDiff (solid 2 2 x64 x64 x64) (solid 2 2 x8c x8c x64)
                (inject_Z 20) false false
              = Return (List.concat (repeat [255; 0; 0; 67]%Z 4),
                        mkDiffStats 2 2 (8640 # 324) (400 # 4)))
    by (vm_compute; reflexivity).
  exact (proj1 (heatmap_shape _ _ _ _ _ _ _ E)).
Defined.

(** The threshold is a whole number on purpose: at [1.6666666666666667],
    the double just above five thirds, a pixel whose differences add up to
    5 is hot in binary64 and not over the exact quotient. *)
Example hot64_between_third_and_double :
  hot64 (7505999378950827 # 4503599627370496)
        [x05; x00; x00; xff] [x00; x00; x00; xff] 0 = true
  /\ Qle_bool (7505999378950827 # 4503599627370496)
              (pixelDiff [x05; x00; x00; xff] [x00; x00; x00; xff] 0) = false.
Proof. split; vm_compute; reflexivity. Qed.

(** X2: the statistics stay in their ranges, [0 <= meanDiff <= 255] and
    [0 <= changedPercent <= 100], and carry the common size of the two
    buffers. *)
Theorem stats_in_range (a b : ImageData) (t : Q) (ic idk : bool)
    (heat : list Z) (s : DiffStats) :
  computeDiff a b t ic idk = Return (heat, s) ->
  (0 <= meanDiff s)%Q /\ (meanDiff s <= 255)%Q
  /\ (0 <= changedPercent s)%Q /\ (changedPercent s <= 100)%Q
  /\ stats_width s = Nat.min (width a) (width b)
  /\ stats_height s = Nat.min (height a) (height b).
Proof.
  unfold computeDiff.
  set (n := (Nat.min (width a) (width b) * Nat.min (height a) (height b))%nat).
  destruct (Nat.eqb (considered (diffLoop t ic idk (data a) (data b) n)) 0) eqn:E;
    [discriminate|].
  apply Nat.eqb_neq in E. intros H. injection H as _ <-. simpl.
  pose proof (natQ_pos _ E) as Hpos.
  destruct (fold_sum_range t ic idk (data a) (data b) (seq 0 n) acc0) as [Hs0 Hs1];
    [vm_compute; discriminate | vm_compute; discriminate |].
  pose proof (fold_changed_le ic idk (data a) (data b) t (seq 0 n) acc0) as Hc.
  cbv beta in Hc.
  fold (diffLoop t ic idk (data a) (data b) n) in Hs0, Hs1, Hc.
  specialize (Hc (Nat.le_refl 0)).
  set (r := diffLoop t ic idk (data a) (data b) n) in *.
  assert (Hcq : (natQ (changed r) <= natQ (considered r))%Q).
  { unfold natQ. rewrite <- Zle_Qle. lia. }
  assert (Hc0 : (0 <= natQ (changed r))%Q).
  { unfold natQ. change 0%Q with (inject_Z 0). rewrite <- Zle_Qle. lia. }
  assert (Hinv : (0 < / natQ (considered r))%Q) by (apply Qinv_lt_0_compat; exact Hpos).
  assert (Hone : (natQ (considered r) * / natQ (considered r) == 1)%Q).
  { apply Qmult_inv_r. intros Hz. rewrite Hz in Hpos. discriminate Hpos. }
  unfold Qdiv. repeat split.
  - apply Qmult_le_0_compat; Lqa.lra.
  - apply (Qmult_le_r _ _ (natQ (considered r)) Hpos).
    rewrite <- Qmult_assoc, (Qmult_comm (/ _)), Hone. Lqa.lra.
  - apply Qmult_le_0_compat; [apply Qmult_le_0_compat; Lqa.lra | Lqa.lra].
  - assert (H1 : (natQ (changed r) * / natQ (considered r) <= 1)%Q).
    { apply (Qmult_le_r _ _ (natQ (considered r)) Hpos).
      rewrite <- Qmult_assoc, (Qmult_comm (/ _)), Hone. Lqa.lra. }
    Lqa.lra.
Qed.

Lemma stats_in_range_witness :
  (0 <= 8640 # 324)%Q /\ (8640 # 324 <= 255)%Q.
Proof.
  assert (E : computeDiff (solid 2 2 x64 x64 x64) (solid 2 2 x8c x8c x64) 20 false false
              = Return (List.concat (repeat [255; 0; 0; 67]%Z 4),
                        mkDiffStats 2 2 (8640 # 324) (400 # 4)))
    by (vm_compute; reflexivity).
  destruct (stats_in_range _ _ _ _ _ _ _ E) as (H0 & H1 & _).
  split; assumption.
Defined.

Lemma fold_changed_all (t : Q) (ic idk : bool) (ad bd : list byte) (l : list nat) :
  (t <= 0)%Q ->
  forall acc,
    changed acc = considered acc ->
    changed (fold_left (diffStep t ic idk ad bd) l acc)
    = considered (fold_left (diffStep t ic idk ad bd) l acc).
Proof.
  intros Ht. induction l as [|i l IH]; intros acc H; simpl; [exact H|].
  apply IH. unfold diffStep. destruct (masked ic idk ad bd i); simpl; [exact H|].
  destruct (pixelDiff_range ad bd i) as [Hd _].
  assert (E : Qle_bool t (pixelDiff ad bd i) = true) by (apply Qle_bool_iff; Lqa.lra).
  rewrite E, H. reflexivity.
Qed.

Lemma fold_changed_none (t : Q) (ic idk : bool) (ad bd : list byte) (l : list nat) :
  (255 < t)%Q ->
  forall acc,
    changed (fold_left (diffStep t ic idk ad bd) l acc) = changed acc.
Proof.
  intros Ht. induction l as [|i l IH]; intros acc; simpl; [reflexivity|].
  rewrite IH. unfold diffStep. destruct (masked ic idk ad bd i); simpl; [reflexivity|].
  destruct (pixelDiff_range ad bd i) as [_ Hd].
  destruct (Qle_bool t (pixelDiff ad bd i)) eqn:E; [|reflexivity].
  apply Qle_bool_iff in E. exfalso. Lqa.lra.
Qed.

(** X3: at a threshold of 0 or less every considered pixel counts as
    changed ([changedPercent = 100]); above 255 none does
    ([changedPercent = 0]). *)
Theorem threshold_extremes (a b : ImageData) (t : Q) (ic idk : bool)
    (heat : list Z) (s : DiffStats) :
  computeDiff a b t ic idk = Return (heat, s) ->
  ((t <= 0)%Q -> (changedPercent s == 100)%Q)
  /\ ((255 < t)%Q -> (changedPercent s == 0)%Q).
Proof.
  unfold computeDiff.
  set (n := (Nat.min (width a) (width b) * Nat.min (height a) (height b))%nat).
  destruct (Nat.eqb (considered (diffLoop t ic idk (data a) (data b) n)) 0) eqn:E;
    [discriminate|].
  apply Nat.eqb_neq in E. intros H. injection H as _ <-. simpl.
  pose proof (natQ_pos _ E) as Hpos. split; intros Ht.
  - unfold diffLoop in *.
    rewrite (fold_changed_all t ic idk (data a) (data b) (seq 0 n) Ht acc0 eq_refl).
    field. intros Hz. rewrite Hz in Hpos. discriminate Hpos.
  - unfold diffLoop in *.
    rewrite (fold_changed_none t ic idk (data a) (data b) (seq 0 n) Ht acc0).
    simpl. unfold natQ at 1. simpl. field.
    intros Hz. rewrite Hz in Hpos. discriminate Hpos.
Qed.

Lemma threshold_extremes_witness : (400 # 4 == 100)%Q.
Proof.
  assert (E : computeDiff (solid 2 2 x64 x64 x64) (solid 2 2 x8c x8c x64) 0 false false
              = Return (List.concat (repeat [255; 0; 0; 67]%Z 4),
                        mkDiffStats 2 2 (8640 # 324) (400 # 4)))
    by (vm_compute; reflexivity).
  apply (proj1 (threshold_extremes _ _ _ _ _ _ _ E)). discriminate.
Defined.

Lemma fold_left_pointwise {A B : Type} (f g : A -> B -> A) (l : list B) :
  (forall acc x, f acc x = g acc x) ->
  forall acc, fold_left f l acc = fold_left g l acc.
Proof.
  intros H. induction l as [|x l IH]; intros acc; simpl; [reflexivity|].
  rewrite H. apply IH.
Qed.

(** X4: the diff does not care which image is called "before": swapping
    the two buffers gives the same heatmap and the same statistics, or the
    same error. *)
Theorem computeDiff_symmetric (a b : ImageData) (t : Q) (ic idk : bool) :
  computeDiff a b t ic idk = computeDiff b a t ic idk.
Proof.
  unfold computeDiff, diffLoop.
  rewrite (Nat.min_comm (width b)), (Nat.min_comm (height b)).
  rewrite (fold_left_pointwise (diffStep t ic idk (data a) (data b))
             (diffStep t ic idk (data b) (data a))); [reflexivity|].
  intros acc i. unfold diffStep.
  rewrite (masked_sym ic idk (data a) (data b)), (pixelDiff_sym (data a) (data b)).
  reflexivity.
Qed.

Lemma filter_all {A : Type} (f : A -> bool) (l : list A) :
  (forall x, f x = true) -> filter f l = l.
Proof.
  intros H. induction l as [|x l IH]; simpl; [reflexivity|].
  rewrite H, IH. reflexivity.
Qed.

(** X5: with both masks switched off every pixel is considered, so on
    images that are not empty the diff never fails with "All pixels were
    masked": it returns, whatever the threshold. *)
Theorem computeDiff_unmasked_returns (a b : ImageData) (t : Q) :
  (1 <= Nat.min (width a) (width b))%nat ->
  (1 <= Nat.min (height a) (height b))%nat ->
  consideredCount a b false false
  = (Nat.min (width a) (width b) * Nat.min (height a) (height b))%nat
  /\ exists heat s, computeDiff a b t false false = Return (heat, s).
Proof.
  intros Hw Hh.
  assert (Ec : consideredCount a b false false
               = (Nat.min (width a) (width b) * Nat.min (height a) (height b))%nat).
  { unfold consideredCount. rewrite filter_all by reflexivity. apply length_seq. }
  split; [exact Ec|].
  unfold computeDiff. rewrite considered_count, Ec.
  replace (Nat.eqb (Nat.min (width a) (width b) * Nat.min (height a) (height b)) 0)
    with false by (symmetry; apply Nat.eqb_neq; nia).
  eexists. eexists. reflexivity.
Qed.

Lemma computeDiff_unmasked_returns_witness :
  exists heat s,
    computeDiff (solid 2 2 x64 x64 x64) (solid 2 2 x8c x8c x64) 20 false false
    = Return (heat, s).
Proof.
  destruct (computeDiff_unmasked_returns (solid 2 2 x64 x64 x64) (solid 2 2 x8c x8c x64) 20)
    as [_ H]; [cbn; lia | cbn; lia | exact H].
Defined.

End DiffMore.

(** ** Preview crop *)

Module PreviewProps.
Import Preview.

Local Open Scope Q_scope.

(** Names every [Qmax] and [Qmin] in sight and splits on which side wins. *)
Ltac minmax :=
  repeat match goal with
         | |- context [Qmax ?x ?y] =>
             let m := fresh "m" in
             pose proof (Q.max_spec x y); set (m := Qmax x y) in *; clearbody m
         | |- context [Qmin ?x ?y] =>
             let m := fresh "m" in
             pose proof (Q.min_spec x y); set (m := Qmin x y) in *; clearbody m
         | H : context [Qmax ?x ?y] |- _ =>
             let m := fresh "m" in
             pose proof (Q.max_spec x y); set (m := Qmax x y) in *; clearbody m
         | H : context [Qmin ?x ?y] |- _ =>
             let m := fresh "m" in
             pose proof (Q.min_spec x y); set (m := Qmin x y) in *; clearbody m
         end;
  repeat match goal with
         | H : _ \/ _ |- _ => destruct H as [[? ?] | [? ?]]
         end.

Lemma natQ_ge_1 (n : nat) : (1 <= n)%nat -> 1 <= inject_Z (Z.of_nat n).
Proof.
  intros H. change 1 with (inject_Z 1). rewrite <- Zle_Qle. lia.
Qed.

(** X6: whatever the two footprints, the crop rectangle of an image at
    least one pixel wide and high starts at non-negative coordinates, is at
    least one pixel wide and high, and reaches beyond the image only when
    it had to be widened to that one-pixel minimum. *)
Theorem cropRect_well_formed (w h : nat) (itemBbox selectionBbox : option QBBox) :
  (1 <= w)%nat -> (1 <= h)%nat ->
  let r := cropRectForBboxes w h itemBbox selectionBbox in
  0 <= sx r /\ 0 <= sy r /\ 1 <= sw r /\ 1 <= sh r
  /\ (sw r == 1 \/ sx r + sw r <= inject_Z (Z.of_nat w))
  /\ (sh r == 1 \/ sy r + sh r <= inject_Z (Z.of_nat h)).
Proof.
  intros Hw Hh. apply natQ_ge_1 in Hw, Hh. cbn zeta. unfold cropRectForBboxes.
  set (W := inject_Z (Z.of_nat w)) in *. set (H := inject_Z (Z.of_nat h)) in *.
  assert (Full : 0 <= sx (mkCropRect 0 0 W H) /\ 0 <= sy (mkCropRect 0 0 W H)
                 /\ 1 <= sw (mkCropRect 0 0 W H) /\ 1 <= sh (mkCropRect 0 0 W H)
                 /\ (sw (mkCropRect 0 0 W H) == 1
                     \/ sx (mkCropRect 0 0 W H) + sw (mkCropRect 0 0 W H) <= W)
                 /\ (sh (mkCropRect 0 0 W H) == 1
                     \/ sy (mkCropRect 0 0 W H) + sh (mkCropRect 0 0 W H) <= H)).
  { simpl. repeat split; try Lqa.lra; right; Lqa.lra. }
  destruct itemBbox as [i|]; [|exact Full].
  destruct selectionBbox as [s|]; [|exact Full].
  destruct (Qle_bool (qMaxLng i - qMinLng i) 0 || Qle_bool (qMaxLat i - qMinLat i) 0);
    [exact Full|].
  cbn [sx sy sw sh].
  set (x0 := (qMinLng s - qMinLng i) / (qMaxLng i - qMinLng i) * W).
  set (x1 := (qMaxLng s - qMinLng i) / (qMaxLng i - qMinLng i) * W).
  set (y0 := (qMaxLat i - qMaxLat s) / (qMaxLat i - qMinLat i) * H).
  set (y1 := (qMaxLat i - qMinLat s) / (qMaxLat i - qMinLat i) * H).
  clearbody x0 x1 y0 y1. clear Full.
  split; [apply Q.le_max_l|]. split; [apply Q.le_max_l|].
  split; [apply Q.le_max_l|]. split; [apply Q.le_max_l|].
  split.
  - destruct (Q.max_spec 1 (Qmin W (Qmax x0 x1) - Qmax 0 (Qmin x0 x1))) as [[Hlt E] | [Hle E]].
    + right. rewrite E. pose proof (Q.le_min_l W (Qmax x0 x1)). Lqa.lra.
    + left. exact E.
  - destruct (Q.max_spec 1 (Qmin H (Qmax y0 y1) - Qmax 0 (Qmin y0 y1))) as [[Hlt E] | [Hle E]].
    + right. rewrite E. pose proof (Q.le_min_l H (Qmax y0 y1)). Lqa.lra.
    + left. exact E.
Qed.

Lemma cropRect_well_formed_witness :
  let r := cropRectForBboxes 100 50 (Some (mkQBBox 0 0 10 10)) (Some (mkQBBox 2 2 4 4)) in
  0 <= sx r /\ 0 <= sy r /\ 1 <= sw r /\ 1 <= sh r
  /\ (sw r == 1 \/ sx r + sw r <= inject_Z (Z.of_nat 100))
  /\ (sh r == 1 \/ sy r + sh r <= inject_Z (Z.of_nat 50)).
Proof.
  apply (cropRect_well_formed 100 50 (Some (mkQBBox 0 0 10 10)) (Some (mkQBBox 2 2 4 4)));
    lia.
Defined.

(** X7: a selection equal to the item's footprint crops nothing: the
    rectangle is the whole image. *)
Theorem cropRect_whole_footprint (w h : nat) (i : QBBox) :
  (1 <= w)%nat -> (1 <= h)%nat ->
  qMinLng i < qMaxLng i -> qMinLat i < qMaxLat i ->
  let r := cropRectForBboxes w h (Some i) (Some i) in
  sx r == 0 /\ sy r == 0
  /\ sw r == inject_Z (Z.of_nat w) /\ sh r == inject_Z (Z.of_nat h).
Proof.
  intros Hw Hh Hlng Hlat. apply natQ_ge_1 in Hw, Hh. cbn zeta.
  unfold cropRectForBboxes.
  set (W := inject_Z (Z.of_nat w)) in *. set (H := inject_Z (Z.of_nat h)) in *.
  assert (E1 : Qle_bool (qMaxLng i - qMinLng i) 0 = false).
  { destruct (Qle_bool (qMaxLng i - qMinLng i) 0) eqn:E; [|reflexivity].
    apply Qle_bool_iff in E. exfalso. Lqa.lra. }
  assert (E2 : Qle_bool (qMaxLat i - qMinLat i) 0 = false).
  { destruct (Qle_bool (qMaxLat i - qMinLat i) 0) eqn:E; [|reflexivity].
    apply Qle_bool_iff in E. exfalso. Lqa.lra. }
  rewrite E1, E2. cbn [orb sx sy sw sh].
  assert (X0 : (qMinLng i - qMinLng i) / (qMaxLng i - qMinLng i) * W == 0)
    by (field; intros Hz; Lqa.lra).
  assert (X1 : (qMaxLng i - qMinLng i) / (qMaxLng i - qMinLng i) * W == W)
    by (field; intros Hz; Lqa.lra).
  assert (Y0 : (qMaxLat i - qMaxLat i) / (qMaxLat i - qMinLat i) * H == 0)
    by (field; intros Hz; Lqa.lra).
  assert (Y1 : (qMaxLat i - qMinLat i) / (qMaxLat i - qMinLat i) * H == H)
    by (field; intros Hz; Lqa.lra).
  rewrite X0, X1, Y0, Y1.
  repeat split; minmax; Lqa.lra.
Qed.

Lemma cropRect_whole_footprint_witness :
  let r := cropRectForBboxes 100 50 (Some (mkQBBox 0 0 10 10)) (Some (mkQBBox 0 0 10 10)) in
  sx r == 0 /\ sy r == 0
  /\ sw r == inject_Z (Z.of_nat 100) /\ sh r == inject_Z (Z.of_nat 50).
Proof.
  apply (cropRect_whole_footprint 100 50 (mkQBBox 0 0 10 10)); try lia; reflexivity.
Defined.

(** X8: the working size of the preview fallback is at least 1 x 1 and at
    most 640 pixels wide, for any two crop rectangles. *)
Theorem previewSize_bounds (cropA cropB : CropRect) :
  (1 <= fst (previewSize cropA cropB) <= 640)%Z
  /\ (1 <= snd (previewSize cropA cropB))%Z.
Proof.
  unfold previewSize. cbn [fst snd].
  set (baseW := Qmin (sw cropA) (sw cropB)). set (baseH := Qmin (sh cropA) (sh cropB)).
  clearbody baseW baseH.
  assert (Hx : baseW * Qmin 1 (640 / Qmax baseW 1) <= 640).
  { destruct (Q.max_spec baseW 1) as [[Hlt E] | [Hle E]]; rewrite E.
    - assert (E1 : 640 / 1 == 640) by reflexivity. rewrite E1.
      destruct (Q.min_spec 1 640) as [[_ Em] | [Hc _]]; [rewrite Em | Lqa.lra].
      Lqa.lra.
    - pose proof (Q.le_min_r 1 (640 / baseW)) as Hs.
      assert (Hm : baseW * Qmin 1 (640 / baseW) <= baseW * (640 / baseW)).
      { apply Qmult_le_l; [Lqa.lra | exact Hs]. }
      assert (E1 : baseW * (640 / baseW) == 640) by (field; intros Hz; Lqa.lra).
      Lqa.lra. }
  apply Qfloor_resp_le in Hx. change (Qfloor 640) with 640%Z in Hx. lia.
Qed.

End PreviewProps.

(** ** Region pickers *)

Module RegionProps.
Import Projector Region ProjectorProps.

Local Open Scope R_scope.

Ltac rminmax := unfold Rmin, Rmax; repeat destruct (Rle_dec _ _); simpl; try lra.

(** X9: the box through two clicked corners does not depend on the order
    of the clicks, has [min <= max] on both axes and holds both corners. *)
Theorem normalizeBbox_ordered (a b : Point) :
  normalizeBbox a b = normalizeBbox b a
  /\ minLng (normalizeBbox a b) <= maxLng (normalizeBbox a b)
  /\ minLat (normalizeBbox a b) <= maxLat (normalizeBbox a b)
  /\ (minLng (normalizeBbox a b) <= fst a <= maxLng (normalizeBbox a b)
      /\ minLat (normalizeBbox a b) <= snd a <= maxLat (normalizeBbox a b))
  /\ (minLng (normalizeBbox a b) <= fst b <= maxLng (normalizeBbox a b)
      /\ minLat (normalizeBbox a b) <= snd b <= maxLat (normalizeBbox a b)).
Proof.
  split.
  { unfold normalizeBbox.
    rewrite (Rmin_comm (fst a)), (Rmax_comm (fst a)), (Rmin_comm (snd a)),
      (Rmax_comm (snd a)). reflexivity. }
  split; [simpl; rminmax|]. split; [simpl; rminmax|].
  split; simpl; repeat split; rminmax.
Qed.


(** X12: the circle drawn on the map lies inside the box that is searched
    for the same centre and radius: the ring has [steps + 1] points, each
    within the box of [bboxFromCenterRadius].  (For [steps = 0] the source
    divides 0 by 0.) *)
Theorem circle_inside_bbox (center : Point) (radiusKm : R) (steps : nat) :
  0 <= radiusKm -> (0 < steps)%nat ->
  let box := bboxFromCenterRadius center radiusKm in
  List.length (circleToFeatureCollection center radiusKm steps) = S steps
  /\ Forall (fun p => minLng box <= fst p <= maxLng box
                      /\ minLat box <= snd p <= maxLat box)
            (circleToFeatureCollection center radiusKm steps).
Proof.
  intros Hr Hs. destruct center as [lng lat]. cbn zeta.
  unfold circleToFeatureCollection, bboxFromCenterRadius.
  set (dLng := if Rlt_dec 0 (111.320 * cos (lat * PI / 180))
               then radiusKm / (111.320 * cos (lat * PI / 180))
               else radiusKm / 111.320).
  set (dLat := radiusKm / 110.574).
  assert (HdLng : 0 <= dLng).
  { unfold dLng. destruct (Rlt_dec 0 (111.320 * cos (lat * PI / 180))) as [H | H];
      apply Rmult_le_pos; try exact Hr; left; apply Rinv_0_lt_compat; lra. }
  assert (HdLat : 0 <= dLat).
  { unfold dLat. apply Rmult_le_pos; [exact Hr|]. left. apply Rinv_0_lt_compat. lra. }
  split; [rewrite length_map, length_seq; reflexivity|].
  apply Forall_forall. intros p Hp. apply in_map_iff in Hp.
  destruct Hp as (i & <- & _). cbn [fst snd minLng maxLng minLat maxLat].
  pose proof (COS_bound (INR i / INR steps * PI * 2)) as Hc.
  pose proof (SIN_bound (INR i / INR steps * PI * 2)) as Hsn.
  repeat split; nra.
Qed.

Lemma circle_inside_bbox_witness :
  List.length (circleToFeatureCollection (13, 52) 5 64) = 65%nat.
Proof.
  destruct (circle_inside_bbox (13, 52) 5 64) as [H _]; [lra | lia | exact H].
Defined.

End RegionProps.

(** ** Tile URLs *)

Module TemplateProps.
Import Template.

Local Open Scope string_scope.

Lemma prefix_app (p s : string) : String.prefix p (p ++ s) = true.
Proof.
  induction p as [|c p IH]; simpl; [destruct s; reflexivity|].
  destruct (ascii_dec c c) as [_ | N]; [exact IH | contradiction].
Qed.

Lemma substring_all (s : string) : String.substring 0 (String.length s) s = s.
Proof.
  induction s as [|c s IH]; simpl; [reflexivity | rewrite IH; reflexivity].
Qed.

Lemma substring_drop (p s : string) :
  String.substring (String.length p) (String.length s) (p ++ s) = s.
Proof.
  induction p as [|c p IH]; simpl; [apply substring_all | exact IH].
Qed.

Lemma length_append (p s : string) :
  String.length (p ++ s) = (String.length p + String.length s)%nat.
Proof.
  induction p as [|c p IH]; simpl; [reflexivity | rewrite IH; reflexivity].
Qed.

Lemma append_assoc (a b c : string) : (a ++ b) ++ c = a ++ b ++ c.
Proof.
  induction a as [|x a IH]; simpl; [reflexivity | rewrite IH; reflexivity].
Qed.

Lemma replaceFirst_unfold (pat rep s : string) :
  replaceFirst pat rep s
  = if String.prefix pat s
    then rep ++ String.substring (String.length pat)
                  (String.length s - String.length pat) s
    else match s with
         | EmptyString => EmptyString
         | String c s' => String c (replaceFirst pat rep s')
         end.
Proof. destruct s; reflexivity. Qed.

(** The pattern at the head of the string is the one replaced. *)
Lemma replaceFirst_here (pat rep post : string) :
  replaceFirst pat rep (pat ++ post) = rep ++ post.
Proof.
  rewrite replaceFirst_unfold, prefix_app, length_append.
  replace (String.length pat + String.length post - String.length pat)%nat
    with (String.length post) by lia.
  rewrite substring_drop. reflexivity.
Qed.

(** Text without an opening brace is stepped over. *)
Lemma replaceFirst_skip (p rep pre s : string) :
  braceFree pre = true ->
  replaceFirst (String "{" p) rep (pre ++ s) = pre ++ replaceFirst (String "{" p) rep s.
Proof.
  induction pre as [|c pre IH]; intros H; [reflexivity|].
  simpl in H. apply andb_prop in H. destruct H as [Hc Hpre].
  cbn [append replaceFirst String.prefix].
  destruct (ascii_dec "{" c) as [<- | N]; [discriminate Hc|].
  rewrite (IH Hpre). reflexivity.
Qed.

Lemma replaceFirst_absent (p rep s : string) :
  braceFree s = true -> replaceFirst (String "{" p) rep s = s.
Proof.
  intros H. induction s as [|c s IH]; [reflexivity|].
  simpl in H. apply andb_prop in H. destruct H as [Hc Hs].
  cbn [replaceFirst String.prefix].
  destruct (ascii_dec "{" c) as [<- | N]; [discriminate Hc|].
  rewrite (IH Hs). reflexivity.
Qed.

Lemma braceFree_app (a b : string) :
  braceFree (a ++ b) = braceFree a && braceFree b.
Proof.
  induction a as [|c a IH]; simpl; [reflexivity|].
  rewrite IH, andb_assoc. reflexivity.
Qed.

Lemma braceFree_uint (d : Decimal.uint) : braceFree (NilEmpty.string_of_uint d) = true.
Proof.
  induction d; simpl; try reflexivity; exact IHd.
Qed.

(** A printed integer is digits, with a minus sign at most. *)
Lemma braceFree_String_of (n : Z) : braceFree (String_of n) = true.
Proof.
  unfold String_of, NilZero.string_of_int.
  destruct (Z.to_int n) as [d | d].
  - unfold NilZero.string_of_uint. destruct d; try apply braceFree_uint; reflexivity.
  - cbn [braceFree]. unfold NilZero.string_of_uint.
    destruct d; try apply braceFree_uint; reflexivity.
Qed.

(** X13: on a template whose text around [{z}], [{x}] and [{y}] (in that
    order) has no opening brace, [fillTemplate] puts the three numbers in
    place of the three placeholders and leaves the rest as it is. *)
Theorem fillTemplate_zxy (a b c d : string) (z x y : Z) :
  braceFree a = true -> braceFree b = true ->
  braceFree c = true -> braceFree d = true ->
  fillTemplate (a ++ "{z}" ++ b ++ "{x}" ++ c ++ "{y}" ++ d) z x y
  = a ++ String_of z ++ b ++ String_of x ++ c ++ String_of y ++ d.
Proof.
  intros Ha Hb Hc Hd. unfold fillTemplate.
  pose proof (braceFree_String_of z) as Hz.
  pose proof (braceFree_String_of x) as Hx.
  rewrite (replaceFirst_skip "z}" _ a) by exact Ha.
  rewrite (replaceFirst_here "{z}").
  (* {x} *)
  rewrite (replaceFirst_skip "x}" _ a) by exact Ha.
  rewrite (replaceFirst_skip "x}" _ (String_of z)) by exact Hz.
  rewrite (replaceFirst_skip "x}" _ b) by exact Hb.
  rewrite (replaceFirst_here "{x}").
  (* {y} *)
  rewrite (replaceFirst_skip "y}" _ a) by exact Ha.
  rewrite (replaceFirst_skip "y}" _ (String_of z)) by exact Hz.
  rewrite (replaceFirst_skip "y}" _ b) by exact Hb.
  rewrite (replaceFirst_skip "y}" _ (String_of x)) by exact Hx.
  rewrite (replaceFirst_skip "y}" _ c) by exact Hc.
  rewrite (replaceFirst_here "{y}").
  reflexivity.
Qed.

Lemma fillTemplate_zxy_witness :
  fillTemplate ("/api/wayback/tile?v=7&z=" ++ "{z}" ++ "&x=" ++ "{x}" ++ "&y=" ++ "{y}" ++ "")
    16 (-19) 0
  = "/api/wayback/tile?v=7&z=" ++ String_of 16 ++ "&x=" ++ String_of (-19) ++ "&y="
    ++ String_of 0 ++ "".
Proof.
  apply (fillTemplate_zxy "/api/wayback/tile?v=7&z=" "&x=" "&y=" "" 16 (-19) 0);
    reflexivity.
Defined.

(** X14: a template without any opening brace has no placeholder and comes
    back unchanged, the same URL for every tile; and only the first
    occurrence of a placeholder is filled in, a second [{z}] stays. *)
Theorem fillTemplate_edge_cases (a b c : string) (z x y : Z) :
  braceFree a = true -> braceFree b = true -> braceFree c = true ->
  fillTemplate a z x y = a
  /\ fillTemplate (a ++ "{z}" ++ b ++ "{z}" ++ c) z x y
     = a ++ String_of z ++ b ++ "{z}" ++ c.
Proof.
  intros Ha Hb Hc. pose proof (braceFree_String_of z) as Hz. split.
  - unfold fillTemplate.
    rewrite (replaceFirst_absent "z}" _ a Ha), (replaceFirst_absent "x}" _ a Ha),
      (replaceFirst_absent "y}" _ a Ha).
    reflexivity.
  - unfold fillTemplate.
    rewrite (replaceFirst_skip "z}" _ a) by exact Ha.
    rewrite (replaceFirst_here "{z}").
    rewrite (replaceFirst_skip "x}" _ a) by exact Ha.
    rewrite (replaceFirst_skip "x}" _ (String_of z)) by exact Hz.
    rewrite (replaceFirst_skip "x}" _ b) by exact Hb.
    assert (Ex : replaceFirst "{x}" (String_of x) ("{z}" ++ c) = "{z}" ++ c).
    { cbn. rewrite (replaceFirst_absent "x}" _ c Hc). reflexivity. }
    rewrite Ex.
    rewrite (replaceFirst_skip "y}" _ a) by exact Ha.
    rewrite (replaceFirst_skip "y}" _ (String_of z)) by exact Hz.
    rewrite (replaceFirst_skip "y}" _ b) by exact Hb.
    assert (Ey : replaceFirst "{y}" (String_of y) ("{z}" ++ c) = "{z}" ++ c).
    { cbn. rewrite (replaceFirst_absent "y}" _ c Hc). reflexivity. }
    rewrite Ey. reflexivity.
Qed.

Lemma fillTemplate_edge_cases_witness :
  fillTemplate "https://example.org/tile.png" 3 1 2 = "https://example.org/tile.png".
Proof.
  apply (fillTemplate_edge_cases "https://example.org/tile.png" "" "" 3 1 2); reflexivity.
Defined.

End TemplateProps.

(** ** Probe with retries *)

Module RetryProps.
Import Retry.

Local Open Scope Z_scope.

Lemma seq_snoc (n : nat) : seq 0 (S n) = seq 0 n ++ [n].
Proof. rewrite seq_S. reflexivity. Qed.

Lemma retryFrom_spec (probe : nat -> option string) (retries left : nat) :
  forall attempt log,
    (attempt + left = S retries)%nat ->
    probes log = attempt ->
    sleeps log = map backoff (seq 0 (Nat.min attempt retries)) ->
    (forall k, (k < attempt)%nat -> truthy (probe k) = false) ->
    let res := fst (retryFrom probe retries left attempt log) in
    let log' := snd (retryFrom probe retries left attempt log) in
    (attempt <= probes log' <= S retries)%nat
    /\ (left <> 0%nat -> (1 <= probes log')%nat)
    /\ (attempt <> 0%nat \/ left <> 0%nat ->
        sleeps log' = map backoff (seq 0 (probes log' - 1)))
    /\ match res with
       | Some h =>
           h <> EmptyString /\ probe (probes log' - 1)%nat = Some h
           /\ forall k, (k < probes log' - 1)%nat -> truthy (probe k) = false
       | None =>
           probes log' = S retries
           /\ forall k, (k <= retries)%nat -> truthy (probe k) = false
       end.
Proof.
  induction left as [|left IH]; intros attempt log Hsum Hp Hs Hfail; cbn zeta.
  - cbn [retryFrom fst snd]. rewrite Hp. split; [lia|]. split; [intros H; contradiction|].
    split.
    + intros _. rewrite Hs. f_equal. f_equal. lia.
    + split; [lia|]. intros k Hk. apply Hfail. lia.
  - cbn [retryFrom]. destruct (truthy (probe attempt)) eqn:E.
    + cbn [fst snd probes sleeps]. rewrite Hp.
      split; [lia|]. split; [intros _; lia|]. split.
      * intros _. rewrite Hs. f_equal. f_equal. lia.
      * replace (S attempt - 1)%nat with attempt by lia.
        destruct (probe attempt) as [h|] eqn:Eh; [|discriminate E].
        split; [|split; [reflexivity | exact Hfail]].
        intros ->. discriminate E.
    + set (log2 := if (attempt <? retries)%nat
                   then mkRetryLog (S (probes log)) (sleeps log ++ [200 * (Z.of_nat attempt + 1)])
                   else mkRetryLog (S (probes log)) (sleeps log)).
      cbn [probes sleeps].
      fold log2.
      assert (Hp2 : probes log2 = S attempt).
      { unfold log2. destruct (attempt <? retries)%nat; simpl; lia. }
      assert (Hs2 : sleeps log2 = map backoff (seq 0 (Nat.min (S attempt) retries))).
      { unfold log2. destruct (attempt <? retries)%nat eqn:El.
        - apply Nat.ltb_lt in El. cbn [sleeps]. rewrite Hs.
          replace (Nat.min attempt retries) with attempt by lia.
          replace (Nat.min (S attempt) retries) with (S attempt) by lia.
          rewrite seq_snoc, map_app. reflexivity.
        - apply Nat.ltb_ge in El. cbn [sleeps]. rewrite Hs. f_equal. f_equal. lia. }
      assert (Hf2 : forall k, (k < S attempt)%nat -> truthy (probe k) = false).
      { intros k Hk. destruct (Nat.eq_dec k attempt) as [-> | N]; [exact E|].
        apply Hfail. lia. }
      specialize (IH (S attempt) log2 ltac:(lia) Hp2 Hs2 Hf2). cbn zeta in IH.
      destruct IH as (I1 & I2 & I3 & I4).
      split; [lia|]. split; [intros _; lia|]. split; [intros _; apply I3; left; lia|].
      exact I4.
Qed.

Lemma sum_backoff (n : nat) :
  fold_right Z.add 0 (map backoff (seq 0 n)) = 100 * Z.of_nat n * (Z.of_nat n + 1).
Proof.
  induction n as [|n IH]; [reflexivity|].
  rewrite seq_snoc, map_app, fold_right_app. cbn [map fold_right].
  assert (G : forall (l : list Z) (c : Z),
             fold_right Z.add c l = fold_right Z.add 0 l + c).
  { induction l as [|x l IHl]; intros c; simpl; [lia | rewrite IHl; lia]. }
  rewrite G, IH. unfold backoff. lia.
Qed.

(** X15: [probeTileHashWithRetry] calls the probe at least once and at most
    [retries + 1] times and returns the first hash it gets, never an empty
    one; it returns nothing exactly when all [retries + 1] probes fail.
    After the [k]-th failed probe it pauses [200 * (k + 1)] ms, except
    after the last one, so it never waits more than
    [100 * retries * (retries + 1)] ms in all (600 ms by default). *)
Theorem probeTileHashWithRetry_spec (probe : nat -> option string) (retries : nat) :
  let res := fst (probeTileHashWithRetry probe retries) in
  let log := snd (probeTileHashWithRetry probe retries) in
  (1 <= probes log <= S retries)%nat
  /\ sleeps log = map (fun k => 200 * (Z.of_nat k + 1)) (seq 0 (probes log - 1))
  /\ fold_right Z.add 0 (sleeps log) <= 100 * Z.of_nat retries * (Z.of_nat retries + 1)
  /\ match res with
     | Some h =>
         h <> EmptyString /\ probe (probes log - 1)%nat = Some h
         /\ forall k, (k < probes log - 1)%nat -> truthy (probe k) = false
     | None =>
         probes log = S retries
         /\ forall k, (k <= retries)%nat -> truthy (probe k) = false
     end.
Proof.
  cbn zeta. unfold probeTileHashWithRetry.
  destruct (retryFrom_spec probe retries (S retries) 0 (mkRetryLog 0 []))
    as (H1 & H2 & H3 & H4); [lia | reflexivity | reflexivity | intros k Hk; lia |].
  cbn zeta in *.
  specialize (H2 ltac:(discriminate)). specialize (H3 ltac:(right; discriminate)).
  split; [lia|]. split; [exact H3|]. split; [|exact H4].
  rewrite H3, sum_backoff.
  set (p := probes (snd (retryFrom probe retries (S retries) 0 (mkRetryLog 0 [])))) in *.
  nia.
Qed.

End RetryProps.

(** ** STAC search route *)

Module StacRouteProps.
Import Selector SelectorProps StacRoute.

Local Open Scope Z_scope.

Lemma pickClosest_none (features : list StacFeature) (targetMs : Z) :
  pickClosest features targetMs = None
  <-> forall g, In g features -> datetimeMs g = None.
Proof.
  pose proof (closestFold_inv targetMs features [] (None, None)) as Inv.
  cbn [app] in Inv. unfold pickClosest.
  destruct (fold_left (closestStep targetMs) features (None, None)) as [[b|] [d|]];
    simpl in Inv; cbn [fst].
  - destruct Inv as (p1 & p2 & ms & Ef & Hb & _); [intros g []|].
    split; [discriminate|]. intros H. rewrite (H b) in Hb; [discriminate|].
    rewrite Ef. apply in_or_app. right. left. reflexivity.
  - exfalso. apply Inv. intros g [].
  - exfalso. apply Inv. intros g [].
  - split; [intros _; apply Inv; intros g [] | reflexivity].
Qed.

(** The closest pick is an item of the list, it is dated, and no dated item
    is nearer to the target. *)
Lemma pickClosest_nearest (features : list StacFeature) (targetMs : Z) (best : StacFeature) :
  pickClosest features targetMs = Some best ->
  In best features
  /\ exists ms, datetimeMs best = Some ms
       /\ forall g ms', In g features -> datetimeMs g = Some ms' ->
                        Z.abs (ms - targetMs) <= Z.abs (ms' - targetMs).
Proof.
  pose proof (closestFold_inv targetMs features [] (None, None)) as Inv.
  cbn [app] in Inv. unfold pickClosest.
  destruct (fold_left (closestStep targetMs) features (None, None)) as [[b|] [d|]];
    simpl in Inv; cbn [fst]; intros H; try discriminate H.
  - injection H as <-.
    destruct Inv as (p1 & p2 & ms & Ef & Hb & _ & Hlt & Hle); [intros g []|].
    split; [rewrite Ef; apply in_or_app; right; left; reflexivity|].
    exists ms. split; [exact Hb|]. intros g ms' Hg Hd.
    rewrite Ef in Hg. apply in_app_or in Hg. destruct Hg as [Hg | [<- | Hg]].
    + specialize (Hlt g ms' Hg Hd). lia.
    + rewrite Hb in Hd. injection Hd as <-. lia.
    + exact (Hle g ms' Hg Hd).
  - exfalso. apply Inv. intros g [].
Qed.

Lemma pickClearest_none (features : list StacFeature) (targetMs : Z) (m : Q) :
  pickClearest features targetMs m = None
  <-> forall g, In g features -> datetimeMs g = None \/ cloudCoverPct g = None.
Proof.
  rewrite pickClearest_pool, <- candidatesOf_nil. split.
  - intros H.
    destruct (Array_sort leqClearest (poolOf features targetMs m)) eqn:E; [|discriminate H].
    apply Array_sort_nil in E. unfold poolOf in E.
    destruct (filter _ (candidatesOf features targetMs)); [exact E | discriminate E].
  - intros E. unfold poolOf. rewrite E. reflexivity.
Qed.

Lemma daysBetween_mono (a b t : Z) :
  Z.abs (a - t) <= Z.abs (b - t) -> (daysBetween a t <= daysBetween b t)%Q.
Proof.
  intros H. unfold daysBetween. apply Binary64Props.RN_mono.
  unfold Qdiv. apply Qmult_le_compat_r; [|discriminate].
  apply Binary64Props.RN_mono. rewrite <- Zle_Qle. exact H.
Qed.

(** A scored closest pick is always in the pool the clearest pick is taken
    from. *)
Lemma closest_in_pool (features : list StacFeature) (targetMs : Z) (m : Q)
    (b : StacFeature) (ms : Z) (cl : Q) :
  pickClosest features targetMs = Some b ->
  datetimeMs b = Some ms -> cloudCoverPct b = Some cl ->
  In (mkCandidate b cl (daysBetween ms targetMs)) (poolOf features targetMs m).
Proof.
  intros Hp Hms Hcl.
  destruct (pickClosest_nearest _ _ _ Hp) as (Hin & ms0 & Hms0 & Hmin).
  rewrite Hms in Hms0. injection Hms0 as <-.
  assert (Hc : In (mkCandidate b cl (daysBetween ms targetMs))
                  (candidatesOf features targetMs)).
  { apply candidatesOf_in. cbn [f cloud dtDays]. split; [|reflexivity].
    split; [exact Hin|]. exists ms. repeat split; assumption. }
  apply poolOf_in. split; [exact Hc|]. cbn [dtDays].
  destruct (filter (fun c => Qle_bool (dtDays c) m) (candidatesOf features targetMs))
    as [|x near] eqn:E.
  - right. intros c' Hc' Hle.
    assert (Hx : In c' (filter (fun c => Qle_bool (dtDays c) m)
                                (candidatesOf features targetMs))).
    { apply filter_In. split; [exact Hc' | apply Qle_bool_iff; exact Hle]. }
    rewrite E in Hx. destruct Hx.
  - left. assert (Hx : In x (x :: near)) by (left; reflexivity).
    rewrite <- E in Hx. apply filter_In in Hx. destruct Hx as [Hx Hxle].
    apply Qle_bool_iff in Hxle.
    apply candidatesOf_in in Hx. destruct Hx as [(Hxin & msx & Hxms & _ & Hxd) _].
    eapply Qle_trans; [|exact Hxle]. rewrite Hxd.
    apply daysBetween_mono. exact (Hmin _ _ Hxin Hxms).
Qed.

(** The clearest pick is no cloudier than any item of its pool. *)
Lemma pickClearest_le_pool (features : list StacFeature) (targetMs : Z) (m : Q)
    (c : Candidate) :
  In c (poolOf features targetMs m) ->
  exists best clb,
    pickClearest features targetMs m = Some best
    /\ In best features
    /\ cloudCoverPct best = Some clb /\ (clb <= cloud c)%Q.
Proof.
  intros Hc. rewrite pickClearest_pool.
  destruct (Array_sort leqClearest (poolOf features targetMs m)) as [|x rest] eqn:E.
  - apply Array_sort_nil in E. rewrite E in Hc. destruct Hc.
  - destruct (Array_sort_head leqClearest leqClearest_total leqClearest_trans _ _ _ E)
      as [Hin Hmin].
    apply poolOf_in in Hin. destruct Hin as [Hin _].
    apply candidatesOf_in in Hin. destruct Hin as [(Hxin & msx & _ & Hxcl & _) _].
    exists (f x), (cloud x). repeat split; try assumption.
    specialize (Hmin c Hc). apply leqClearest_lexLe in Hmin.
    destruct Hmin as [Hlt | [Heq _]]; Lqa.lra.
Qed.

(** X16: which error the route answers.  Dates that do not parse or are in
    the wrong order give "invalid date range" before anything else; an
    empty reply gives "no imagery"; "could not pick" is answered exactly
    when the reply is not empty but none of its items carries a datetime. *)
Theorem respond_errors (features : list StacFeature) (startMs endMs : option Z) (m : Q) :
  (respond features startMs endMs m = Throw InvalidDateRange
   <-> startMs = None \/ endMs = None
       \/ exists s e, startMs = Some s /\ endMs = Some e /\ e < s)
  /\ (respond features startMs endMs m = Throw NoImagery
      <-> features = [] /\ exists s e, startMs = Some s /\ endMs = Some e /\ s <= e)
  /\ (respond features startMs endMs m = Throw CouldNotPick
      <-> features <> []
          /\ (forall g, In g features -> datetimeMs g = None)
          /\ exists s e, startMs = Some s /\ endMs = Some e /\ s <= e).
Proof.
  unfold respond.
  destruct startMs as [s|], endMs as [e|];
    try (split; [split; [intros _; auto | reflexivity] |
         split; (split; [discriminate | intros H; decompose [and ex] H; discriminate])]).
  destruct (s >? e) eqn:Ese.
  - assert (e < s) by lia. split; [|split].
    + split; [intros _; right; right; exists s, e; auto | reflexivity].
    + split; [discriminate|]. intros (_ & s' & e' & Es & Ee & Hle).
      injection Es as <-. injection Ee as <-. lia.
    + split; [discriminate|]. intros (_ & _ & s' & e' & Es & Ee & Hle).
      injection Es as <-. injection Ee as <-. lia.
  - assert (Hse : s <= e) by lia.
    destruct features as [|x l].
    + split; [|split].
      * split; [discriminate|]. intros [H | [H | (s' & e' & Es & Ee & Hlt)]];
          try discriminate. injection Es as <-. injection Ee as <-. lia.
      * split; [intros _; split; [reflexivity | exists s, e; auto] | reflexivity].
      * split; [discriminate | intros [H _]; contradiction].
    + set (fs := x :: l).
      destruct (pickClosest fs s) as [b|] eqn:Eb.
      * assert (Hsome : ~ forall g, In g fs -> datetimeMs g = None).
        { intros H. apply (proj2 (pickClosest_none fs s)) in H.
          rewrite Eb in H. discriminate. }
        assert (Ea : pickClosest fs e <> None).
        { intros H. apply Hsome. apply (proj1 (pickClosest_none fs e)). exact H. }
        destruct (pickClosest fs e) as [a|]; [|contradiction].
        split; [|split].
        -- split; [discriminate|]. intros [H | [H | (s' & e' & Es & Ee & Hlt)]];
             try discriminate. injection Es as <-. injection Ee as <-. lia.
        -- split; [discriminate | intros [H _]; discriminate].
        -- split; [discriminate | intros (_ & H & _); contradiction].
      * assert (Hnone : forall g, In g fs -> datetimeMs g = None)
          by (apply (proj1 (pickClosest_none fs s)); exact Eb).
        split; [|split].
        -- split; [discriminate|]. intros [H | [H | (s' & e' & Es & Ee & Hlt)]];
             try discriminate. injection Es as <-. injection Ee as <-. lia.
        -- split; [discriminate | intros [H _]; discriminate].
        -- split; [|reflexivity]. intros _. split; [discriminate|].
           split; [exact Hnone | exists s, e; auto].
Qed.

(** X17: in a reply with picks, [beforeClear] and [afterClear] are absent
    together, exactly when no item carries both a datetime and a cloud
    cover; all picks are items of the catalogue's reply, and the "clearest"
    variant of the app, which falls back on the closest picks, is so too. *)
Theorem respond_clear_picks (features : list StacFeature) (startMs endMs : option Z)
    (m : Q) (p : Picks) :
  respond features startMs endMs m = Return p ->
  (beforeClear p = None <-> afterClear p = None)
  /\ (beforeClear p = None
      <-> forall g, In g features -> datetimeMs g = None \/ cloudCoverPct g = None)
  /\ In (before p) features /\ In (after p) features
  /\ In (fst (pickVariant p Clearest)) features
  /\ In (snd (pickVariant p Clearest)) features.
Proof.
  unfold respond. destruct startMs as [s|]; [|discriminate].
  destruct endMs as [e|]; [|discriminate].
  destruct (s >? e); [discriminate|].
  destruct features as [|x l]; [discriminate|]. set (fs := x :: l).
  destruct (pickClosest fs s) as [b|] eqn:Eb; [|discriminate].
  destruct (pickClosest fs e) as [a|] eqn:Ea; [|discriminate].
  intros H. injection H as <-. cbn [beforeClear afterClear before after pickVariant fst snd].
  destruct (pickClosest_nearest _ _ _ Eb) as [Hb _].
  destruct (pickClosest_nearest _ _ _ Ea) as [Ha _].
  assert (Hclear : forall t best, pickClearest fs t m = Some best -> In best fs).
  { intros t best Hbest. rewrite pickClearest_pool in Hbest.
    destruct (Array_sort leqClearest (poolOf fs t m)) as [|c rest] eqn:E; [discriminate|].
    injection Hbest as <-.
    destruct (Array_sort_head leqClearest leqClearest_total leqClearest_trans _ _ _ E)
      as [Hin _].
    apply poolOf_in in Hin. destruct Hin as [Hin _].
    apply candidatesOf_in in Hin. apply Hin. }
  split; [rewrite !pickClearest_none; reflexivity|].
  split; [apply pickClearest_none|].
  split; [exact Hb|]. split; [exact Ha|]. split.
  - destruct (pickClearest fs s m) eqn:E; [apply (Hclear s); exact E | exact Hb].
  - destruct (pickClearest fs e m) eqn:E; [apply (Hclear e); exact E | exact Ha].
Qed.

Lemma respond_clear_picks_witness :
  In item0101 catalogue /\ In item0105 catalogue.
Proof.
  assert (E : respond catalogue (Some (parseUtcDateMs 2024 1 3))
                (Some (parseUtcDateMs 2024 1 8)) 14
              = Return (mkPicks item0101 item0110 (Some item0105) (Some item0105)))
    by (vm_compute; reflexivity).
  destruct (respond_clear_picks _ _ _ _ _ E) as (_ & _ & H1 & _ & H2 & _).
  split; assumption.
Defined.

(** X18: when the closest pick has a cloud cover, a clearest pick exists
    for the same date and is no cloudier; this holds for both dates, and
    for every window. *)
Theorem respond_clearest_no_cloudier (features : list StacFeature)
    (startMs endMs : option Z) (m : Q) (p : Picks) :
  respond features startMs endMs m = Return p ->
  (forall cl, cloudCoverPct (before p) = Some cl ->
     exists bc clc, beforeClear p = Some bc /\ cloudCoverPct bc = Some clc
                    /\ (clc <= cl)%Q)
  /\ (forall cl, cloudCoverPct (after p) = Some cl ->
        exists ac clc, afterClear p = Some ac /\ cloudCoverPct ac = Some clc
                       /\ (clc <= cl)%Q).
Proof.
  unfold respond. destruct startMs as [s|]; [|discriminate].
  destruct endMs as [e|]; [|discriminate].
  destruct (s >? e); [discriminate|].
  destruct features as [|x l]; [discriminate|]. set (fs := x :: l).
  destruct (pickClosest fs s) as [b|] eqn:Eb; [|discriminate].
  destruct (pickClosest fs e) as [a|] eqn:Ea; [|discriminate].
  intros H. injection H as <-. cbn [beforeClear afterClear before after].
  assert (G : forall t c, pickClosest fs t = Some c ->
              forall cl, cloudCoverPct c = Some cl ->
              exists best clc, pickClearest fs t m = Some best
                               /\ cloudCoverPct best = Some clc /\ (clc <= cl)%Q).
  { intros t c Hc cl Hcl.
    destruct (pickClosest_nearest _ _ _ Hc) as (_ & ms & Hms & _).
    pose proof (closest_in_pool fs t m c ms cl Hc Hms Hcl) as Hpool.
    destruct (pickClearest_le_pool fs t m _ Hpool) as (best & clb & E1 & _ & E2 & E3).
    exists best, clb. repeat split; assumption. }
  split; [apply (G s b Eb) | apply (G e a Ea)].
Qed.

Lemma respond_clearest_no_cloudier_witness :
  exists bc clc, Some item0105 = Some bc /\ cloudCoverPct bc = Some clc /\ (clc <= 80)%Q.
Proof.
  assert (E : respond catalogue (Some (parseUtcDateMs 2024 1 3))
                (Some (parseUtcDateMs 2024 1 8)) 14
              = Return (mkPicks item0101 item0110 (Some item0105) (Some item0105)))
    by (vm_compute; reflexivity).
  destruct (respond_clearest_no_cloudier _ _ _ _ _ E) as [H _].
  apply (H 80%Q). reflexivity.
Defined.

(** X19: the window handed to [pickClearest] is always between 0 and 90
    days: a finite [maxCloudOffsetDays] is clamped to that range (it is
    not rounded), anything else gives 14 days, or 30 for Landsat. *)
Theorem maxCloudOffsetDays_window (v : Wayback.JsValue) (c : Collection) :
  (0 <= maxCloudOffsetDaysOf v c <= 90)%Q
  /\ (forall q, v = Wayback.JsNum (Wayback.Finite q) -> (0 <= q <= 90)%Q ->
                (maxCloudOffsetDaysOf v c == q)%Q)
  /\ ((forall q, v <> Wayback.JsNum (Wayback.Finite q)) ->
      maxCloudOffsetDaysOf v c = match c with Landsat => 30%Q | Sentinel2 => 14%Q end).
Proof.
  split; [|split].
  - unfold maxCloudOffsetDaysOf.
    destruct v as [| | | |[q| |]]; try (destruct c; split; discriminate).
    destruct (Q.max_spec q 0) as [[L1 E1] | [L1 E1]];
      destruct (Q.min_spec (Qmax q 0) 90) as [[L2 E2] | [L2 E2]];
      rewrite E2, ?E1 in *; split; Lqa.lra.
  - intros q -> [H0 H90]. unfold maxCloudOffsetDaysOf.
    destruct (Q.max_spec q 0) as [[L1 E1] | [L1 E1]];
      destruct (Q.min_spec (Qmax q 0) 90) as [[L2 E2] | [L2 E2]];
      rewrite E2, ?E1 in *; Lqa.lra.
  - intros N. unfold maxCloudOffsetDaysOf.
    destruct v as [| | | |[q| |]]; try reflexivity.
    exfalso. apply (N q). reflexivity.
Qed.

Lemma maxCloudOffsetDays_window_witness :
  (maxCloudOffsetDaysOf (Wayback.JsNum (Wayback.Finite (5 # 2))) Landsat == 5 # 2)%Q
  /\ maxCloudOffsetDaysOf (Wayback.JsString "7") Landsat = 30%Q.
Proof.
  split.
  - destruct (maxCloudOffsetDays_window (Wayback.JsNum (Wayback.Finite (5 # 2))) Landsat)
      as (_ & H & _).
    apply H; [reflexivity | split; discriminate].
  - destruct (maxCloudOffsetDays_window (Wayback.JsString "7") Landsat) as (_ & _ & H).
    apply H. intros q. discriminate.
Defined.

End StacRouteProps.

(** ** More on the tile mosaic loader *)

Module MosaicMore.
Import Projector Mosaic ProjectorProps MosaicProps.

Local Open Scope Z_scope.

Lemma zrange_In (n : nat) :
  forall s v, In v (zrange s n) <-> s <= v < s + Z.of_nat n.
Proof.
  induction n as [|n IH]; intros s v; cbn [zrange In].
  - lia.
  - rewrite IH. lia.
Qed.

Lemma zrange_NoDup (n : nat) : forall s, NoDup (zrange s n).
Proof.
  induction n as [|n IH]; intros s; cbn [zrange]; constructor.
  - rewrite zrange_In. lia.
  - apply IH.
Qed.

Lemma tileList_In (c : TileRange) (tx ty : Z) :
  In (tx, ty) (tileList c)
  <-> x0 c <= tx < x0 c + Z.of_nat (Z.to_nat (tilesX c))
      /\ y0 c <= ty < y0 c + Z.of_nat (Z.to_nat (tilesY c)).
Proof.
  unfold tileList. rewrite in_flat_map. split.
  - intros (y & Hy & Hin). apply in_map_iff in Hin.
    destruct Hin as (x & E & Hx). injection E as <- <-.
    rewrite zrange_In in Hx, Hy. split; assumption.
  - intros [Hx Hy]. exists ty. rewrite zrange_In. split; [exact Hy|].
    apply in_map_iff. exists tx. rewrite zrange_In. split; [reflexivity | exact Hx].
Qed.

(** In the range of [calc] the requested columns and rows are those from
    [x0] to [x1] and from [y0] to [y1]. *)
Lemma tileList_calc_In (bbox : BBox) (z : nat) (tx ty : Z) :
  In (tx, ty) (tileList (calc bbox z))
  <-> x0 (calc bbox z) <= tx <= x1 (calc bbox z)
      /\ y0 (calc bbox z) <= ty <= y1 (calc bbox z).
Proof.
  rewrite tileList_In. cbn [calc x0 x1 y0 y1 tilesX tilesY]. lia.
Qed.

Lemma row_NoDup (ty : Z) (cols : list Z) :
  NoDup cols -> NoDup (map (fun tx => (tx, ty)) cols).
Proof.
  induction 1 as [|x l Hx Hl IH]; cbn [map]; constructor; [|exact IH].
  intros Hin. apply in_map_iff in Hin. destruct Hin as (x' & E & Hx').
  injection E as ->. contradiction.
Qed.

Lemma grid_NoDup (cols rows : list Z) :
  NoDup cols -> NoDup rows ->
  NoDup (flat_map (fun ty => map (fun tx => (tx, ty)) cols) rows).
Proof.
  intros Hc. induction 1 as [|y l Hy Hl IH]; cbn [flat_map]; [constructor|].
  apply NoDup_app; [apply row_NoDup; exact Hc | exact IH |].
  intros [tx ty] H1 H2. apply in_map_iff in H1. destruct H1 as (x & E & _).
  injection E as _ <-. apply in_flat_map in H2. destruct H2 as (y' & Hy' & H2).
  apply in_map_iff in H2. destruct H2 as (x' & E & _). injection E as _ ->.
  contradiction.
Qed.

Lemma tileList_NoDup (c : TileRange) : NoDup (tileList c).
Proof. apply grid_NoDup; apply zrange_NoDup. Qed.

(** A fetch loop that runs to its end has asked for every tile, none of
    the requests was rejected, and [missing] has grown by the number of
    responses that were not [ok]; in strict mode all were [ok]. *)
Lemma fetchTiles_return (env : Env) (allow : bool) (z : nat) (tiles : list (Z * Z)) :
  forall (missing : nat) (issued issued' : list (Z * Z)) (missing' : nat),
    fetchTiles env allow z tiles missing issued = (issued', Return missing') ->
    issued' = issued ++ tiles
    /\ (forall tx ty, In (tx, ty) tiles ->
          fetchTile env z tx ty <> FetchRejected
          /\ (allow = false -> fetchTile env z tx ty = FetchOk))
    /\ (missing' = missing
                   + List.length
                       (filter (fun t => match fetchTile env z (fst t) (snd t) with
                                         | FetchOk => false
                                         | _ => true
                                         end) tiles))%nat.
Proof.
  induction tiles as [|[tx0 ty0] rest IH]; intros missing issued issued' missing' H;
    cbn [fetchTiles] in H.
  - injection H as <- <-. rewrite app_nil_r. cbn [filter List.length].
    split; [reflexivity|]. split; [intros tx ty []|]. lia.
  - cbn [filter fst snd].
    destruct (fetchTile env z tx0 ty0) eqn:E.
    + destruct (IH _ _ _ _ H) as (H1 & H2 & H3).
      split; [rewrite H1, <- app_assoc; reflexivity|].
      split; [|exact H3].
      intros tx' ty' [Eq | Hin]; [|apply H2; exact Hin].
      injection Eq as <- <-. rewrite E. split; [discriminate | reflexivity].
    + destruct allow; [|discriminate H].
      destruct (IH _ _ _ _ H) as (H1 & H2 & H3).
      split; [rewrite H1, <- app_assoc; reflexivity|].
      split; [|cbn [List.length]; lia].
      intros tx' ty' [Eq | Hin]; [|apply H2; exact Hin].
      injection Eq as <- <-. rewrite E. split; discriminate.
    + discriminate H.
Qed.

Lemma fetchTiles_served (env : Env) (allow : bool) (z : nat) (tiles : list (Z * Z)) :
  (forall tx ty, In (tx, ty) tiles -> fetchTile env z tx ty = FetchOk) ->
  forall missing issued,
    fetchTiles env allow z tiles missing issued = (issued ++ tiles, Return missing).
Proof.
  induction tiles as [|[tx ty] rest IH]; intros Hok missing issued; cbn [fetchTiles].
  - rewrite app_nil_r. reflexivity.
  - rewrite (Hok tx ty) by (left; reflexivity).
    rewrite IH by (intros tx' ty' Hin; apply Hok; right; exact Hin).
    rewrite <- app_assoc. reflexivity.
Qed.

(** The output is never wider than [maxW = 1024]. *)
Lemma scaled_width_le (sw : R) :
  (sw * Rmin 1 (1024 / Rmax sw 1) <= 1024)%R.
Proof.
  unfold Rmax. destruct (Rle_dec sw 1) as [H1 | H1].
  - unfold Rmin. destruct (Rle_dec 1 (1024 / 1)); lra.
  - assert (Hs : (1 < sw)%R) by lra.
    unfold Rmin. destruct (Rle_dec 1 (1024 / sw)) as [H2 | H2].
    + apply (Rmult_le_compat_r sw) in H2; [|lra].
      unfold Rdiv in H2. rewrite Rmult_assoc, Rinv_l in H2 by lra. lra.
    + right. field. lra.
Qed.

Lemma Math_floor_IZR (k : Z) : Math_floor (IZR k) = k.
Proof. apply Math_floor_unique. lra. Qed.

Lemma ratio_below (missing : nat) (total : Z) :
  0 < total ->
  Qle_bool (7 # 10) (inject_Z (Z.of_nat missing) / inject_Z total) = false ->
  10 * Z.of_nat missing < 7 * total.
Proof.
  intros Ht H. destruct (Z_lt_ge_dec (10 * Z.of_nat missing) (7 * total)) as [L | G];
    [exact L|].
  exfalso. assert (B : Qle_bool (7 # 10) (inject_Z (Z.of_nat missing) / inject_Z total) = true).
  { apply Qle_bool_iff. apply Qle_shift_div_l.
    - change 0%Q with (inject_Z 0). rewrite <- Zlt_Qlt. exact Ht.
    - unfold Qle, Qmult, inject_Z. cbn [Qnum Qden]. lia. }
  congruence.
Qed.

(** What a successful attempt has done. *)
Lemma attempt_return (env : Env) (bbox : BBox) (allow : bool) (z : nat)
    (issued : list (Z * Z)) (m : Mosaic) :
  attempt env bbox allow z = (issued, Return m) ->
  canvas2d env = true
  /\ issued = tileList (calc bbox z)
  /\ usedZoom m = z
  /\ 1 <= outW m <= 1024 /\ 1 <= outH m
  /\ (forall tx ty, In (tx, ty) (tileList (calc bbox z)) ->
        fetchTile env z tx ty <> FetchRejected
        /\ (allow = false -> fetchTile env z tx ty = FetchOk))
  /\ (allow = true ->
      0 < tileCount bbox z
      /\ 10 * Z.of_nat (List.length
                          (filter (fun t => match fetchTile env z (fst t) (snd t) with
                                            | FetchOk => false
                                            | _ => true
                                            end) (tileList (calc bbox z))))
         < 7 * tileCount bbox z).
Proof.
  unfold attempt. destruct (canvas2d env); cbn [negb]; [|discriminate].
  destruct (fetchTiles env allow z (tileList (calc bbox z)) 0 []) as [iss [e|missing]] eqn:E;
    [discriminate|].
  destruct (fetchTiles_return _ _ _ _ _ _ _ _ E) as (H1 & H2 & H3).
  cbn [app Nat.add] in H1, H3.
  destruct (allow && Qle_bool _ _) eqn:Eg; [discriminate|].
  intros H. injection H as <- <-. cbn [usedZoom outW outH].
  split; [reflexivity|]. split; [exact H1|]. split; [reflexivity|].
  split.
  { split; [lia|]. apply Z.max_lub; [lia|].
    pose proof (Math_floor_le _ _ (scaled_width_le
                  (px (pMax (calc bbox z)) - px (pMin (calc bbox z))))) as Hle.
    rewrite (Math_floor_IZR 1024) in Hle. exact Hle. }
  split; [lia|]. split; [exact H2|].
  intros ->. cbn [andb] in Eg. unfold tileCount.
  destruct (tilesX (calc bbox z) * tilesY (calc bbox z) >? 0) eqn:Et.
  - assert (Ht : 0 < tilesX (calc bbox z) * tilesY (calc bbox z)) by lia.
    split; [exact Ht|]. rewrite <- H3. apply ratio_below; assumption.
  - discriminate Eg.
Qed.

(** A successful run of the attempt loop ends on its successful attempt,
    after failed ones only. *)
Lemma attemptLoop_return (env : Env) (bbox : BBox) (allow : bool) (left : nat) :
  forall z lastErr m,
    snd (attemptLoop env bbox allow left z lastErr) = Return m ->
    exists init z1 issued,
      fst (attemptLoop env bbox allow left z lastErr)
      = init ++ [mkAttemptLog z1 issued None]
      /\ Forall (fun a => att_error a <> None) init
      /\ (List.length (fst (attemptLoop env bbox allow left z lastErr)) <= left)%nat
      /\ (z1 <= z)%nat
      /\ attempt env bbox allow z1 = (issued, Return m).
Proof.
  induction left as [|l IH]; intros z lastErr m; cbn [attemptLoop];
    [cbn [snd]; discriminate|].
  destruct (attempt env bbox allow (budget bbox z)) as [issued [e|m']] eqn:Ea.
  - destruct (budget bbox z) as [|z2] eqn:Ez; [cbn [snd]; discriminate|].
    specialize (IH z2 (Some e) m).
    destruct (attemptLoop env bbox allow l z2 (Some e)) as [trace r].
    cbn [fst snd] in *. intros Hr.
    destruct (IH Hr) as (init & z1 & iss & Et & Hf & Hl & Hz & Hat).
    exists (mkAttemptLog (S z2) issued (Some e) :: init), z1, iss.
    split; [rewrite Et; reflexivity|].
    split; [constructor; [discriminate | exact Hf]|].
    split; [cbn [List.length]; lia|].
    split; [|exact Hat].
    pose proof (budget_le bbox z). lia.
  - cbn [fst snd]. intros Hr. injection Hr as <-.
    exists [], (budget bbox z), issued.
    split; [reflexivity|]. split; [constructor|].
    split; [cbn [List.length]; lia|].
    split; [apply budget_le | exact Ea].
Qed.

Lemma initialZoom_le (requestedZoom : R) : (initialZoom requestedZoom <= 24)%nat.
Proof. unfold initialZoom. lia. Qed.

(** X20: when the loader returns a mosaic, a canvas was available; the
    zoom used is at most the requested one, rounded and clamped to 24; the
    mosaic is between 1 and 1024 pixels wide and at least 1 high; the
    successful attempt is the last of at most six, follows failed ones
    only, and asked for every tile of its range.  None of these requests
    was rejected; in strict mode all were served, in tolerant mode the
    range is not empty and fewer than 70 % of its tiles are missing. *)
Theorem loader_success (env : Env) (bbox : BBox) (requestedZoom : R)
    (allowMissingTiles : bool) (m : Mosaic) :
  snd (loadBboxImageFromTiles env bbox requestedZoom allowMissingTiles) = Return m ->
  let trace := fst (loadBboxImageFromTiles env bbox requestedZoom allowMissingTiles) in
  let tiles := tileList (calc bbox (usedZoom m)) in
  let notOk := fun t : Z * Z =>
                 match fetchTile env (usedZoom m) (fst t) (snd t) with
                 | FetchOk => false
                 | _ => true
                 end in
  canvas2d env = true
  /\ (usedZoom m <= initialZoom requestedZoom <= 24)%nat
  /\ 1 <= outW m <= 1024 /\ 1 <= outH m
  /\ (exists init,
        trace = init ++ [mkAttemptLog (usedZoom m) tiles None]
        /\ Forall (fun a => att_error a <> None) init)
  /\ (List.length trace <= 6)%nat
  /\ (forall tx ty, In (tx, ty) tiles ->
        fetchTile env (usedZoom m) tx ty <> FetchRejected)
  /\ (allowMissingTiles = false ->
      forall tx ty, In (tx, ty) tiles -> fetchTile env (usedZoom m) tx ty = FetchOk)
  /\ (allowMissingTiles = true ->
      0 < tileCount bbox (usedZoom m)
      /\ 10 * Z.of_nat (List.length (filter notOk tiles))
         < 7 * tileCount bbox (usedZoom m)).
Proof.
  unfold loadBboxImageFromTiles. intros Hr. cbn zeta.
  destruct (attemptLoop_return _ _ _ _ _ _ _ Hr)
    as (init & z1 & issued & Et & Hf & Hl & Hz & Hat).
  destruct (attempt_return _ _ _ _ _ _ Hat) as (Hc & Hi & Hu & Hw & Hh & Hfetch & Htol).
  rewrite Hu. subst issued.
  split; [exact Hc|]. split; [split; [exact Hz | apply initialZoom_le]|].
  split; [exact Hw|]. split; [exact Hh|].
  split; [exists init; split; assumption|].
  split; [exact Hl|].
  split; [intros tx ty Hin; apply (Hfetch tx ty Hin)|].
  split; [intros Ha tx ty Hin; apply (Hfetch tx ty Hin); exact Ha|].
  exact Htol.
Qed.

Lemma loader_success_witness :
  canvas2d envOk = true
  /\ (usedZoom (mkMosaic 0 1 1) <= initialZoom 0 <= 24)%nat.
Proof.
  assert (E : snd (loadBboxImageFromTiles envOk (mkBBox 0 0 0 0) 0 false)
              = Return (mkMosaic 0 1 1)).
  { unfold loadBboxImageFromTiles.
    replace (initialZoom 0) with 0%nat
      by (symmetry; apply (initialZoom_int 0); lia).
    cbn [attemptLoop budget]. unfold attempt. cbn [envOk canvas2d negb].
    rewrite fetchTiles_all_ok by reflexivity.
    cbn [andb snd]. f_equal. cbn [calc pMin pMax px py lonLatToWorldPx minLng maxLng
      minLat maxLat]. rewrite !Rminus_diag, !Rmult_0_l.
    rewrite (Math_floor_IZR 0). reflexivity. }
  destruct (loader_success _ _ _ _ _ E) as (H1 & H2 & _).
  split; [exact H1 | exact H2].
Defined.

(** X21: the requests of an attempt are the tiles of its range in row
    order, up to the point where the attempt stopped: no tile is asked for
    twice within an attempt, and every requested tile lies between [x0]
    and [x1] and between [y0] and [y1], so it is drawn inside the mosaic
    canvas. *)
Theorem attempt_requests (env : Env) (bbox : BBox) (requestedZoom : R)
    (allowMissingTiles : bool) :
  Forall (fun a =>
            let c := calc bbox (att_zoom a) in
            (exists rest, tileList c = att_fetched a ++ rest)
            /\ NoDup (att_fetched a)
            /\ forall tx ty, In (tx, ty) (att_fetched a) ->
                 x0 c <= tx <= x1 c /\ y0 c <= ty <= y1 c
                 /\ 0 <= (tx - x0 c) * 256 <= tilesX c * 256 - 256
                 /\ 0 <= (ty - y0 c) * 256 <= tilesY c * 256 - 256)
         (fst (loadBboxImageFromTiles env bbox requestedZoom allowMissingTiles)).
Proof.
  unfold loadBboxImageFromTiles.
  eapply Forall_impl; [|apply attemptLoop_logged].
  intros a [_ Hf]. cbn zeta.
  assert (Hp : exists rest, tileList (calc bbox (att_zoom a)) = att_fetched a ++ rest).
  { rewrite Hf. unfold attempt. destruct (negb (canvas2d env)).
    - exists (tileList (calc bbox (att_zoom a))). reflexivity.
    - destruct (fetchTiles_issued env allowMissingTiles (att_zoom a)
                  (tileList (calc bbox (att_zoom a))) 0%nat [])
        as (done & rest & Ed & Ei).
      cbn [app] in Ei.
      destruct (fetchTiles env allowMissingTiles (att_zoom a)
                  (tileList (calc bbox (att_zoom a))) 0 []) as [iss [e|missing]];
        cbn [fst] in *.
      + exists rest. rewrite Ei. exact Ed.
      + destruct (allowMissingTiles && _); cbn [fst]; exists rest; rewrite Ei; exact Ed. }
  split; [exact Hp|]. destruct Hp as [rest Hp].
  split.
  - apply (NoDup_app_remove_r _ rest). rewrite <- Hp. apply tileList_NoDup.
  - intros tx ty Hin.
    assert (Ht : In (tx, ty) (tileList (calc bbox (att_zoom a))))
      by (rewrite Hp; apply in_or_app; left; exact Hin).
    apply tileList_calc_In in Ht. cbn [calc x0 x1 y0 y1 tilesX tilesY] in *. lia.
Qed.

(** X22: without a 2d context the loader issues no tile request at all:
    every attempt fails with "Canvas not available" before its first
    request, and that error is what the loader rethrows. *)
Theorem loader_no_canvas (env : Env) (bbox : BBox) (requestedZoom : R)
    (allowMissingTiles : bool) :
  canvas2d env = false ->
  snd (loadBboxImageFromTiles env bbox requestedZoom allowMissingTiles)
  = Throw (Some CanvasNotAvailable)
  /\ Forall (fun a => att_fetched a = [] /\ att_error a = Some CanvasNotAvailable)
            (fst (loadBboxImageFromTiles env bbox requestedZoom allowMissingTiles)).
Proof.
  intros Hc. unfold loadBboxImageFromTiles.
  assert (G : forall left z lastErr,
             (left <> 0%nat ->
              snd (attemptLoop env bbox allowMissingTiles left z lastErr)
              = Throw (Some CanvasNotAvailable))
             /\ Forall (fun a => att_fetched a = [] /\ att_error a = Some CanvasNotAvailable)
                       (fst (attemptLoop env bbox allowMissingTiles left z lastErr))).
  { induction left as [|l IH]; intros z lastErr; cbn [attemptLoop].
    - split; [intros H; contradiction | constructor].
    - unfold attempt. rewrite Hc. cbn [negb].
      destruct (budget bbox z) as [|z2].
      + cbn [fst snd]. split; [reflexivity|]. constructor; [split; reflexivity | constructor].
      + specialize (IH z2 (Some CanvasNotAvailable)).
        destruct (attemptLoop env bbox allowMissingTiles l z2 (Some CanvasNotAvailable))
          as [trace r] eqn:El.
        cbn [fst snd] in *. destruct IH as [IH1 IH2]. split.
        * intros _. destruct l as [|l']; [|apply IH1; discriminate].
          cbn [attemptLoop] in El. injection El as _ <-. reflexivity.
        * constructor; [split; reflexivity | exact IH2]. }
  destruct (G 6%nat (initialZoom requestedZoom) None) as [G1 G2].
  split; [apply G1; discriminate | exact G2].
Qed.

Lemma loader_no_canvas_witness :
  snd (loadBboxImageFromTiles envNoCanvas bboxUnit 6 true)
  = Throw (Some CanvasNotAvailable).
Proof.
  destruct (loader_no_canvas envNoCanvas bboxUnit 6 true) as [H _];
    [reflexivity | exact H].
Defined.



End MosaicMore.

(** ** More on the Wayback timeline route *)

Module WaybackMore.
Import Wayback WaybackProps.

Local Open Scope Z_scope.

Lemma hasSeen_In (h : string) (s : list string) : hasSeen h s = true <-> In h s.
Proof.
  unfold hasSeen. rewrite existsb_exists. split.
  - intros (x & Hx & E). apply String.eqb_eq in E. subst. exact Hx.
  - intros H. exists h. split; [exact H | apply String.eqb_refl].
Qed.

(** Nothing is kept exactly when every probe failed. *)
Lemma firstOfEachHash_nil (c : list (WaybackOption * option string)) :
  firstOfEachHash c [] = [] <-> forall v h, In (v, h) c -> h = None.
Proof.
  induction c as [|[v [h|]] c IH]; cbn [firstOfEachHash].
  - split; [intros _ v h [] | reflexivity].
  - cbn [hasSeen existsb]. split; [discriminate|].
    intros H. specialize (H v (Some h) (or_introl eq_refl)). discriminate H.
  - rewrite IH. split.
    + intros H v' h' [E | Hin]; [injection E as _ <-; reflexivity | apply (H v' h' Hin)].
    + intros H v' h' Hin. apply (H v' h'). right. exact Hin.
Qed.

(** The kept versions come with pairwise different hashes, none of them
    seen before. *)
Lemma firstOfEachHash_distinct (c : list (WaybackOption * option string)) :
  forall s0, exists hs,
    NoDup hs /\ (forall h, In h hs -> ~ In h s0)
    /\ Forall2 (fun v h => In (v, Some h) c) (firstOfEachHash c s0) hs.
Proof.
  induction c as [|[v [h|]] c IH]; intros s0; cbn [firstOfEachHash].
  - exists []. split; [constructor|]. split; [intros h []|constructor].
  - destruct (hasSeen h s0) eqn:E.
    + destruct (IH s0) as (hs & H1 & H2 & H3). exists hs.
      split; [exact H1|]. split; [exact H2|].
      eapply Forall2_impl; [|exact H3]. intros a b Hab. right. exact Hab.
    + destruct (IH (h :: s0)) as (hs & H1 & H2 & H3). exists (h :: hs).
      split.
      { constructor; [|exact H1]. intros Hin. apply (H2 h Hin). left. reflexivity. }
      split.
      { intros h' [<- | Hin].
        - intros Hs. apply hasSeen_In in Hs. congruence.
        - intros Hs. apply (H2 h' Hin). right. exact Hs. }
      constructor; [left; reflexivity|].
      eapply Forall2_impl; [|exact H3]. intros a b Hab. right. exact Hab.
  - destruct (IH s0) as (hs & H1 & H2 & H3). exists hs.
    split; [exact H1|]. split; [exact H2|].
    eapply Forall2_impl; [|exact H3]. intros a b Hab. right. exact Hab.
Qed.

Lemma slices_short {A : Type} (fuel : nat) :
  forall l : list A,
    Forall (fun b => (List.length b <= batchSize)%nat) (slices fuel l).
Proof.
  induction fuel as [|fuel IH]; intros l; cbn [slices]; [constructor|].
  destruct l as [|x l]; [constructor|]. constructor; [|apply IH].
  apply firstn_le_length.
Qed.

Section Ledger.
Variables (now : nat -> Z) (limit : Z).

(** One counted result keeps the books: [probed] is the sum of what was
    kept, what was dropped as a duplicate and what failed; a duplicate
    needs something kept before it; no more than [limit] are kept. *)
Lemma ledger_step (st : ProbeState) (v : WaybackOption) (hash : option string)
    (t : nat) :
  (probed st = List.length (available st) + deduped st + failed st)%nat
  /\ List.length (seen st) = List.length (available st)
  /\ (available st = [] -> deduped st = 0%nat)
  /\ Z.of_nat (List.length (available st)) <= Z.max 0 limit ->
  (limit <=? Z.of_nat (List.length (available st))) = false ->
  let st' :=
    match hash with
    | Some h =>
        if hasSeen h (seen st)
        then mkProbeState (available st) (seen st) (S (deduped st)) (failed st)
               (S (probed st)) t (consumed st ++ [(v, hash)])
        else mkProbeState (available st ++ [v]) (h :: seen st) (deduped st) (failed st)
               (S (probed st)) t (consumed st ++ [(v, hash)])
    | None => mkProbeState (available st) (seen st) (deduped st) (S (failed st))
                (S (probed st)) t (consumed st ++ [(v, hash)])
    end in
  (probed st' = List.length (available st') + deduped st' + failed st')%nat
  /\ List.length (seen st') = List.length (available st')
  /\ (available st' = [] -> deduped st' = 0%nat)
  /\ Z.of_nat (List.length (available st')) <= Z.max 0 limit.
Proof.
  intros (Hp & Hs & Hd & Hl) El. cbn zeta.
  destruct hash as [h|]; [destruct (hasSeen h (seen st)) eqn:E|];
    cbn [available seen deduped failed probed].
  - split; [lia|]. split; [exact Hs|]. split; [|exact Hl].
    intros Ha. exfalso. rewrite Ha in Hs. apply hasSeen_In in E.
    destruct (seen st); [destruct E | discriminate Hs].
  - rewrite length_app. cbn [List.length]. split; [lia|]. split; [lia|].
    split; [|lia]. intros Ha. apply app_eq_nil in Ha. destruct Ha as [_ Ha].
    discriminate Ha.
  - split; [lia|]. split; [exact Hs|]. split; assumption.
Qed.

Lemma consumeResults_ledger (results : list (WaybackOption * option string)) :
  forall st,
    (probed st = List.length (available st) + deduped st + failed st)%nat
    /\ List.length (seen st) = List.length (available st)
    /\ (available st = [] -> deduped st = 0%nat)
    /\ Z.of_nat (List.length (available st)) <= Z.max 0 limit ->
    let st' := consumeResults now limit results st in
    (probed st' = List.length (available st') + deduped st' + failed st')%nat
    /\ List.length (seen st') = List.length (available st')
    /\ (available st' = [] -> deduped st' = 0%nat)
    /\ Z.of_nat (List.length (available st')) <= Z.max 0 limit.
Proof.
  induction results as [|[v hash] rest IH]; intros st H; cbn zeta;
    cbn [consumeResults]; [exact H|].
  destruct (limit <=? Z.of_nat (List.length (available st))) eqn:El; [exact H|].
  pose proof (ledger_step st v hash (tick st) H El) as H1.
  pose proof (ledger_step st v hash (S (tick st)) H El) as H2.
  cbn zeta in H1, H2, IH.
  destruct hash as [h|].
  - destruct (hasSeen h (seen st)); [apply IH; exact H1|].
    cbn [probed tick available seen deduped failed consumed] in *.
    destruct (maxProbes <=? S (probed st))%nat; [exact H1|].
    destruct (now (tick st) - startedAt now >? maxProbeMs); [exact H2|].
    apply IH. exact H2.
  - cbn [probed tick available seen deduped failed consumed] in *.
    destruct (maxProbes <=? S (probed st))%nat; [exact H1|].
    destruct (now (tick st) - startedAt now >? maxProbeMs); [exact H2|].
    apply IH. exact H2.
Qed.

Lemma probeBatches_ledger (batches : list (list (WaybackOption * option string))) :
  forall st,
    (probed st = List.length (available st) + deduped st + failed st)%nat
    /\ List.length (seen st) = List.length (available st)
    /\ (available st = [] -> deduped st = 0%nat)
    /\ Z.of_nat (List.length (available st)) <= Z.max 0 limit ->
    let st' := probeBatches now limit batches st in
    (probed st' = List.length (available st') + deduped st' + failed st')%nat
    /\ List.length (seen st') = List.length (available st')
    /\ (available st' = [] -> deduped st' = 0%nat)
    /\ Z.of_nat (List.length (available st')) <= Z.max 0 limit.
Proof.
  induction batches as [|batch rest IH]; intros st H; cbn zeta;
    cbn [probeBatches]; [exact H|].
  destruct (limit <=? Z.of_nat (List.length (available st))); [exact H|].
  destruct (maxProbes <=? probed st)%nat; [exact H|].
  destruct (now (tick st) - startedAt now >? maxProbeMs); [exact H|].
  apply IH. apply consumeResults_ledger. exact H.
Qed.

(** Each result is counted at most once, and only counted results are
    recorded. *)
Lemma consumeResults_probed (results : list (WaybackOption * option string)) :
  forall st,
    (probed (consumeResults now limit results st)
     <= probed st + List.length results)%nat
    /\ forall x, In x (consumed (consumeResults now limit results st)) ->
                 In x (consumed st) \/ In x results.
Proof.
  induction results as [|[v hash] rest IH]; intros st; cbn [consumeResults].
  - split; [lia | intros x Hx; left; exact Hx].
  - assert (Hstep : forall st',
               probed st' = S (probed st) ->
               consumed st' = consumed st ++ [(v, hash)] ->
               (probed st' <= probed st + List.length ((v, hash) :: rest))%nat
               /\ (forall x, In x (consumed st') ->
                             In x (consumed st) \/ In x ((v, hash) :: rest))
               /\ (probed (consumeResults now limit rest st')
                   <= probed st + List.length ((v, hash) :: rest))%nat
               /\ (forall x, In x (consumed (consumeResults now limit rest st')) ->
                             In x (consumed st) \/ In x ((v, hash) :: rest))).
    { intros st' Hp Hc. destruct (IH st') as [I1 I2]. cbn [List.length].
      assert (Hin : forall x, In x (consumed st') ->
                              In x (consumed st) \/ In x ((v, hash) :: rest)).
      { intros x Hx. rewrite Hc in Hx. apply in_app_or in Hx.
        destruct Hx as [Hx | [<- | []]]; [left; exact Hx | right; left; reflexivity]. }
      split; [lia|]. split; [exact Hin|]. split; [lia|].
      intros x Hx. destruct (I2 x Hx) as [Hx' | Hx'];
        [apply Hin; exact Hx' | right; right; exact Hx']. }
    destruct (limit <=? Z.of_nat (List.length (available st))).
    { split; [lia | intros x Hx; left; exact Hx]. }
    destruct hash as [h|].
    + destruct (hasSeen h (seen st)).
      * destruct (Hstep (mkProbeState (available st) (seen st) (S (deduped st))
                           (failed st) (S (probed st)) (tick st)
                           (consumed st ++ [(v, Some h)])) eq_refl eq_refl)
          as (_ & _ & G1 & G2).
        split; assumption.
      * cbn [probed tick available seen deduped failed consumed].
        destruct (maxProbes <=? S (probed st))%nat.
        { destruct (Hstep (mkProbeState (available st ++ [v]) (h :: seen st) (deduped st)
                             (failed st) (S (probed st)) (tick st)
                             (consumed st ++ [(v, Some h)])) eq_refl eq_refl)
            as (G1 & G2 & _). split; assumption. }
        destruct (Hstep (mkProbeState (available st ++ [v]) (h :: seen st) (deduped st)
                           (failed st) (S (probed st)) (S (tick st))
                           (consumed st ++ [(v, Some h)])) eq_refl eq_refl)
          as (G1 & G2 & G3 & G4).
        destruct (now (tick st) - startedAt now >? maxProbeMs); split; assumption.
    + cbn [probed tick available seen deduped failed consumed].
      destruct (maxProbes <=? S (probed st))%nat.
      { destruct (Hstep (mkProbeState (available st) (seen st) (deduped st)
                           (S (failed st)) (S (probed st)) (tick st)
                           (consumed st ++ [(v, None)])) eq_refl eq_refl)
          as (G1 & G2 & _). split; assumption. }
      destruct (Hstep (mkProbeState (available st) (seen st) (deduped st)
                         (S (failed st)) (S (probed st)) (S (tick st))
                         (consumed st ++ [(v, None)])) eq_refl eq_refl)
        as (G1 & G2 & G3 & G4).
      destruct (now (tick st) - startedAt now >? maxProbeMs); split; assumption.
Qed.

Lemma probeBatches_probed (batches : list (list (WaybackOption * option string))) :
  forall st,
    (probed (probeBatches now limit batches st)
     <= probed st + List.length (List.concat batches))%nat
    /\ (forall x, In x (consumed (probeBatches now limit batches st)) ->
                  In x (consumed st) \/ In x (List.concat batches))
    /\ (Forall (fun b => (List.length b <= batchSize)%nat) batches ->
        (probed st <= maxProbes + batchSize - 1)%nat ->
        (probed (probeBatches now limit batches st) <= maxProbes + batchSize - 1)%nat).
Proof.
  induction batches as [|batch rest IH]; intros st; cbn [probeBatches List.concat].
  - split; [lia|]. split; [intros x Hx; left; exact Hx | intros _ H; exact H].
  - rewrite length_app.
    destruct (limit <=? Z.of_nat (List.length (available st))).
    { split; [lia|]. split; [intros x Hx; left; exact Hx | intros _ H; exact H]. }
    destruct (maxProbes <=? probed st)%nat eqn:Ep.
    { split; [lia|]. split; [intros x Hx; left; exact Hx | intros _ H; exact H]. }
    apply Nat.leb_gt in Ep.
    destruct (now (tick st) - startedAt now >? maxProbeMs).
    { cbn [probed consumed].
      split; [lia|]. split; [intros x Hx; left; exact Hx | intros _ H; exact H]. }
    set (st1 := mkProbeState (available st) (seen st) (deduped st) (failed st)
                  (probed st) (S (tick st)) (consumed st)).
    destruct (consumeResults_probed batch st1) as [C1 C2].
    destruct (IH (consumeResults now limit batch st1)) as (I1 & I2 & I3).
    assert (Ep1 : probed st1 = probed st) by reflexivity.
    unfold batchSize, maxProbes in *.
    split; [lia|]. split.
    + intros x Hx. destruct (I2 x Hx) as [Hx' | Hx'].
      * destruct (C2 x Hx') as [H | H]; [left; exact H|].
        right. apply in_or_app. left. exact H.
      * right. apply in_or_app. right. exact Hx'.
    + intros Hs _. apply Forall_cons_iff in Hs. destruct Hs as [Hb Hs].
      apply I3; [exact Hs | lia].
Qed.

End Ledger.

Lemma buildTimeline_fst (now : nat -> Z) (limit : Z)
    (versions : list (WaybackOption * option string)) :
  fst (buildTimeline now limit versions)
  = probeBatches now limit (slices (List.length versions) versions)
      (mkProbeState [] [] 0 0 0 1 []).
Proof.
  unfold buildTimeline.
  destruct (available (probeBatches now limit (slices (List.length versions) versions)
                         (mkProbeState [] [] 0 0 0 1 []))); reflexivity.
Qed.

Lemma buildTimeline_snd (now : nat -> Z) (limit : Z)
    (versions : list (WaybackOption * option string)) :
  let st := fst (buildTimeline now limit versions) in
  (available st = [] /\ snd (buildTimeline now limit versions) = Throw NoCoverage)
  \/ (available st <> []
      /\ exists p, snd (buildTimeline now limit versions) = Return p
                   /\ Permutation (available st) (options p)
                   /\ query_probed p = probed st
                   /\ query_deduped p = deduped st
                   /\ query_failed p = failed st).
Proof.
  cbn zeta. rewrite buildTimeline_fst. unfold buildTimeline.
  destruct (available (probeBatches now limit (slices (List.length versions) versions)
                         (mkProbeState [] [] 0 0 0 1 []))) as [|first rest] eqn:E;
    cbn [snd].
  - left. split; reflexivity.
  - right. split; [discriminate|]. eexists. split; [reflexivity|].
    cbn [options query_probed query_deduped query_failed].
    split; [apply Array_sort_perm | repeat split].
Qed.

Lemma buildTimeline_ledger (now : nat -> Z) (limit : Z)
    (versions : list (WaybackOption * option string)) :
  let st := fst (buildTimeline now limit versions) in
  (probed st = List.length (available st) + deduped st + failed st)%nat
  /\ List.length (seen st) = List.length (available st)
  /\ (available st = [] -> deduped st = 0%nat)
  /\ Z.of_nat (List.length (available st)) <= Z.max 0 limit.
Proof.
  cbn zeta. rewrite buildTimeline_fst. apply probeBatches_ledger.
  cbn [probed available deduped failed seen List.length].
  split; [reflexivity|]. split; [reflexivity|]. split; [reflexivity | lia].
Qed.

(** X24: the books of the probe loop.  Every counted probe is kept,
    dropped as a duplicate or failed, so [probed] is the sum of the three;
    no more than [limit] versions are kept; no version is counted twice;
    and the count never passes [maxProbes] by a batch or more.  In a
    reply, the counters of [query] add up with the number of options, and
    there are between one and [limit] options. *)
Theorem buildTimeline_accounting (now : nat -> Z) (limit : Z)
    (versions : list (WaybackOption * option string)) :
  let st := fst (buildTimeline now limit versions) in
  let res := snd (buildTimeline now limit versions) in
  (probed st = List.length (available st) + deduped st + failed st)%nat
  /\ Z.of_nat (List.length (available st)) <= Z.max 0 limit
  /\ (probed st <= List.length versions)%nat
  /\ (probed st <= maxProbes + batchSize - 1)%nat
  /\ (forall p, res = Return p ->
        (query_probed p
         = List.length (options p) + query_deduped p + query_failed p)%nat
        /\ (1 <= List.length (options p))%nat
        /\ Z.of_nat (List.length (options p)) <= limit).
Proof.
  cbn zeta.
  destruct (buildTimeline_ledger now limit versions) as (L1 & _ & _ & L4).
  split; [exact L1|]. split; [exact L4|].
  assert (Hp : (probed (fst (buildTimeline now limit versions)) <= List.length versions)%nat
               /\ (probed (fst (buildTimeline now limit versions))
                   <= maxProbes + batchSize - 1)%nat).
  { rewrite buildTimeline_fst.
    destruct (probeBatches_probed now limit (slices (List.length versions) versions)
                (mkProbeState [] [] 0 0 0 1 [])) as (P1 & _ & P3).
    rewrite slices_concat in P1 by lia. cbn [probed] in P1, P3. split; [lia|].
    apply P3; [apply slices_short | unfold maxProbes, batchSize; lia]. }
  split; [apply Hp|]. split; [apply Hp|].
  intros p Hr.
  destruct (buildTimeline_snd now limit versions) as [[_ E] | (Hne & p' & E & Pm & Q1 & Q2 & Q3)];
    rewrite E in Hr; [discriminate Hr|].
  injection Hr as <-. rewrite Q1, Q2, Q3, <- (Permutation_length Pm).
  split; [exact L1|].
  destruct (available (fst (buildTimeline now limit versions))) as [|x l];
    [contradiction|].
  cbn [List.length] in *. split; lia.
Qed.

Lemma buildTimeline_accounting_witness :
  (3 = List.length [v1; v3] + 1 + 0)%nat
  /\ (1 <= List.length [v1; v3])%nat
  /\ Z.of_nat (List.length [v1; v3]) <= 2.
Proof.
  destruct (buildTimeline_accounting (fun _ => 0) 2 scenario) as (_ & _ & _ & _ & H).
  exact (H (mkPayload [v1; v3] 1 3 3 1 0) eq_refl).
Defined.

Section Growth.
Variables (now : nat -> Z) (limit : Z).

(** [probed] only grows. *)
Lemma consumeResults_probed_ge (results : list (WaybackOption * option string)) :
  forall st, (probed st <= probed (consumeResults now limit results st))%nat.
Proof.
  induction results as [|[v hash] rest IH]; intros st; cbn [consumeResults]; [lia|].
  destruct (limit <=? Z.of_nat (List.length (available st))); [lia|].
  destruct hash as [h|].
  - destruct (hasSeen h (seen st)).
    + etransitivity; [|apply IH]. cbn [probed]. lia.
    + cbn [probed tick available seen deduped failed consumed].
      destruct (maxProbes <=? S (probed st))%nat; [cbn [probed]; lia|].
      destruct (now (tick st) - startedAt now >? maxProbeMs); [cbn [probed]; lia|].
      etransitivity; [|apply IH]. cbn [probed]. lia.
  - cbn [probed tick available seen deduped failed consumed].
    destruct (maxProbes <=? S (probed st))%nat; [cbn [probed]; lia|].
    destruct (now (tick st) - startedAt now >? maxProbeMs); [cbn [probed]; lia|].
    etransitivity; [|apply IH]. cbn [probed]. lia.
Qed.

Lemma probeBatches_probed_ge (batches : list (list (WaybackOption * option string))) :
  forall st, (probed st <= probed (probeBatches now limit batches st))%nat.
Proof.
  induction batches as [|batch rest IH]; intros st; cbn [probeBatches]; [lia|].
  destruct (limit <=? Z.of_nat (List.length (available st))); [lia|].
  destruct (maxProbes <=? probed st)%nat; [lia|].
  destruct (now (tick st) - startedAt now >? maxProbeMs); [cbn [probed]; lia|].
  etransitivity; [|apply IH].
  etransitivity; [|apply consumeResults_probed_ge]. cbn [probed]. lia.
Qed.

Lemma consumeResults_first (v : WaybackOption) (hash : option string)
    (rest : list (WaybackOption * option string)) (st : ProbeState) :
  (limit <=? Z.of_nat (List.length (available st))) = false ->
  (S (probed st) <= probed (consumeResults now limit ((v, hash) :: rest) st))%nat.
Proof.
  intros El. cbn [consumeResults]. rewrite El.
  destruct hash as [h|].
  - destruct (hasSeen h (seen st)).
    + etransitivity; [|apply consumeResults_probed_ge]. cbn [probed]. lia.
    + cbn [probed tick available seen deduped failed consumed].
      destruct (maxProbes <=? S (probed st))%nat; [cbn [probed]; lia|].
      destruct (now (tick st) - startedAt now >? maxProbeMs); [cbn [probed]; lia|].
      etransitivity; [|apply consumeResults_probed_ge]. cbn [probed]. lia.
  - cbn [probed tick available seen deduped failed consumed].
    destruct (maxProbes <=? S (probed st))%nat; [cbn [probed]; lia|].
    destruct (now (tick st) - startedAt now >? maxProbeMs); [cbn [probed]; lia|].
    etransitivity; [|apply consumeResults_probed_ge]. cbn [probed]. lia.
Qed.

(** The first version is always counted when there is room for one and
    the first look at the clock is in time. *)
Lemma first_version_probed (versions : list (WaybackOption * option string)) :
  0 < limit -> versions <> [] -> now 1%nat - now 0%nat <= maxProbeMs ->
  (1 <= probed (fst (buildTimeline now limit versions)))%nat.
Proof.
  intros Hl Hv Hc. rewrite buildTimeline_fst.
  destruct versions as [|[v hash] vs]; [contradiction|].
  cbn [List.length slices]. unfold batchSize at 1. cbn [firstn].
  cbn [probeBatches available probed tick List.length].
  assert (El : (limit <=? Z.of_nat 0) = false) by (apply Z.leb_gt; simpl; lia).
  rewrite El. cbn [Nat.leb maxProbes].
  replace (now 1%nat - startedAt now >? maxProbeMs) with false
    by (symmetry; unfold startedAt; lia).
  etransitivity; [|apply probeBatches_probed_ge].
  etransitivity; [|apply consumeResults_first; exact El].
  cbn [probed]. lia.
Qed.

End Growth.



(** X26: every version the loop keeps was probed with success, was in the
    list of versions, and no two kept versions gave the same hash. *)
Theorem kept_versions_distinct (now : nat -> Z) (limit : Z)
    (versions : list (WaybackOption * option string)) :
  let st := fst (buildTimeline now limit versions) in
  exists hashes,
    NoDup hashes
    /\ Forall2 (fun v h => In (v, Some h) (consumed st) /\ In (v, Some h) versions)
               (available st) hashes.
Proof.
  cbn zeta.
  assert (Hi : probeInv (fst (buildTimeline now limit versions))).
  { rewrite buildTimeline_fst. apply probeBatches_inv. repeat split. }
  destruct Hi as (Ha & _ & _).
  destruct (firstOfEachHash_distinct (consumed (fst (buildTimeline now limit versions))) [])
    as (hs & H1 & _ & H3).
  exists hs. split; [exact H1|]. rewrite Ha.
  eapply Forall2_impl; [|exact H3]. intros v h Hin. split; [exact Hin|].
  revert Hin. rewrite buildTimeline_fst. intros Hin.
  destruct (probeBatches_probed now limit (slices (List.length versions) versions)
              (mkProbeState [] [] 0 0 0 1 [])) as (_ & P2 & _).
  destruct (P2 _ Hin) as [[] | Hv].
  rewrite slices_concat in Hv by lia. exact Hv.
Qed.

End WaybackMore.

(** ** The timeline route: what is kept, and the request parameters *)

Module TimelineProps.
Import Wayback WaybackProps WaybackMore.

Local Open Scope Z_scope.

Section Budgeted.
Variables (now : nat -> Z) (limit : Z).
Variable versions : list (WaybackOption * option string).
Hypothesis clock_ok : forall k, now k - now 0%nat <= maxProbeMs.
Hypothesis probes_ok : (List.length versions <= maxProbes)%nat.

Lemma clock_in_time (k : nat) : (now k - startedAt now >? maxProbeMs) = false.
Proof. unfold startedAt. pose proof (clock_ok k). lia. Qed.

(** At the limit the loop holds the first [limit] fresh versions. *)
Lemma kept_at_limit (st : ProbeState) (rest : list (WaybackOption * option string)) :
  probeInv st -> consumed st ++ rest = versions ->
  Z.of_nat (List.length (available st)) <= Z.max 0 limit ->
  limit <= Z.of_nat (List.length (available st)) ->
  available st = firstn (Z.to_nat limit) (firstOfEachHash versions []).
Proof.
  intros (Ha & _ & _) Hv Hmax Hl.
  rewrite <- Hv, firstOfEachHash_app, <- Ha.
  destruct (Z_le_gt_dec limit 0) as [H0 | H0].
  - replace (Z.to_nat limit) with 0%nat by lia.
    destruct (available st); [reflexivity | cbn [List.length] in Hmax; lia].
  - replace (Z.to_nat limit) with (List.length (available st) + 0)%nat by lia.
    rewrite firstn_app_2. cbn [firstn]. rewrite app_nil_r. reflexivity.
Qed.

(** At the end of the list it holds every fresh version, no more than
    [limit]. *)
Lemma kept_at_end (st : ProbeState) :
  probeInv st -> consumed st = versions ->
  Z.of_nat (List.length (available st)) <= Z.max 0 limit ->
  available st = firstn (Z.to_nat limit) (firstOfEachHash versions []).
Proof.
  intros (Ha & _ & _) Hv Hmax. rewrite <- Hv, <- Ha.
  symmetry. apply firstn_all2. lia.
Qed.

Lemma consumeResults_run (results : list (WaybackOption * option string)) :
  forall st future,
    probeInv st -> consumed st ++ results ++ future = versions ->
    consumed (consumeResults now limit results st) = consumed st ++ results
    \/ (limit <= Z.of_nat (List.length (available (consumeResults now limit results st)))
        /\ exists rest, consumed (consumeResults now limit results st) ++ rest = versions).
Proof.
  induction results as [|[v hash] rest IH]; intros st future H Hv; cbn [consumeResults].
  - left. rewrite app_nil_r. reflexivity.
  - destruct (limit <=? Z.of_nat (List.length (available st))) eqn:El.
    + right. apply Z.leb_le in El. split; [exact El|]. eexists. exact Hv.
    + pose proof (probeInv_step st v hash (tick st) H) as H1.
      pose proof (probeInv_step st v hash (S (tick st)) H) as H2.
      assert (Hv' : (consumed st ++ [(v, hash)]) ++ rest ++ future = versions).
      { rewrite <- app_assoc. exact Hv. }
      assert (Hfull : (maxProbes <= S (probed st))%nat -> rest = []).
      { intros Hp. destruct H as (_ & _ & Hpr). pose proof probes_ok as Hlen.
        rewrite <- Hv, !length_app in Hlen. destruct rest; [reflexivity|].
        simpl in Hlen. lia. }
      destruct hash as [h|].
      * destruct (hasSeen h (seen st)).
        -- destruct (IH _ future H1 Hv') as [E | F]; [left | right; exact F].
           rewrite E. cbn [consumed]. rewrite <- app_assoc. reflexivity.
        -- cbn [probed tick available seen deduped failed consumed] in *.
           destruct (maxProbes <=? S (probed st))%nat eqn:Ep.
           ++ apply Nat.leb_le in Ep. rewrite (Hfull Ep). left. reflexivity.
           ++ rewrite clock_in_time.
              destruct (IH _ future H2 Hv') as [E | F]; [left | right; exact F].
              rewrite E. cbn [consumed]. rewrite <- app_assoc. reflexivity.
      * cbn [probed tick available seen deduped failed consumed] in *.
        destruct (maxProbes <=? S (probed st))%nat eqn:Ep.
        -- apply Nat.leb_le in Ep. rewrite (Hfull Ep). left. reflexivity.
        -- rewrite clock_in_time.
           destruct (IH _ future H2 Hv') as [E | F]; [left | right; exact F].
           rewrite E. cbn [consumed]. rewrite <- app_assoc. reflexivity.
Qed.

Lemma probeBatches_run (batches : list (list (WaybackOption * option string))) :
  forall st,
    probeInv st ->
    consumed st ++ List.concat batches = versions
    \/ (limit <= Z.of_nat (List.length (available st))
        /\ exists rest, consumed st ++ rest = versions) ->
    consumed (probeBatches now limit batches st) = versions
    \/ (limit <= Z.of_nat (List.length (available (probeBatches now limit batches st)))
        /\ exists rest, consumed (probeBatches now limit batches st) ++ rest = versions).
Proof.
  induction batches as [|batch rest IH]; intros st Hi H; cbn [probeBatches].
  - destruct H as [Hv | F]; [left | right; exact F].
    cbn [List.concat] in Hv. rewrite app_nil_r in Hv. exact Hv.
  - destruct (limit <=? Z.of_nat (List.length (available st))) eqn:El.
    { apply Z.leb_le in El. destruct H as [Hv | F]; [|right; exact F].
      right. split; [exact El|]. eexists. exact Hv. }
    destruct H as [Hv | [F _]]; [|apply Z.leb_gt in El; lia].
    destruct (maxProbes <=? probed st)%nat eqn:Ep.
    { apply Nat.leb_le in Ep. left. destruct Hi as (_ & _ & Hpr).
      pose proof probes_ok as Hlen. rewrite <- Hv, length_app in Hlen.
      destruct (List.concat (batch :: rest)); [rewrite app_nil_r in Hv; exact Hv|].
      simpl in Hlen. lia. }
    rewrite clock_in_time.
    pose proof (probeInv_tick st (S (tick st)) Hi) as Hi'.
    cbn [List.concat] in Hv.
    apply IH; [apply consumeResults_inv; exact Hi'|].
    destruct (consumeResults_run batch _ (List.concat rest) Hi' Hv) as [E | F].
    + left. rewrite E. cbn [consumed]. rewrite <- app_assoc. exact Hv.
    + right. exact F.
Qed.

(** With the clock in time and no more versions than probes allowed, the
    loop keeps the first [limit] versions whose hash is fresh. *)
Lemma buildTimeline_budgeted :
  available (fst (buildTimeline now limit versions))
  = firstn (Z.to_nat limit) (firstOfEachHash versions []).
Proof.
  assert (Hi : probeInv (fst (buildTimeline now limit versions))).
  { rewrite buildTimeline_fst. apply probeBatches_inv. repeat split. }
  destruct (buildTimeline_ledger now limit versions) as (_ & _ & _ & L4).
  assert (Hrun : consumed (fst (buildTimeline now limit versions)) = versions
                 \/ (limit <= Z.of_nat (List.length
                                          (available (fst (buildTimeline now limit versions))))
                     /\ exists rest,
                          consumed (fst (buildTimeline now limit versions)) ++ rest
                          = versions)).
  { rewrite buildTimeline_fst. apply probeBatches_run; [repeat split|].
    left. cbn [consumed app]. apply slices_concat. lia. }
  destruct Hrun as [E | [Hl [rest E]]].
  - apply kept_at_end; assumption.
  - apply (kept_at_limit _ rest); assumption.
Qed.

End Budgeted.

(** C8 (amended): the probe loop keeps, of the versions it counts, exactly those
    whose hash no earlier counted version had: a version whose hash was
    already seen is dropped.  When the clock stays within the 30 s and the
    list has no more versions than probes allowed, it keeps the first
    [limit] versions with a fresh hash, so all of them when they are no
    more than [limit].  The timeline is the kept versions sorted by date
    ascending, ties by id ascending; [beforeId] is the id of the oldest
    kept version and [afterId] that of the newest.  For three versions
    probed newest to oldest with hashes v3 -> H1, v2 -> H1, v1 -> H2, a
    clock in time and a limit of two or more (the route's is at least
    five) the loop keeps v3 and v1, the timeline is [v1; v3], [beforeId]
    is v1's id and [afterId] is v3's. *)
Theorem buildTimeline_unique_sorted (now : nat -> Z) (limit : Z)
    (versions : list (WaybackOption * option string)) :
  let st := fst (buildTimeline now limit versions) in
  let res := snd (buildTimeline now limit versions) in
  available st = firstOfEachHash (consumed st) []
  /\ ((forall k, now k - now 0%nat <= maxProbeMs) ->
      (List.length versions <= maxProbes)%nat ->
      available st = firstn (Z.to_nat limit) (firstOfEachHash versions []))
  /\ (forall p,
        res = Return p ->
        Permutation (available st) (options p)
        /\ StronglySorted olderOrSame (options p)
        /\ exists oldest newest,
             In oldest (available st) /\ In newest (available st)
             /\ beforeId p = id oldest /\ afterId p = id newest
             /\ forall v, In v (available st) ->
                          olderOrSame oldest v /\ olderOrSame v newest)
  /\ ((forall k, now k - now 0%nat <= maxProbeMs) ->
      2 <= limit ->
      available (fst (buildTimeline now limit scenario)) = [v3; v1]
      /\ exists p,
           snd (buildTimeline now limit scenario) = Return p
           /\ options p = [v1; v3]
           /\ beforeId p = id v1 /\ afterId p = id v3).
Proof.
  cbn zeta. split; [|split; [|split]].
  - assert (H : probeInv (fst (buildTimeline now limit versions))).
    { rewrite buildTimeline_fst. apply probeBatches_inv. repeat split. }
    apply H.
  - intros Hc Hp. apply buildTimeline_budgeted; assumption.
  - unfold buildTimeline.
    set (st := probeBatches now limit (slices (List.length versions) versions)
                 (mkProbeState [] [] 0 0 0 1 [])).
    destruct (available st) as [|first rest] eqn:Ea; cbn [fst snd];
      intros p Hp; [discriminate Hp|].
    set (opts := Array_sort (fun a b => oldestFirst a b <=? 0) (first :: rest)) in Hp.
    injection Hp as <-. cbn [options beforeId afterId]. rewrite Ea.
    assert (P : Permutation (first :: rest) opts)
      by apply (Array_sort_perm leqOldest).
    assert (S : StronglySorted olderOrSame opts).
    { apply (StronglySorted_weaken (fun a b => leqOldest a b = true));
        [intros a b; apply leqOldest_olderOrSame|].
      apply (Array_sort_sorted leqOldest leqOldest_total leqOldest_trans). }
    split; [exact P|]. split; [exact S|].
    clearbody opts. destruct opts as [|o os].
    { apply Permutation_sym, Permutation_nil in P. discriminate P. }
    exists o, (nth (List.length (o :: os) - 1) (o :: os) first).
    split; [apply (Permutation_in _ (Permutation_sym P)); left; reflexivity|].
    split; [apply (Permutation_in _ (Permutation_sym P)), nth_In; simpl; lia|].
    split; [reflexivity|]. split; [reflexivity|].
    intros v Hv. apply (Permutation_in _ P) in Hv. split.
    + destruct Hv as [<- | Hv]; [apply olderOrSame_refl|].
      apply StronglySorted_inv in S. destruct S as [_ Hall].
      rewrite Forall_forall in Hall. apply Hall. exact Hv.
    + apply sorted_last; [apply olderOrSame_refl | exact S | exact Hv].
  - intros Hc Hl.
    assert (Ha : available (fst (buildTimeline now limit scenario)) = [v3; v1]).
    { rewrite (buildTimeline_budgeted now limit scenario Hc)
        by (unfold maxProbes; simpl; lia).
      apply firstn_all2. simpl. lia. }
    split; [exact Ha|].
    unfold buildTimeline in *.
    set (st := probeBatches now limit (slices (List.length scenario) scenario)
                 (mkProbeState [] [] 0 0 0 1 [])) in *.
    destruct (available st) as [|first rest] eqn:Ea; cbn [fst] in Ha;
      rewrite Ea in Ha; [discriminate Ha|].
    injection Ha as -> ->. cbn [snd].
    eexists. split; [reflexivity|]. cbn [options beforeId afterId].
    repeat split.
Qed.

Lemma buildTimeline_unique_sorted_witness :
  available (fst (buildTimeline (fun _ => 0) 60 scenario))
  = firstn (Z.to_nat 60) (firstOfEachHash scenario []).
Proof.
  destruct (buildTimeline_unique_sorted (fun _ => 0) 60 scenario) as (_ & H & _).
  apply H.
  - intros k. unfold maxProbeMs. lia.
  - unfold maxProbes. simpl. lia.
Defined.

(** C8, as stated, fails: not every version with a fresh hash is kept.  Of
    six versions with six different hashes a limit of five keeps the five
    newest, and the oldest is left out although its hash was never seen. *)
Lemma buildTimeline_limit_leaves_fresh_out :
  firstOfEachHash sixVersions [] = [w6; w5; w4; v3; v2; v1]
  /\ available (fst (buildTimeline (fun _ => 0) 5 sixVersions)) = [w6; w5; w4; v3; v2]
  /\ ~ In v1 (available (fst (buildTimeline (fun _ => 0) 5 sixVersions))).
Proof.
  assert (E : available (fst (buildTimeline (fun _ => 0) 5 sixVersions))
              = [w6; w5; w4; v3; v2]) by (vm_compute; reflexivity).
  split; [vm_compute; reflexivity|]. split; [exact E|].
  rewrite E. intros H. repeat (destruct H as [H | H]; [discriminate H|]). exact H.
Qed.

(** Nor when the clock runs out: with every look at the clock after the
    start 31 s late, the loop of the scenario stops before its first
    probe. *)
Example buildTimeline_slow_clock :
  available (fst (buildTimeline (fun k => match k with O => 0 | _ => 31000 end)
                    60 scenario)) = []
  /\ snd (buildTimeline (fun k => match k with O => 0 | _ => 31000 end) 60 scenario)
     = Throw NoCoverage.
Proof. split; vm_compute; reflexivity. Qed.

(** *** Request parameters *)

(** [Math.round]: the nearest integer, halves upwards. *)
Lemma Math_round_nearest (q : Q) :
  (inject_Z (Math_round q) - (1 # 2) <= q)%Q
  /\ (q < inject_Z (Math_round q) + (1 # 2))%Q.
Proof.
  unfold Math_round.
  pose proof (Qfloor_le (q + (1 # 2))) as H1.
  pose proof (Qlt_floor (q + (1 # 2))) as H2.
  rewrite inject_Z_plus in H2. change (inject_Z 1) with 1%Q in H2.
  set (r := inject_Z (Qfloor (q + (1 # 2)))) in *. split; Lqa.lra.
Qed.

(** C10: the probe zoom is the integer nearest to [zoom] (halves upwards)
    clamped to [0, 23] when the request's zoom is a finite number, and 16
    otherwise; the limit is the integer nearest to [limit] clamped to
    [5, 120] when it is a finite number, and 60 otherwise.  The probe tile
    carries that zoom, so no probe is issued at zoom 24, and the probe
    loop runs with that limit: it never keeps more versions, and with the
    clock in time and no more versions than probes allowed it keeps
    exactly the first [limit] versions with a fresh hash. *)
Theorem request_params_clamped (body : Body) :
  (0 <= zoomOf body <= 23)
  /\ (5 <= limitOf body <= 120)
  /\ (forall q, zoom body = JsNum (Finite q) ->
        exists r, (inject_Z r - (1 # 2) <= q)%Q /\ (q < inject_Z r + (1 # 2))%Q
                  /\ zoomOf body = Z.min (Z.max r 0) 23)
  /\ ((forall q, zoom body <> JsNum (Finite q)) -> zoomOf body = 16)
  /\ (forall q, limit body = JsNum (Finite q) ->
        exists r, (inject_Z r - (1 # 2) <= q)%Q /\ (q < inject_Z r + (1 # 2))%Q
                  /\ limitOf body = Z.min (Z.max r 5) 120)
  /\ ((forall q, limit body <> JsNum (Finite q)) -> limitOf body = 60)
  /\ tile_z (probeTile body) = zoomOf body
  /\ tile_z (probeTile body) <> 24
  /\ (forall now versions,
        Z.of_nat (List.length (available (fst (timelineOf now body versions))))
        <= limitOf body)
  /\ (forall now versions,
        (forall k, now k - now 0%nat <= maxProbeMs) ->
        (List.length versions <= maxProbes)%nat ->
        available (fst (timelineOf now body versions))
        = firstn (Z.to_nat (limitOf body)) (firstOfEachHash versions [])).
Proof.
  assert (Hz : 0 <= zoomOf body <= 23) by (apply clampedParam_range; lia).
  assert (Hl : 5 <= limitOf body <= 120) by (apply clampedParam_range; lia).
  assert (Ht : tile_z (probeTile body) = zoomOf body).
  { unfold probeTile. destruct (centerOfBbox (bbox body)). reflexivity. }
  split; [exact Hz|]. split; [exact Hl|].
  split.
  { intros q E. exists (Math_round q). destruct (Math_round_nearest q) as [R1 R2].
    split; [exact R1|]. split; [exact R2|]. unfold zoomOf. rewrite E. reflexivity. }
  split.
  { intros N. unfold zoomOf, clampedParam.
    destruct (zoom body) as [| | | |[q| |]]; try reflexivity.
    exfalso. apply (N q). reflexivity. }
  split.
  { intros q E. exists (Math_round q). destruct (Math_round_nearest q) as [R1 R2].
    split; [exact R1|]. split; [exact R2|]. unfold limitOf. rewrite E. reflexivity. }
  split.
  { intros N. unfold limitOf, clampedParam.
    destruct (limit body) as [| | | |[q| |]]; try reflexivity.
    exfalso. apply (N q). reflexivity. }
  split; [exact Ht|]. split; [rewrite Ht; lia|].
  split.
  - intros now versions. unfold timelineOf.
    destruct (buildTimeline_ledger now (limitOf body) versions) as (_ & _ & _ & L4).
    cbn zeta in L4. lia.
  - intros now versions Hc Hp. unfold timelineOf.
    apply buildTimeline_budgeted; assumption.
Qed.

Lemma request_params_clamped_witness :
  (exists r, (inject_Z r - (1 # 2) <= 24)%Q /\ (24 < inject_Z r + (1 # 2))%Q
             /\ zoomOf (mkBody (Projector.mkBBox 0 0 1 1) (JsNum (Finite 24)) (JsString "60"))
                = Z.min (Z.max r 0) 23)
  /\ limitOf (mkBody (Projector.mkBBox 0 0 1 1) (JsNum (Finite 24)) (JsString "60")) = 60.
Proof.
  destruct (request_params_clamped
              (mkBody (Projector.mkBBox 0 0 1 1) (JsNum (Finite 24)) (JsString "60")))
    as (_ & _ & Hz & _ & _ & Hl & _).
  split.
  - apply Hz. reflexivity.
  - apply Hl. intros q. discriminate.
Defined.

End TimelineProps.

(** ** Footprint test of the report search *)

Module ReportsProps.
Import Preview Reports.

Local Open Scope Q_scope.

Lemma bboxIntersects_true (a b : QBBox) :
  bboxIntersects a b = true
  <-> qMinLng a <= qMaxLng b /\ qMinLng b <= qMaxLng a
      /\ qMinLat a <= qMaxLat b /\ qMinLat b <= qMaxLat a.
Proof.
  unfold bboxIntersects. rewrite !andb_true_iff, !Qle_bool_iff. tauto.
Qed.

(** X28: the footprint test does not depend on the order of its
    arguments; two boxes that share a point always pass it; and for boxes
    whose corners are in order it passes only if they share a point, so a
    box in order always meets itself. *)
Theorem bboxIntersects_common_point (a b : QBBox) :
  bboxIntersects a b = bboxIntersects b a
  /\ ((exists x y, inBox x y a /\ inBox x y b) -> bboxIntersects a b = true)
  /\ (qMinLng a <= qMaxLng a -> qMinLat a <= qMaxLat a ->
      qMinLng b <= qMaxLng b -> qMinLat b <= qMaxLat b ->
      bboxIntersects a b = true ->
      exists x y, inBox x y a /\ inBox x y b)
  /\ (qMinLng a <= qMaxLng a -> qMinLat a <= qMaxLat a -> bboxIntersects a a = true).
Proof.
  split; [|split; [|split]].
  - unfold bboxIntersects.
    destruct (Qle_bool (qMinLng a) (qMaxLng b)), (Qle_bool (qMinLng b) (qMaxLng a)),
      (Qle_bool (qMinLat a) (qMaxLat b)), (Qle_bool (qMinLat b) (qMaxLat a));
      reflexivity.
  - intros (x & y & (A1 & A2 & A3 & A4) & (B1 & B2 & B3 & B4)).
    apply bboxIntersects_true. repeat split; Lqa.lra.
  - intros Ha1 Ha2 Hb1 Hb2 H. apply bboxIntersects_true in H.
    destruct H as (H1 & H2 & H3 & H4).
    exists (Qmax (qMinLng a) (qMinLng b)), (Qmax (qMinLat a) (qMinLat b)).
    unfold inBox.
    destruct (Q.max_spec (qMinLng a) (qMinLng b)) as [[L1 E1] | [L1 E1]];
      destruct (Q.max_spec (qMinLat a) (qMinLat b)) as [[L2 E2] | [L2 E2]];
      rewrite E1, E2; repeat split; Lqa.lra.
  - intros H1 H2. apply bboxIntersects_true. repeat split; assumption.
Qed.

Lemma bboxIntersects_common_point_witness :
  exists x y, inBox x y (mkQBBox 0 0 2 2) /\ inBox x y (mkQBBox 1 1 3 3).
Proof.
  destruct (bboxIntersects_common_point (mkQBBox 0 0 2 2) (mkQBBox 1 1 3 3))
    as (_ & _ & H & _).
  apply H; try reflexivity; cbn; discriminate.
Defined.

End ReportsProps.
